(** * Playlist-to-tree synchronisation of the music database

    A shallow embedding of [src/db/update/Playlist.cxx]: the three overloads
    of [UpdateWalk::UpdatePlaylistFile] and
    [UpdateWalk::PurgeDanglingFromPlaylists], over a functional model of the
    [Directory] tree.

    Conventions.
    - The tree is owned top-down: a [Directory] value holds its children and
      its songs.  A [Directory *] handed to the expansion code points at a
      child of [parent] and is modelled by the position of that child.
    - A [Song *] kept in the [std::map] snapshot is modelled by the position
      the song had in [parent.songs] when the snapshot was taken; the songs
      of the parent carry that address while the loop runs.
    - C++ outcomes that are not a normal return are explicit: dereferencing
      [nullptr], using a [Directory] after [LockDeleteDirectory] freed it,
      and [std::terminate] when an exception leaves a [noexcept] function. *)

From Stdlib Require Import ZArith NArith String Ascii DecimalString DecimalN.
From stdpp Require Import base option list gmap strings.

Local Open Scope string_scope.

(** ** Data model *)

(** A database song.  [target] is non-empty for a virtual song, [tag] stands
    for the metadata moved out of the [DetachedSong]. *)
Record Song := mkSong {
  filename : string;
  target : string;
  in_playlist : bool;
  tag : string;
}.

Record PlaylistInfo := mkPlaylistInfo {
  pl_name : string;
  pl_mtime : Z;
}.

Record StorageFileInfo := mkStorageFileInfo {
  info_mtime : Z;
}.

#[local] Unset Elimination Schemes.
Inductive Directory := mkDirectory {
  name : string;
  path : string;
  is_root : bool;
  device : N;
  mtime : Z;
  children : list Directory;
  songs : list Song;
  playlists : list PlaylistInfo;
}.
#[local] Set Elimination Schemes.

(** What a [SongEnumerator] hands out. *)
Record DetachedSong := mkDetachedSong {
  uri : string;
  dtag : string;
}.

(** One call of [SongEnumerator::NextSong]: it yields a song or throws; the
    end of the list is the [nullptr] result. *)
Inductive SongEvent :=
  | Yield (song : DetachedSong)
  | Raise.

Abbreviation SongEnumerator := (list SongEvent) (only parsing).

(** The result of [plugin.open_stream(InputStream::OpenReady(uri, mutex))]. *)
Inductive OpenResult :=
  | OpenThrows
  | OpenNull
  | OpenOk (e : SongEnumerator).

Record PlaylistPlugin := mkPlaylistPlugin {
  plugin_name : string;
  open_stream : string → OpenResult;
}.

Abbreviation DirPtr := nat (only parsing).
Abbreviation SongPtr := nat (only parsing).

(** How a call ends. *)
Inductive Exit :=
  | Returned
  | NullDereference
  | UseAfterFree
  | Terminated.

(** Modelled from the spec: the header declaring [DEVICE_PLAYLIST] is
    missing; it is the tag that flags a Directory as a virtual playlist
    directory.  Only its being one fixed value is used. *)
Definition DEVICE_PLAYLIST : N := 4294967293.

(** Modelled from the spec: [Directory::IsPlaylist] (Directory.hxx is
    missing), the flag marking a virtual playlist directory. *)
Definition IsPlaylist (d : Directory) : bool := N.eqb (device d) DEVICE_PLAYLIST.

(** Modelled from the spec: [Directory::IsEmpty] (Directory.hxx is missing),
    "the virtual Directory ends up with zero Songs". *)
Definition IsEmpty (d : Directory) : bool :=
  match songs d with [] => true | _ => false end.

Definition set_songs (l : list Song) (d : Directory) : Directory :=
  mkDirectory (name d) (path d) (is_root d) (device d) (mtime d)
              (children d) l (playlists d).

Definition set_children (l : list Directory) (d : Directory) : Directory :=
  mkDirectory (name d) (path d) (is_root d) (device d) (mtime d)
              l (songs d) (playlists d).

Definition set_playlists (l : list PlaylistInfo) (d : Directory) : Directory :=
  mkDirectory (name d) (path d) (is_root d) (device d) (mtime d)
              (children d) (songs d) l.

(** Modelled from the spec: [Directory::AddSong] (Directory.cxx is missing),
    the tree primitive "add Song"; the new song goes to the back. *)
Definition AddSong (s : Song) (d : Directory) : Directory :=
  set_songs (songs d ++ [s]) d.

(** The songs of [parent], each with its address. *)
Definition addressed (l : list Song) : list (SongPtr * Song) :=
  zip (seq 0 (length l)) l.

(** Modelled from the spec: [Directory::RemoveSong] (Directory.cxx is
    missing), the tree primitive "remove Song": the object at that address
    leaves the collection. *)
Definition RemoveSong (p : SongPtr) (l : list (SongPtr * Song)) : list (SongPtr * Song) :=
  filter (λ x, x.1 ≠ p) l.

(** ** Formatting the synthetic file name *)

Fixpoint zeros (n : nat) : string :=
  match n with
  | O => ""
  | S n' => String "0" (zeros n')
  end.

(** [%04u]: decimal, padded with zeros to at least four digits. *)
Definition format_04u (n : N) : string :=
  let digits := NilZero.string_of_uint (N.to_uint n) in
  zeros (4 - String.length digits) +:+ digits.

(** [StringFormat<64>("track%04u", n)]; the longest result has 15
    characters, so the buffer of 64 never truncates. *)
Definition track_name (n : N) : string := "track" +:+ format_04u n.

(** [++track] on an [unsigned]. *)
Definition incr_unsigned (n : N) : N := ((n + 1) mod 2 ^ 32)%N.

(** ** The expansion loop: [UpdatePlaylistFile(parent, directory, contents)] *)

(** The mutable state the loop works on: its locals [track] and [song_map],
    the two collections of [parent] it edits, whether [*directory] has been
    deleted, and the calls of [RemoveSong] made so far (target file name and
    address, oldest first). *)
Record Loop := mkLoop {
  track : N;
  song_map : gmap string SongPtr;
  parent_songs : list (SongPtr * Song);
  parent_children : list Directory;
  deleted : bool;
  removals : list (string * SongPtr);
}.

(** Modelled from the spec: [editor.LockDeleteDirectory] (the editor is
    missing), the tree primitive "remove Directory": the child leaves the
    children of its parent and is freed. *)
Definition LockDeleteDirectory (directory : DirPtr) (siblings : list Directory) : list Directory :=
  delete directory siblings.

(** [if (directory != nullptr) editor.LockDeleteDirectory(directory);] *)
Definition rollback (directory : option DirPtr) (st : Loop) : Loop :=
  match directory with
  | Some d =>
      mkLoop (track st) (song_map st) (parent_songs st)
             (LockDeleteDirectory d (parent_children st)) true (removals st)
  | None => st
  end.

Definition bail_uri : string := "mpd://bail".

Section Expansion.

(** [storage.MapUTF8] and the [stat] probe ([true] when [stat] does not
    fail). *)
Variable MapUTF8 : string → string.
Variable stat : string → bool.
(** [PathTraitsUTF8::IsAbsoluteOrHasScheme]. *)
Variable IsAbsoluteOrHasScheme : string → bool.

(** The path handed to [stat]. *)
Definition probe_path (parent_path target_filename : string) : string :=
  MapUTF8 parent_path +:+ "/" +:+ target_filename.

(** An entry that is neither the bail sentinel nor missing. *)
Definition resolves (parent_path : string) (e : SongEvent) : Prop :=
  ∃ song, e = Yield song ∧ uri song ≠ bail_uri
          ∧ stat (probe_path parent_path (uri song)) = true.

(** The target stored for an entry: a relative one gets [../] in front,
    to go from the virtual directory to the containing directory. *)
Definition stored_target (target_filename : string) : string :=
  if IsAbsoluteOrHasScheme target_filename
  then target_filename
  else "../" +:+ target_filename.

(** The [Song] built when [directory] is not null. *)
Definition make_db_song (song : DetachedSong) (n : N) : Song :=
  mkSong (track_name n) (stored_target (uri song)) false (dtag song).

(** The critical section at the end of one iteration. *)
Definition commit (directory : option DirPtr) (db_song : option Song)
    (target_filename : string) (st : Loop) : Loop :=
  let chl :=
    match directory, db_song with
    | Some d, Some s => alter (AddSong s) d (parent_children st)
    | _, _ => parent_children st
    end in
  match song_map st !! target_filename with
  | Some p =>
      mkLoop (track st) (delete target_filename (song_map st))
             (RemoveSong p (parent_songs st)) chl (deleted st)
             (removals st ++ [(target_filename, p)])
  | None =>
      mkLoop (track st) (song_map st) (parent_songs st) chl (deleted st)
             (removals st)
  end.

(** The state after one iteration whose entry is neither the bail sentinel
    nor missing. *)
Definition accepted (directory : option DirPtr) (song : DetachedSong)
    (st : Loop) : Loop :=
  match directory with
  | Some d =>
      commit directory
        (Some (make_db_song song (incr_unsigned (track st))))
        (uri song)
        (mkLoop (incr_unsigned (track st)) (song_map st) (parent_songs st)
                (parent_children st) (deleted st) (removals st))
  | None => commit directory None (uri song) st
  end.

(** The [while (true)] loop.  The result is how the loop was left, the
    state, and the part of the sequence that was never read.  An exception
    of [NextSong] leaves the enclosing [noexcept] function. *)
Fixpoint drain (parent_path : string) (directory : option DirPtr)
    (st : Loop) (contents : SongEnumerator) : Exit * Loop * SongEnumerator :=
  match contents with
  | [] => (Returned, st, [])
  | Raise :: rest => (Terminated, st, rest)
  | Yield song :: rest =>
      if String.eqb (uri song) bail_uri then
        (Returned, rollback directory st, rest)
      else
        let target_filename := uri song in
        let n := incr_unsigned (track st) in
        let db_song :=
          match directory with
          | Some _ => Some (make_db_song song n)
          | None => None
          end in
        let st1 :=
          match directory with
          | Some _ =>
              mkLoop n (song_map st) (parent_songs st) (parent_children st)
                     (deleted st) (removals st)
          | None => st
          end in
        if stat (probe_path parent_path target_filename) then
          drain parent_path directory
                (commit directory db_song target_filename st1) rest
        else
          (Returned, rollback directory st1, rest)
  end.

(** [for (auto &song: parent.songs) song_map[song.filename] = &song;] *)
Definition snapshot (l : list (SongPtr * Song)) : gmap string SongPtr :=
  foldl (λ m x, <[filename x.2 := x.1]> m) ∅ l.

Definition enter_loop (parent : Directory) : Loop :=
  mkLoop 0 (snapshot (addressed (songs parent))) (addressed (songs parent))
         (children parent) false [].

(** The parent as the loop state leaves it. *)
Definition leave_loop (parent : Directory) (st : Loop) : Directory :=
  set_children (parent_children st) (set_songs ((parent_songs st).*2) parent).

(** What a run of the expansion code leaves behind. *)
Record Expanded := mkExpanded {
  exit : Exit;
  parent_after : Directory;
  directory_deleted : bool;
  remove_calls : list (string * SongPtr);
  unread : SongEnumerator;
}.

Definition UpdatePlaylistFile_contents (parent : Directory)
    (directory : option DirPtr) (contents : SongEnumerator) : Expanded :=
  let '(x, st, rest) := drain (path parent) directory (enter_loop parent) contents in
  mkExpanded x (leave_loop parent st) (deleted st) (removals st) rest.

End Expansion.

(** What the loop keeps true of the snapshot, the songs of the parent and the
    calls of [RemoveSong]. *)
Record loop_inv (st : Loop) : Prop := mk_loop_inv {
  inv_addr : NoDup (parent_songs st).*1;
  inv_map : ∀ k p, song_map st !! k = Some p →
            ∃ s, (p, s) ∈ parent_songs st ∧ filename s = k;
  inv_gone_key : ∀ k, k ∈ (removals st).*1 → song_map st !! k = None;
  inv_gone_ptr : ∀ p, p ∈ (removals st).*2 → p ∉ (parent_songs st).*1;
  inv_keys : NoDup (removals st).*1;
  inv_ptrs : NoDup (removals st).*2;
}.

(** The log of [RemoveSong] calls against the songs [orig] the parent had on
    entry: a live song is one of them, a logged call names the address of
    one of them together with its file name, and each call took one song
    out. *)
Record log_sound (orig : list (SongPtr * Song)) (st : Loop) : Prop := mk_log_sound {
  log_live : ∀ x, x ∈ parent_songs st → x ∈ orig;
  log_calls : ∀ k p, (k, p) ∈ removals st →
              ∃ s, (p, s) ∈ orig ∧ filename s = k;
  log_count : length (parent_songs st) + length (removals st) = length orig;
}.

(** Every live song of the parent is still in the snapshot. *)
Definition map_complete (st : Loop) : Prop :=
  ∀ p s, (p, s) ∈ parent_songs st → song_map st !! filename s = Some p.

(** ** Opening the playlist: [UpdatePlaylistFile(parent, name, info, plugin)] *)

Section Scan.

Variable MapUTF8 : string → string.
Variable stat : string → bool.
Variable IsAbsoluteOrHasScheme : string → bool.
(** [PathTraitsUTF8::Build]. *)
Variable Build : string → string → string.
(** [LockMakeVirtualDirectoryIfModified] (Walk.cxx is missing): from the
    parent, the [modified] flag, the name, the file info and the device it
    gives the parent and the flag as it leaves them, and the directory to
    expand into, [None] for [nullptr]. *)
Variable LockMakeVirtualDirectoryIfModified :
  Directory → bool → string → StorageFileInfo → N → Directory * bool * option DirPtr.

(** [if (directory != nullptr) editor.LockDeleteDirectory(directory); return;]
    of the two roll-back paths; [directory] is still live there. *)
Definition rolled_back (parent : Directory) (directory : option DirPtr)
    : Expanded :=
  match directory with
  | Some d =>
      mkExpanded Returned
        (set_children (LockDeleteDirectory d (children parent)) parent)
        true [] []
  | None => mkExpanded Returned parent false [] []
  end.

(** The URI the stream is opened on. *)
Definition uri_utf8 (parent : Directory) (name : string) : string :=
  let path_utf8 := if is_root parent then name else Build (path parent) name in
  MapUTF8 path_utf8.

(** Lines 115 to 143: everything after the synchronizer's answer.  The
    [catch (...)] handler sees the exceptions of opening only: one thrown
    by [NextSong] has already left the [noexcept] loop function.  After the
    loop function has returned, [directory->IsEmpty()] reads [*directory]
    whatever the loop did: a null [directory] is dereferenced, and so is one
    the loop has deleted. *)
Definition scan (parent : Directory) (directory : option DirPtr)
    (name : string) (plugin : PlaylistPlugin) : Expanded :=
  match open_stream plugin (uri_utf8 parent name) with
  | OpenThrows => rolled_back parent directory
  | OpenNull => rolled_back parent directory
  | OpenOk e =>
      let r := UpdatePlaylistFile_contents MapUTF8 stat IsAbsoluteOrHasScheme
                 parent directory e in
      match exit r with
      | Returned =>
          match directory with
          | None =>
              mkExpanded NullDereference (parent_after r) (directory_deleted r)
                         (remove_calls r) (unread r)
          | Some d =>
              match (if directory_deleted r then None
                     else children (parent_after r) !! d) with
              | None =>
                  mkExpanded UseAfterFree (parent_after r) (directory_deleted r)
                             (remove_calls r) (unread r)
              | Some dir =>
                  if IsEmpty dir then
                    mkExpanded Returned
                      (set_children (LockDeleteDirectory d (children (parent_after r)))
                                    (parent_after r))
                      true (remove_calls r) (unread r)
                  else r
              end
          end
      | _ => r
      end
  end.

Definition UpdatePlaylistFile_plugin (parent : Directory) (modified : bool)
    (name : string) (info : StorageFileInfo) (plugin : PlaylistPlugin)
    : Expanded * bool :=
  let '(parent1, modified1, directory) :=
    LockMakeVirtualDirectoryIfModified parent modified name info DEVICE_PLAYLIST in
  (scan parent1 directory name plugin, modified1).

End Scan.

(** ** The dispatcher: [UpdatePlaylistFile(directory, name, suffix, info)] *)

(** Modelled from the spec: [PlaylistVector::UpdateOrInsert]
    (PlaylistVector.cxx is missing).  "Upsert a PlaylistInfo (by name) into
    the parent's playlist collection.  If an entry with that name existed
    with a different timestamp, or none existed, record the change": the
    boolean says whether a change was recorded. *)
Fixpoint UpdateOrInsert (v : list PlaylistInfo) (pi : PlaylistInfo)
    : list PlaylistInfo * bool :=
  match v with
  | [] => ([pi], true)
  | x :: v' =>
      if String.eqb (pl_name x) (pl_name pi) then
        if Z.eqb (pl_mtime x) (pl_mtime pi) then (v, false)
        else (mkPlaylistInfo (pl_name x) (pl_mtime pi) :: v', true)
      else
        let '(r, changed) := UpdateOrInsert v' pi in (x :: r, changed)
  end.

(** The entry of that name, the first one if there are several. *)
Fixpoint find_playlist (name0 : string) (v : list PlaylistInfo)
    : option PlaylistInfo :=
  match v with
  | [] => None
  | x :: v' =>
      if String.eqb (pl_name x) name0 then Some x else find_playlist name0 v'
  end.

(** What the dispatcher leaves behind: how it ended, its return value (read
    only after [Returned]), the directory and the [modified] flag. *)
Record Dispatched := mkDispatched {
  d_exit : Exit;
  d_return : bool;
  d_directory : Directory;
  d_modified : bool;
}.

Section Dispatch.

Variable MapUTF8 : string → string.
Variable stat : string → bool.
Variable IsAbsoluteOrHasScheme : string → bool.
Variable Build : string → string → string.
Variable LockMakeVirtualDirectoryIfModified :
  Directory → bool → string → StorageFileInfo → N → Directory * bool * option DirPtr.
(** The plugin registry. *)
Variable FindPlaylistPluginBySuffix : string → option PlaylistPlugin.
Variable GetPlaylistPluginAsFolder : PlaylistPlugin → bool.

Definition UpdatePlaylistFile (directory : Directory) (modified : bool)
    (name suffix : string) (info : StorageFileInfo) : Dispatched :=
  match FindPlaylistPluginBySuffix suffix with
  | None => mkDispatched Returned false directory modified
  | Some plugin =>
      if GetPlaylistPluginAsFolder plugin then
        let '(r, modified1) :=
          UpdatePlaylistFile_plugin MapUTF8 stat IsAbsoluteOrHasScheme Build
            LockMakeVirtualDirectoryIfModified directory modified name info plugin in
        mkDispatched (exit r) true (parent_after r) modified1
      else
        let pi := mkPlaylistInfo name (info_mtime info) in
        let '(v, changed) := UpdateOrInsert (playlists directory) pi in
        mkDispatched Returned true (set_playlists v directory)
                     (if changed then true else modified)
  end.

End Dispatch.

(** ** The purger: [PurgeDanglingFromPlaylists] *)

(** A directory of the tree is named by the positions of the children on the
    way down from the root; a [Song *] by its directory and its position in
    the songs of that directory. *)
Abbreviation DirPath := (list nat) (only parsing).
Abbreviation SongRef := (DirPath * nat)%type (only parsing).

Fixpoint lookup_dir (root : Directory) (p : DirPath) : option Directory :=
  match p with
  | [] => Some root
  | i :: p' =>
      match children root !! i with
      | Some c => lookup_dir c p'
      | None => None
      end
  end.

Fixpoint alter_dir (f : Directory → Directory) (p : DirPath) (root : Directory)
    : Directory :=
  match p with
  | [] => f root
  | i :: p' => set_children (alter (alter_dir f p') i (children root)) root
  end.

Definition lookup_song (root : Directory) (r : SongRef) : option Song :=
  match lookup_dir root r.1 with
  | Some d => songs d !! r.2
  | None => None
  end.

(** The songs of the directory at a path, and its device. *)
Definition songs_at (root : Directory) (p : DirPath) : option (list Song) :=
  songs <$> lookup_dir root p.

Definition device_at (root : Directory) (p : DirPath) : option N :=
  device <$> lookup_dir root p.

(** An edit of the songs of one directory. *)
Definition alter_songs (g : list Song → list Song) (dir : DirPath)
    (root : Directory) : Directory :=
  alter_dir (λ d, set_songs (g (songs d)) d) dir root.

(** Modelled from the spec: [editor.DeleteSong] (the editor is missing), the
    tree primitive "remove Song" on the song at that position. *)
Definition DeleteSong (dir : DirPath) (i : nat) (root : Directory) : Directory :=
  alter_songs (delete i) dir root.

(** [target->in_playlist = true] *)
Definition mark_song (s : Song) : Song :=
  mkSong (filename s) (target s) true (tag s).

Definition set_in_playlist (r : SongRef) (root : Directory) : Directory :=
  alter_songs (alter mark_song r.2) r.1 root.

(** [s'] is [s] with [in_playlist] kept or raised, never cleared. *)
Definition never_cleared (s s' : Song) : Prop :=
  filename s' = filename s ∧ target s' = target s ∧ tag s' = tag s
  ∧ (in_playlist s = true → in_playlist s' = true).

(** The songs of one directory before and after some steps of the pass:
    each song is kept, with its flag kept or raised, or, in a virtual
    playlist directory ([true]), deleted. *)
Inductive songs_purged : bool → list Song → list Song → Prop :=
  | purged_nil b : songs_purged b [] []
  | purged_keep b s s' l l' :
      never_cleared s s' → songs_purged b l l' →
      songs_purged b (s :: l) (s' :: l')
  | purged_drop s l l' :
      songs_purged true l l' → songs_purged true (s :: l) l'.

(** Every directory of [t] is still in [t'], at the same path and with the
    same device, its songs related as above. *)
Definition tree_purged (t t' : Directory) : Prop :=
  ∀ p d, lookup_dir t p = Some d →
    ∃ d', lookup_dir t' p = Some d' ∧ device d' = device d
          ∧ songs_purged (IsPlaylist d) (songs d) (songs d').

(** The directory at [dir] is a virtual playlist directory. *)
Definition playlist_at (t : Directory) (dir : DirPath) : Prop :=
  ∃ d, lookup_dir t dir = Some d ∧ IsPlaylist d = true.

(** The state of the pass: the tree and the [modified] flag of the walk. *)
Record Purged := mkPurged {
  tree : Directory;
  modified : bool;
}.

(** [for (Directory &child : directory.children) f(child);] where the
    children start at position [i]. *)
Definition for_each_child (f : Directory → DirPath → Purged → Purged)
    (dir : DirPath) : list Directory → nat → Purged → Purged :=
  fix each (cs : list Directory) (i : nat) (st : Purged) : Purged :=
    match cs with
    | [] => st
    | c :: cs' => each cs' (S i) (f c (dir ++ [i])%list st)
    end.

Section Purge.

Variable IsAbsoluteOrHasScheme : string → bool.
(** [Directory::LookupTargetSong] (Directory.cxx is missing): in the tree
    as it is now, from the directory at that path, the song a target
    resolves to, [None] for [nullptr]. *)
Variable LookupTargetSong : Directory → DirPath → string → option SongRef.

(** The body of the lambda.  The boolean says whether [song] was deleted. *)
Definition purge_song (dir : DirPath) (i : nat) (song : Song) (st : Purged)
    : Purged * bool :=
  if negb (String.eqb (target song) "")
     && negb (IsAbsoluteOrHasScheme (target song)) then
    match LookupTargetSong (tree st) dir (target song) with
    | None => (mkPurged (DeleteSong dir i (tree st)) true, true)
    | Some t => (mkPurged (set_in_playlist t (tree st)) (modified st), false)
    end
  else (st, false).

(** Modelled from the spec: [Directory::ForEachSongSafe] (Directory.hxx is
    missing), "for every Song in it", where the callback may delete the
    song it is given: [n] songs are still to visit, the next one is at
    position [i]. *)
Fixpoint ForEachSongSafe (n : nat) (dir : DirPath) (i : nat) (st : Purged)
    : Purged :=
  match n with
  | O => st
  | S n' =>
      match lookup_song (tree st) (dir, i) with
      | None => st
      | Some song =>
          let '(st', gone) := purge_song dir i song st in
          ForEachSongSafe n' dir (if gone then i else S i) st'
      end
  end.

(** What the function does at one directory once its children are done. *)
Definition visit (dir : DirPath) (st : Purged) : Purged :=
  match lookup_dir (tree st) dir with
  | Some d =>
      if IsPlaylist d then ForEachSongSafe (length (songs d)) dir 0 st
      else st
  | None => st
  end.

(** The recursion follows the children of the directory; the pass never
    adds or removes a directory, so the directory as it was on entry gives
    them. *)
Fixpoint purge_from (d : Directory) (dir : DirPath) (st : Purged) : Purged :=
  visit dir (for_each_child purge_from dir (children d) 0 st).

Definition PurgeDanglingFromPlaylists (root : Directory) (modified : bool)
    : Purged :=
  purge_from root [] (mkPurged root modified).

End Purge.

(** ** Concrete collaborators

    The storage, path and registry code is outside this file's source; the
    instances below are used to run the functions on concrete trees. *)

(** A storage rooted at [/music]. *)
Definition music_MapUTF8 (p : string) : string := "/music" +:+ p.

(** A file system holding exactly the listed paths. *)
Definition stat_in (files : list string) (p : string) : bool :=
  bool_decide (p ∈ files).

Fixpoint has_scheme_separator (s : string) : bool :=
  match s with
  | EmptyString => false
  | String _ s' => String.prefix "://" s || has_scheme_separator s'
  end.

(** Modelled from the spec: [PathTraitsUTF8::IsAbsoluteOrHasScheme]
    (fs/Traits.cxx is missing), "absolute or carries a URI scheme". *)
Definition is_absolute_or_has_scheme (s : string) : bool :=
  String.prefix "/" s || has_scheme_separator s.

(** Modelled from the spec: [PathTraitsUTF8::Build] (fs/Traits.cxx is
    missing), the logical path of a child. *)
Definition build_path (a b : string) : string := a +:+ "/" +:+ b.

Fixpoint find_child (name0 : string) (i : nat) (l : list Directory)
    : option (DirPtr * Directory) :=
  match l with
  | [] => None
  | c :: l' =>
      if String.eqb (name c) name0 then Some (i, c)
      else find_child name0 (S i) l'
  end.

(** Modelled from the spec: [LockMakeVirtualDirectoryIfModified] (Walk.cxx
    is missing), the Virtual Directory Synchronizer.  No matching child:
    create one, tag it, record the modification time, return it.  A matching
    child with the same timestamp: return the "do not re-expand" sentinel.
    A matching child with another timestamp: discard its songs and reuse the
    node with the updated timestamp. *)
Definition synchronize (parent : Directory) (modified0 : bool) (name0 : string)
    (info : StorageFileInfo) (virtual_device : N)
    : Directory * bool * option DirPtr :=
  match find_child name0 0 (children parent) with
  | None =>
      let fresh :=
        mkDirectory name0
          (if is_root parent then name0 else build_path (path parent) name0)
          false virtual_device (info_mtime info) [] [] [] in
      (set_children (children parent ++ [fresh]) parent, modified0,
       Some (length (children parent)))
  | Some (i, c) =>
      if Z.eqb (mtime c) (info_mtime info) then (parent, modified0, None)
      else
        let reused :=
          mkDirectory (name c) (path c) (is_root c) virtual_device
                      (info_mtime info) (children c) [] (playlists c) in
        (set_children (<[i := reused]> (children parent)) parent, modified0, Some i)
  end.

Fixpoint find_song (name0 : string) (i : nat) (l : list Song) : option nat :=
  match l with
  | [] => None
  | s :: l' =>
      if String.eqb (filename s) name0 then Some i
      else find_song name0 (S i) l'
  end.

(** Modelled from the spec: [Directory::LookupTargetSong] (Directory.cxx is
    missing), "resolve the target to a real Song by walking from that
    Directory's context": each leading [../] ascends one level, what is left
    names a song of the directory reached.  [fuel] bounds the number of
    [../] prefixes. *)
Fixpoint lookup_target_song (fuel : nat) (root : Directory) (dir : DirPath)
    (target0 : string) : option SongRef :=
  match fuel with
  | O => None
  | S fuel' =>
      if String.prefix "../" target0 then
        match dir with
        | [] => None
        | _ =>
            lookup_target_song fuel' root (removelast dir)
              (String.substring 3 (String.length target0 - 3) target0)
        end
      else
        match lookup_dir root dir with
        | Some d =>
            match find_song target0 0 (songs d) with
            | Some i => Some (dir, i)
            | None => None
            end
        | None => None
        end
  end.

Definition resolve_target (root : Directory) (dir : DirPath) (target0 : string)
    : option SongRef :=
  lookup_target_song (S (String.length target0)) root dir target0.

(** ** Concrete trees *)

Definition real_song (f : string) : Song := mkSong f "" false "".

Definition entry (u : string) : SongEvent := Yield (mkDetachedSong u "").

(** A folder plugin whose stream always opens and yields [e]. *)
Definition plugin_yielding (e : SongEnumerator) : PlaylistPlugin :=
  mkPlaylistPlugin "m3u" (λ _, OpenOk e).

(** A registry with one folder plugin, for [.m3u], and one flat plugin, for
    [.pls]. *)
Definition find_plugin (suffix : string) : option PlaylistPlugin :=
  if String.eqb suffix "m3u" then Some (plugin_yielding [])
  else if String.eqb suffix "pls" then Some (mkPlaylistPlugin "pls" (λ _, OpenNull))
  else None.

Definition plugin_as_folder (plugin : PlaylistPlugin) : bool :=
  String.eqb (plugin_name plugin) "m3u".

(** The root directory with two real songs and no playlist yet. *)
Definition album : Directory :=
  mkDirectory "" "" true 0 0 [] [real_song "a.mp3"; real_song "b.mp3"] [].

(** The expansion of [album.m3u], built from the file of modification time
    5. *)
Definition album_m3u : Directory :=
  mkDirectory "album.m3u" "album.m3u" false DEVICE_PLAYLIST 5 []
              [mkSong "track0001" "../a.mp3" false ""] [].

(** The root after an earlier expansion of [album.m3u], once the walk has
    found [a.mp3] on disk again. *)
Definition album_expanded : Directory :=
  mkDirectory "" "" true 0 0 [album_m3u]
              [real_song "a.mp3"; real_song "b.mp3"] [].

(** The root with a freshly made, still empty virtual directory. *)
Definition album_fresh : Directory :=
  mkDirectory "" "" true 0 0
    [mkDirectory "album.m3u" "album.m3u" false DEVICE_PLAYLIST 5 [] [] []]
    [real_song "a.mp3"; real_song "b.mp3"] [].

(** The root with a flag left over from an earlier run on [a.mp3], and a
    playlist that now lists [b.mp3] only. *)
Definition album_stale : Directory :=
  mkDirectory "" "" true 0 0
    [mkDirectory "album.m3u" "album.m3u" false DEVICE_PLAYLIST 5 []
                 [mkSong "track0001" "../b.mp3" false ""] []]
    [mkSong "a.mp3" "" true ""; real_song "b.mp3"] [].

(** The root with a playlist of two entries, the first one dangling. *)
Definition album_dangling : Directory :=
  mkDirectory "" "" true 0 0
    [mkDirectory "album.m3u" "album.m3u" false DEVICE_PLAYLIST 5 []
                 [mkSong "track0001" "../gone.mp3" false "";
                  mkSong "track0002" "../b.mp3" false ""] []]
    [real_song "a.mp3"; real_song "b.mp3"] [].

(** ** Reading a synthetic file name back *)

(** The number a string of decimal digits stands for, leading zeros
    allowed. *)
Definition parse_unsigned (s : string) : option N :=
  N.of_uint <$> NilEmpty.uint_of_string s.

(** The entries a stream of songs yields when [NextSong] never throws. *)
Definition yielding (entries : list DetachedSong) : list SongEvent :=
  Yield <$> entries.

(** An entry that is neither the bail sentinel nor missing, as a boolean
    test on the song. *)
Definition passes (MapUTF8 : string → string) (stat : string → bool)
    (parent_path : string) (song : DetachedSong) : Prop :=
  uri song ≠ bail_uri ∧ stat (probe_path MapUTF8 parent_path (uri song)) = true.

(** The virtual songs a run of entries that all pass leaves behind, the
    counter standing at [t] before the first of them. *)
Fixpoint new_songs (IsAbsoluteOrHasScheme : string → bool) (t : N)
    (entries : list DetachedSong) : list Song :=
  match entries with
  | [] => []
  | song :: l =>
      make_db_song IsAbsoluteOrHasScheme song (incr_unsigned t)
      :: new_songs IsAbsoluteOrHasScheme (incr_unsigned t) l
  end.

(** ** Counting songs *)

(** The number of songs of the directory at a path, 0 where there is no
    directory. *)
Definition nsongs (t : Directory) (p : DirPath) : nat :=
  from_option length 0 (songs_at t p).

(** What a part of the pass has done between two states: no directory has
    gained a song, and either nothing was deleted and [modified] is as it
    was, or some directory has lost a song and [modified] is set. *)
Definition purge_progress (st0 st : Purged) : Prop :=
  (∀ p, (nsongs (tree st) p ≤ nsongs (tree st0) p)%nat)
  ∧ ((modified st = modified st0
      ∧ ∀ p, nsongs (tree st) p = nsongs (tree st0) p)
     ∨ (modified st = true
        ∧ ∃ p, (nsongs (tree st) p < nsongs (tree st0) p)%nat)).

(** ** The pass as a whole *)

(** The test the lambda makes on a song: its target is not empty and is
    neither absolute nor scheme-qualified. *)
Definition has_relative_target (IsAbsoluteOrHasScheme : string → bool)
    (song : Song) : bool :=
  negb (String.eqb (target song) "")
  && negb (IsAbsoluteOrHasScheme (target song)).

(** A song of the directory at [dir] that passes the test and whose target
    resolves to nothing in the tree [t]. *)
Definition dangling (IsAbsoluteOrHasScheme : string → bool)
    (LookupTargetSong : Directory → DirPath → string → option SongRef)
    (t : Directory) (dir : DirPath) (song : Song) : bool :=
  has_relative_target IsAbsoluteOrHasScheme song
  && match LookupTargetSong t dir (target song) with
     | None => true
     | Some _ => false
     end.

(** Some song of a virtual playlist directory of [t] passes the test and
    resolves its target to the song at [r]. *)
Definition targeted (IsAbsoluteOrHasScheme : string → bool)
    (LookupTargetSong : Directory → DirPath → string → option SongRef)
    (t : Directory) (r : SongRef) : Prop :=
  ∃ dir d v,
    lookup_dir t dir = Some d ∧ IsPlaylist d = true ∧ v ∈ songs d
    ∧ has_relative_target IsAbsoluteOrHasScheme v = true
    ∧ LookupTargetSong t dir (target v) = Some r.

(** Some virtual playlist directory of [t] holds a dangling song. *)
Definition has_dangling (IsAbsoluteOrHasScheme : string → bool)
    (LookupTargetSong : Directory → DirPath → string → option SongRef)
    (t : Directory) : Prop :=
  ∃ dir d v,
    lookup_dir t dir = Some d ∧ IsPlaylist d = true ∧ v ∈ songs d
    ∧ dangling IsAbsoluteOrHasScheme LookupTargetSong t dir v = true.

(** What is assumed of [Directory::LookupTargetSong], which is outside this
    file's source, where a property of the whole pass needs it: it resolves
    to real Songs, that is to a Song that is there, in a directory that is
    not a virtual playlist directory; and what it returns depends neither
    on [in_playlist] flags nor on the songs of virtual playlist
    directories. *)
Definition real_resolver
    (LookupTargetSong : Directory → DirPath → string → option SongRef) : Prop :=
  (∀ t dir tg r, LookupTargetSong t dir tg = Some r →
     ∃ d s, lookup_dir t r.1 = Some d ∧ IsPlaylist d = false
            ∧ songs d !! r.2 = Some s)
  ∧ (∀ t r dir tg,
       LookupTargetSong (set_in_playlist r t) dir tg = LookupTargetSong t dir tg)
  ∧ (∀ t dir' i dir tg, playlist_at t dir' →
       LookupTargetSong (DeleteSong dir' i t) dir tg = LookupTargetSong t dir tg).

(** [s'] is [s] with [in_playlist] raised exactly when [R] holds. *)
Definition flag_raised (R : Prop) (s s' : Song) : Prop :=
  filename s' = filename s ∧ target s' = target s ∧ tag s' = tag s
  ∧ (in_playlist s' = true ↔ in_playlist s = true ∨ R).

(** The songs of a directory with the flags at the positions in [R]
    raised: no song added, dropped or moved. *)
Definition raised (R : nat → Prop) (l l' : list Song) : Prop :=
  length l' = length l
  ∧ ∀ j s, l !! j = Some s → ∃ s', l' !! j = Some s' ∧ flag_raised (R j) s s'.

(** The same two notions as [targeted] and [has_dangling], restricted to
    the virtual playlist directories in [Q]. *)
Definition targeted_from (IsAbsoluteOrHasScheme : string → bool)
    (LookupTargetSong : Directory → DirPath → string → option SongRef)
    (Q : DirPath → Prop) (t : Directory) (r : SongRef) : Prop :=
  ∃ q l v,
    Q q ∧ device_at t q = Some DEVICE_PLAYLIST ∧ songs_at t q = Some l
    ∧ v ∈ l ∧ has_relative_target IsAbsoluteOrHasScheme v = true
    ∧ LookupTargetSong t q (target v) = Some r.

Definition dangling_in (IsAbsoluteOrHasScheme : string → bool)
    (LookupTargetSong : Directory → DirPath → string → option SongRef)
    (Q : DirPath → Prop) (t : Directory) : Prop :=
  ∃ q l v,
    Q q ∧ device_at t q = Some DEVICE_PLAYLIST ∧ songs_at t q = Some l
    ∧ v ∈ l ∧ dangling IsAbsoluteOrHasScheme LookupTargetSong t q v = true.

(** What a part of the pass that has visited the virtual playlist
    directories in [Q], and no other, has done between two states. *)
Record pass_effect (IsAbsoluteOrHasScheme : string → bool)
    (LookupTargetSong : Directory → DirPath → string → option SongRef)
    (Q : DirPath → Prop) (st st' : Purged) : Prop := mk_pass_effect {
  pe_lookup : ∀ dir tg,
    LookupTargetSong (tree st') dir tg = LookupTargetSong (tree st) dir tg;
  pe_device : ∀ p, device_at (tree st') p = device_at (tree st) p;
  pe_visited : ∀ p l,
    Q p → device_at (tree st) p = Some DEVICE_PLAYLIST →
    songs_at (tree st) p = Some l →
    songs_at (tree st') p
    = Some (filter (λ v, dangling IsAbsoluteOrHasScheme LookupTargetSong
                           (tree st) p v = false) l);
  pe_unvisited : ∀ p,
    ¬ Q p → device_at (tree st) p = Some DEVICE_PLAYLIST →
    songs_at (tree st') p = songs_at (tree st) p;
  pe_real : ∀ p dv l,
    device_at (tree st) p = Some dv → dv ≠ DEVICE_PLAYLIST →
    songs_at (tree st) p = Some l →
    ∃ l', songs_at (tree st') p = Some l'
          ∧ raised (λ j, targeted_from IsAbsoluteOrHasScheme LookupTargetSong
                           Q (tree st) (p, j)) l l';
  pe_modified :
    modified st' = true
    ↔ modified st = true
      ∨ dangling_in IsAbsoluteOrHasScheme LookupTargetSong Q (tree st);
}.

(** The directory [d] has the shape of the subtree of [t] at [dir]: the
    same paths lead to a directory in both. *)
Definition same_shape (d t : Directory) (dir : DirPath) : Prop :=
  ∀ q, is_Some (lookup_dir d q) ↔ is_Some (lookup_dir t (dir ++ q)%list).

(** Where a target leads before any directory is looked at: each leading
    [../] ascends one level. *)
Fixpoint climb (fuel : nat) (dir : DirPath) (target0 : string)
    : option (DirPath * string) :=
  match fuel with
  | O => None
  | S fuel' =>
      if String.prefix "../" target0 then
        match dir with
        | [] => None
        | _ =>
            climb fuel' (removelast dir)
              (String.substring 3 (String.length target0 - 3) target0)
        end
      else Some (dir, target0)
  end.

(** The resolver above, kept to real Songs: a target that leads into a
    virtual playlist directory resolves to nothing. *)
Definition resolve_real (root : Directory) (dir : DirPath) (target0 : string)
    : option SongRef :=
  match resolve_target root dir target0 with
  | Some r =>
      match device_at root r.1 with
      | Some dv => if N.eqb dv DEVICE_PLAYLIST then None else Some r
      | None => None
      end
  | None => None
  end.

(** * The twolame encoder

    A shallow embedding of [src/encoder/TwolameEncoderPlugin.cxx].  The
    library libtwolame, the number parsers of GLib, the configuration block
    and the audio format are outside the file: they are parameters.  A
    [float] is an abstract value with the three comparisons the file makes;
    an [int] and a [size_t] are integers.  A call that does not return is
    explicit: an [assert] that fails, and the integer division by a frame
    size of zero. *)

(** [sizeof(encoder->output_buffer)] *)
Definition output_buffer_size : N := 32768.

(** The conversion of a [gint64] to [int] (the value modulo 2^32, read as a
    signed number). *)
Definition to_int (x : Z) : Z := ((x + 2 ^ 31) mod 2 ^ 32 - 2 ^ 31)%Z.

(** The conversion of a [size_t] to [unsigned]. *)
Definition to_unsigned (x : N) : N := (x mod 2 ^ 32)%N.

(** [config_param]: the values of the block and its line. *)
Record config_param := mk_config_param {
  GetBlockValue : string → option string;
  line : Z;
}.

(** The errors the file reports through [g_set_error]. *)
Inductive EncoderError :=
  | QualityOutOfRange (value : string) (at_line : Z)
  | QualityAndBitrate (at_line : Z)
  | NeitherBitrateNorQuality (at_line : Z)
  | BitrateNotPositive (at_line : Z)
  | InitFailed
  | SetVBRFailed
  | SetVBRQualityFailed
  | SetBitrateFailed
  | SetNumChannelsFailed
  | SetSampleRateFailed
  | InitParamsFailed
  | EncodeFailed.

(** What ends a write without a return: the [assert] on the output buffer
    fails, or the frame size it divides by is zero. *)
Inductive Fault :=
  | AssertFailed
  | DivideByZero.

Section Twolame.

(** [SampleFormat] with its value [S16], and the C type [float]. *)
Context {SampleFormat float : Type}.
Variable S16 : SampleFormat.

Record AudioFormat := mkAudioFormat {
  sample_rate : N;
  format : SampleFormat;
  channels : N;
}.

(** [AudioFormat::GetFrameSize] *)
Variable GetFrameSize : AudioFormat → N.

(** [g_ascii_strtod] and [g_ascii_strtoll] in base 10: the value, and the
    text [endptr] is left pointing at. *)
Variable g_ascii_strtod : string → float * string.
Variable g_ascii_strtoll : string → Z * string.

(** [quality < -1.0], [quality > 10.0], [quality >= -1.0] and the constant
    [-2.0]. *)
Variable lt_minus_one : float → bool.
Variable gt_ten : float → bool.
Variable ge_minus_one : float → bool.
Variable minus_two : float.

(** libtwolame over its [twolame_options]: each setter gives the options
    back with its return code; the two encoding calls also give the output
    buffer as they leave it. *)
Context {twolame_options : Type}.

Record LibTwolame := mkLibTwolame {
  twolame_init : option twolame_options;
  twolame_set_VBR : twolame_options → bool → twolame_options * Z;
  twolame_set_VBR_q : twolame_options → float → twolame_options * Z;
  twolame_set_brate : twolame_options → Z → twolame_options * Z;
  twolame_set_num_channels : twolame_options → N → twolame_options * Z;
  twolame_set_in_samplerate : twolame_options → N → twolame_options * Z;
  twolame_init_params : twolame_options → twolame_options * Z;
  twolame_encode_buffer_interleaved :
    twolame_options → list Byte.byte → N → list Byte.byte → N →
    twolame_options * list Byte.byte * Z;
  twolame_encode_flush :
    twolame_options → list Byte.byte → N →
    twolame_options * list Byte.byte * Z;
}.

Variable lib : LibTwolame.

Record TwolameEncoder := mkTwolameEncoder {
  audio_format : AudioFormat;
  quality : float;
  bitrate : Z;
  options : option twolame_options;
  output_buffer : list Byte.byte;
  output_buffer_length : N;
  output_buffer_position : N;
  flush : bool;
}.

Definition set_quality (q : float) (e : TwolameEncoder) : TwolameEncoder :=
  mkTwolameEncoder (audio_format e) q (bitrate e) (options e)
    (output_buffer e) (output_buffer_length e) (output_buffer_position e)
    (flush e).

Definition set_bitrate (b : Z) (e : TwolameEncoder) : TwolameEncoder :=
  mkTwolameEncoder (audio_format e) (quality e) b (options e)
    (output_buffer e) (output_buffer_length e) (output_buffer_position e)
    (flush e).

Definition set_options (o : option twolame_options) (e : TwolameEncoder)
    : TwolameEncoder :=
  mkTwolameEncoder (audio_format e) (quality e) (bitrate e) o
    (output_buffer e) (output_buffer_length e) (output_buffer_position e)
    (flush e).

Definition set_flush (f : bool) (e : TwolameEncoder) : TwolameEncoder :=
  mkTwolameEncoder (audio_format e) (quality e) (bitrate e) (options e)
    (output_buffer e) (output_buffer_length e) (output_buffer_position e) f.

(** [TwolameEncoder::Configure]: the error, [None] for [return true], and
    the encoder as the call leaves it. *)
Definition Configure (param : config_param) (e : TwolameEncoder)
    : option EncoderError * TwolameEncoder :=
  match GetBlockValue param "quality" with
  | Some value =>
      let '(q, endptr) := g_ascii_strtod value in
      let e1 := set_quality q e in
      if negb (String.eqb endptr "") || lt_minus_one q || gt_ten q then
        (Some (QualityOutOfRange value (line param)), e1)
      else
        match GetBlockValue param "bitrate" with
        | Some _ => (Some (QualityAndBitrate (line param)), e1)
        | None => (None, e1)
        end
  | None =>
      match GetBlockValue param "bitrate" with
      | None => (Some (NeitherBitrateNorQuality (line param)), e)
      | Some value =>
          let '(b, endptr) := g_ascii_strtoll value in
          let e1 := set_bitrate (to_int b) (set_quality minus_two e) in
          if negb (String.eqb endptr "") || (bitrate e1 <=? 0)%Z then
            (Some (BitrateNotPositive (line param)), e1)
          else (None, e1)
      end
  end.

(** [twolame_encoder_init]: [fresh] is the encoder [new] hands out, its
    fields not yet set; the result is [None] for [nullptr]. *)
Definition twolame_encoder_init (param : config_param) (fresh : TwolameEncoder)
    : option EncoderError * option TwolameEncoder :=
  match Configure param fresh with
  | (Some err, _) => (Some err, None)
  | (None, e) => (None, Some e)
  end.



(** [twolame_encoder_close] *)
Definition twolame_encoder_close (e : TwolameEncoder) : TwolameEncoder :=
  set_options None e.

(** [twolame_encoder_flush] *)
Definition twolame_encoder_flush (e : TwolameEncoder) : bool * TwolameEncoder :=
  (true, set_flush true e).

(** [twolame_encoder_write], on an opened encoder ([o] is what
    [encoder->options] points at).  The [assert] comes first, then the
    division [length / GetFrameSize()], which does not return when the
    frame size is zero. *)
Definition twolame_encoder_write (e : TwolameEncoder) (o : twolame_options)
    (data : list Byte.byte) (length : N)
    : Fault + (option EncoderError * TwolameEncoder) :=
  if negb (output_buffer_position e =? output_buffer_length e)%N then
    inl AssertFailed
  else if (GetFrameSize (audio_format e) =? 0)%N then inl DivideByZero
  else
    let num_frames := to_unsigned (length / GetFrameSize (audio_format e))%N in
    let '(o1, buffer, bytes_out) :=
      twolame_encode_buffer_interleaved lib o data num_frames
        (output_buffer e) output_buffer_size in
    if (bytes_out <? 0)%Z then
      inr (Some EncodeFailed,
           mkTwolameEncoder (audio_format e) (quality e) (bitrate e) (Some o1)
             buffer (output_buffer_length e) (output_buffer_position e)
             (flush e))
    else
      inr (None,
           mkTwolameEncoder (audio_format e) (quality e) (bitrate e) (Some o1)
             buffer (Z.to_N bytes_out) 0 (flush e)).

(** [twolame_encoder_read]: the bytes copied to [dest] (their number is the
    return value) and the encoder.  [None]: the [assert] failed. *)
Definition twolame_encoder_read (e : TwolameEncoder) (o : twolame_options)
    (length : N) : option (list Byte.byte * TwolameEncoder) :=
  if negb (output_buffer_position e <=? output_buffer_length e)%N then None
  else
    let e1 :=
      if (output_buffer_position e =? output_buffer_length e)%N && flush e then
        let '(o1, buffer, ret) :=
          twolame_encode_flush lib o (output_buffer e) output_buffer_size in
        if (0 <? ret)%Z then
          mkTwolameEncoder (audio_format e) (quality e) (bitrate e) (Some o1)
            buffer (Z.to_N ret) 0 false
        else
          mkTwolameEncoder (audio_format e) (quality e) (bitrate e) (Some o1)
            buffer (output_buffer_length e) (output_buffer_position e) false
      else e in
    let remainning :=
      ((output_buffer_length e1 + 2 ^ 64 - output_buffer_position e1)
       mod 2 ^ 64)%N in
    let length1 := if (remainning <? length)%N then remainning else length in
    let dest :=
      take (N.to_nat length1)
           (drop (N.to_nat (output_buffer_position e1)) (output_buffer e1)) in
    Some (dest,
          mkTwolameEncoder (audio_format e1) (quality e1) (bitrate e1)
            (options e1) (output_buffer e1) (output_buffer_length e1)
            ((output_buffer_position e1 + length1) mod 2 ^ 64)%N (flush e1)).

(** [twolame_encoder_get_mime_type] *)
Definition twolame_encoder_get_mime_type : string := "audio/mpeg".

(** The state of the output buffer the functions rely on. *)
Definition buffer_ok (e : TwolameEncoder) : Prop :=
  N.of_nat (length (output_buffer e)) = output_buffer_size
  ∧ (output_buffer_position e ≤ output_buffer_length e)%N
  ∧ (output_buffer_length e ≤ output_buffer_size)%N.

(** What the file relies on from the two encoding calls: the buffer keeps
    its size, and a return value is at most the size handed over. *)
Definition encoding_in_bounds : Prop :=
  (∀ o data n buf size,
     let '(_, buf', ret) :=
       twolame_encode_buffer_interleaved lib o data n buf size in
     length buf' = length buf ∧ (ret ≤ Z.of_N size)%Z)
  ∧ (∀ o buf size,
     let '(_, buf', ret) := twolame_encode_flush lib o buf size in
     length buf' = length buf ∧ (ret ≤ Z.of_N size)%Z).

End Twolame.

(** ** A stand-in for the collaborators of the encoder

    Used to run the encoder on concrete inputs: whole numbers as [float],
    parsers that read unsigned decimal numbers, and a library whose options
    count the calls made, whose encoder copies its input to the output
    buffer and whose flush has nothing left to write. *)

Definition whole_strtod (s : string) : Z * string :=
  match parse_unsigned s with
  | Some n => (Z.of_N n, "")
  | None => (0%Z, s)
  end.

Definition copying_library : @LibTwolame Z nat :=
  mkLibTwolame
    (Some 0)
    (λ o _, (S o, 0%Z))
    (λ o _, (S o, 0%Z))
    (λ o _, (S o, 0%Z))
    (λ o _, (S o, 0%Z))
    (λ o _, (S o, 0%Z))
    (λ o, (S o, 0%Z))
    (λ o data _ buf size,
       let out := take (min (N.to_nat size) (length buf)) data in
       (S o, (out ++ drop (length out) buf)%list, Z.of_nat (length out)))
    (λ o buf _, (S o, buf, 0%Z)).

(** An opened encoder with an empty output buffer of 32768 zero bytes. *)
Definition opened_encoder : @TwolameEncoder bool Z nat :=
  mkTwolameEncoder (mkAudioFormat 44100 true 2) (-2)%Z 128%Z (Some 0)
    (replicate (N.to_nat output_buffer_size) Byte.x00) 0 0 false.

(** A configuration block with the given quality and bit rate. *)
Definition block (quality0 bitrate0 : option string) : config_param :=
  mk_config_param
    (λ key, if String.eqb key "quality" then quality0
            else if String.eqb key "bitrate" then bitrate0
            else None)
    7.

(** The buffer of an opened encoder after four bytes of output. *)
Definition four_bytes : list Byte.byte :=
  ([Byte.x01; Byte.x02; Byte.x03; Byte.x04]
   ++ replicate (N.to_nat output_buffer_size - 4) Byte.x00)%list.

(** An opened encoder holding four bytes of output, [pos] of them read. *)
Definition loaded_encoder (pos : N) (flush0 : bool) : @TwolameEncoder bool Z nat :=
  mkTwolameEncoder (mkAudioFormat 44100 true 2) (-2)%Z 128%Z (Some 0)
    four_bytes 4 pos flush0.

(** ** Facts about the expansion loop *)

Lemma addressed_fst (l : list Song) : (addressed l).*1 = seq 0 (length l).
Proof. unfold addressed. apply fst_zip. rewrite length_seq. lia. Qed.

Lemma addressed_snd (l : list Song) : (addressed l).*2 = l.
Proof. unfold addressed. apply snd_zip. rewrite length_seq. lia. Qed.

Lemma address_unique (l : list (SongPtr * Song)) p s s' :
  NoDup l.*1 → (p, s) ∈ l → (p, s') ∈ l → s = s'.
Proof.
  induction l as [|[q t] l IH]; simpl; intros Hnd H1 H2.
  - inversion H1.
  - apply NoDup_cons in Hnd as [Hq Hnd].
    apply elem_of_cons in H1 as [H1|H1]; apply elem_of_cons in H2 as [H2|H2].
    + congruence.
    + exfalso. apply Hq. inversion H1; subst.
      apply list_elem_of_fmap. by exists (q, s').
    + exfalso. apply Hq. inversion H2; subst.
      apply list_elem_of_fmap. by exists (q, s).
    + by apply IH.
Qed.

Lemma RemoveSong_sublist p l : RemoveSong p l `sublist_of` l.
Proof. apply sublist_filter. Qed.

Lemma RemoveSong_elem p l x : x ∈ RemoveSong p l ↔ x.1 ≠ p ∧ x ∈ l.
Proof. unfold RemoveSong. by rewrite list_elem_of_filter. Qed.

Lemma RemoveSong_absent p l : p ∉ l.*1 → RemoveSong p l = l.
Proof.
  unfold RemoveSong. induction l as [|[q t] l IH]; intros Hp; [done|].
  simpl in Hp. apply not_elem_of_cons in Hp as [Hne Hp].
  rewrite filter_cons_True by (simpl; congruence). by rewrite IH.
Qed.

Lemma RemoveSong_length p s l :
  NoDup l.*1 → (p, s) ∈ l → S (length (RemoveSong p l)) = length l.
Proof.
  induction l as [|[q t] l IH]; intros Hnd Hin; [inversion Hin|].
  simpl in Hnd. apply NoDup_cons in Hnd as [Hq Hnd]. unfold RemoveSong in *.
  apply elem_of_cons in Hin as [Hin|Hin].
  - inversion Hin; subst. rewrite filter_cons_False by (simpl; tauto).
    fold (RemoveSong q l). by rewrite RemoveSong_absent.
  - assert (q ≠ p).
    { intros ->. apply Hq. apply list_elem_of_fmap. by exists (p, s). }
    rewrite filter_cons_True by done. simpl. by rewrite IH.
Qed.

Lemma addressed_lookup_from (l : list Song) : ∀ (n p : nat) (s : Song),
  (p, s) ∈ zip (seq n (length l)) l → (n ≤ p)%nat ∧ l !! (p - n) = Some s.
Proof.
  induction l as [|t l IH]; intros n p s Hin; [inversion Hin|].
  simpl in Hin. apply elem_of_cons in Hin as [Hin|Hin].
  - inversion Hin; subst. split; [lia|]. by rewrite Nat.sub_diag.
  - destruct (IH _ _ _ Hin) as [Hle Hl]. split; [lia|].
    replace (p - n) with (S (p - S n)) by lia. done.
Qed.

Lemma addressed_lookup (l : list Song) p s :
  (p, s) ∈ addressed l → l !! p = Some s.
Proof.
  intros H. apply addressed_lookup_from in H as [_ H].
  by rewrite Nat.sub_0_r in H.
Qed.

Lemma enter_loop_log_sound parent :
  log_sound (addressed (songs parent)) (enter_loop parent).
Proof.
  constructor; simpl; [done| |lia]. intros k p H. inversion H.
Qed.

Lemma RemoveSong_gone p l : p ∉ (RemoveSong p l).*1.
Proof.
  intros H. apply list_elem_of_fmap in H as [[q s] [-> H]].
  apply RemoveSong_elem in H as [H _]. by apply H.
Qed.

Lemma loop_inv_ext st st' :
  song_map st' = song_map st → parent_songs st' = parent_songs st →
  removals st' = removals st → loop_inv st → loop_inv st'.
Proof.
  intros Hm Hs Hr [? ? ? ? ? ?].
  constructor; rewrite ?Hm, ?Hs, ?Hr; assumption.
Qed.

Lemma snapshot_snoc l x :
  snapshot (l ++ [x]) = <[filename x.2 := x.1]> (snapshot l).
Proof. unfold snapshot. by rewrite foldl_app. Qed.

Lemma snapshot_sound l k p :
  snapshot l !! k = Some p → ∃ s, (p, s) ∈ l ∧ filename s = k.
Proof.
  induction l as [|[q t] l IH] using rev_ind; intros H.
  - unfold snapshot in H. simpl in H. by rewrite lookup_empty in H.
  - rewrite snapshot_snoc in H. simpl in H.
    destruct (decide (filename t = k)) as [<-|Hne].
    + rewrite lookup_insert_eq in H. inversion H; subst.
      exists t. split; [|done]. apply elem_of_app. right. by apply list_elem_of_singleton.
    + rewrite lookup_insert_ne in H by done.
      destruct (IH H) as (s & Hs & Hf). exists s. split; [|done].
      apply elem_of_app. by left.
Qed.

Lemma snapshot_complete l p s :
  NoDup ((filename ∘ snd) <$> l) → (p, s) ∈ l →
  snapshot l !! filename s = Some p.
Proof.
  induction l as [|[q t] l IH] using rev_ind; intros Hnd H.
  - inversion H.
  - rewrite fmap_app in Hnd. apply NoDup_app in Hnd as (Hnd & Hfresh & _).
    rewrite snapshot_snoc. simpl.
    apply elem_of_app in H as [H|H].
    + rewrite lookup_insert_ne; [by apply IH|].
      intros Heq. apply (Hfresh (filename s)).
      * apply list_elem_of_fmap. by exists (p, s).
      * simpl. rewrite <- Heq. by apply list_elem_of_singleton.
    + apply list_elem_of_singleton in H. inversion H; subst.
      by rewrite lookup_insert_eq.
Qed.

Lemma enter_loop_inv parent : loop_inv (enter_loop parent).
Proof.
  constructor; simpl.
  - rewrite addressed_fst. apply NoDup_seq.
  - apply snapshot_sound.
  - intros k H. inversion H.
  - intros p H. inversion H.
  - constructor.
  - constructor.
Qed.

Section LoopFacts.

Variable MapUTF8 : string → string.
Variable stat : string → bool.
Variable IsAbsoluteOrHasScheme : string → bool.

Abbreviation drain := (drain MapUTF8 stat IsAbsoluteOrHasScheme).
Abbreviation accepted := (accepted IsAbsoluteOrHasScheme).
Abbreviation stored_target := (stored_target IsAbsoluteOrHasScheme).

Lemma drain_nil pp directory st : drain pp directory st [] = (Returned, st, []).
Proof. reflexivity. Qed.

Lemma drain_raise pp directory st rest :
  drain pp directory st (Raise :: rest) = (Terminated, st, rest).
Proof. reflexivity. Qed.

Lemma drain_bail pp directory st song rest :
  uri song = bail_uri →
  drain pp directory st (Yield song :: rest)
  = (Returned, rollback directory st, rest).
Proof. intros H. simpl. rewrite H. reflexivity. Qed.

Lemma drain_accepted pp directory st song rest :
  uri song ≠ bail_uri →
  stat (probe_path MapUTF8 pp (uri song)) = true →
  drain pp directory st (Yield song :: rest)
  = drain pp directory (accepted directory song st) rest.
Proof.
  intros Hb Hs. simpl. rewrite Hs.
  destruct (String.eqb_spec (uri song) bail_uri) as [?|_]; [done|].
  unfold accepted. by destruct directory.
Qed.

Lemma drain_missing pp directory st song rest :
  uri song ≠ bail_uri →
  stat (probe_path MapUTF8 pp (uri song)) = false →
  ∃ st1, drain pp directory st (Yield song :: rest)
         = (Returned, rollback directory st1, rest)
         ∧ song_map st1 = song_map st ∧ parent_songs st1 = parent_songs st
         ∧ parent_children st1 = parent_children st
         ∧ deleted st1 = deleted st ∧ removals st1 = removals st.
Proof.
  intros Hb Hs. simpl. rewrite Hs.
  destruct (String.eqb_spec (uri song) bail_uri) as [?|_]; [done|].
  destruct directory; eexists; split; try reflexivity; simpl; done.
Qed.

Lemma accepted_song_map directory song st :
  song_map (accepted directory song st) = delete (uri song) (song_map st).
Proof.
  unfold accepted, commit. destruct directory; simpl;
    destruct (song_map st !! uri song) eqn:E; simpl; try done;
    symmetry; by apply delete_id.
Qed.

Lemma accepted_parent_songs directory song st :
  parent_songs (accepted directory song st)
  = match song_map st !! uri song with
    | Some p => RemoveSong p (parent_songs st)
    | None => parent_songs st
    end.
Proof.
  unfold accepted, commit. destruct directory; simpl;
    by destruct (song_map st !! uri song).
Qed.

Lemma accepted_removals directory song st :
  removals (accepted directory song st)
  = (removals st ++ match song_map st !! uri song with
                   | Some p => [(uri song, p)]
                   | None => []
                   end)%list.
Proof.
  unfold accepted, commit. destruct directory; simpl;
    destruct (song_map st !! uri song); simpl; by rewrite ?app_nil_r.
Qed.

Lemma accepted_deleted directory song st :
  deleted (accepted directory song st) = deleted st.
Proof.
  unfold accepted, commit. destruct directory; simpl;
    by destruct (song_map st !! uri song).
Qed.

Lemma accepted_children_null song st :
  parent_children (accepted None song st) = parent_children st.
Proof.
  unfold accepted, commit. simpl. by destruct (song_map st !! uri song).
Qed.

Lemma accepted_children d song st :
  parent_children (accepted (Some d) song st)
  = alter (AddSong (make_db_song IsAbsoluteOrHasScheme song
                                 (incr_unsigned (track st))))
          d (parent_children st).
Proof.
  unfold accepted, commit. simpl. by destruct (song_map st !! uri song).
Qed.

Lemma rollback_inv directory st : loop_inv st → loop_inv (rollback directory st).
Proof. destruct directory; [|done]. by apply loop_inv_ext. Qed.

Lemma accepted_inv directory song st :
  loop_inv st → loop_inv (accepted directory song st).
Proof.
  intros [Ha Hm Hk Hp Hnk Hnp].
  constructor; rewrite ?accepted_song_map, ?accepted_parent_songs,
    ?accepted_removals.
  - destruct (song_map st !! uri song); [|done].
    eapply sublist_NoDup; [exact Ha|].
    apply fmap_sublist, RemoveSong_sublist.
  - intros k p Hl.
    apply lookup_delete_Some in Hl as [Hne Hl].
    destruct (Hm _ _ Hl) as (s & Hs & Hf).
    exists s. split; [|done].
    destruct (song_map st !! uri song) as [q|] eqn:E; [|done].
    apply RemoveSong_elem. split; [|done]. simpl. intros ->.
    destruct (Hm _ _ E) as (s' & Hs' & Hf').
    assert (s = s') by (eapply address_unique; eauto). congruence.
  - intros k Hin. rewrite fmap_app in Hin.
    apply elem_of_app in Hin as [Hin|Hin].
    + rewrite lookup_delete_None. right. by apply Hk.
    + destruct (song_map st !! uri song); simpl in Hin.
      * apply list_elem_of_singleton in Hin as ->. apply lookup_delete_eq.
      * inversion Hin.
  - intros p Hin. rewrite fmap_app in Hin.
    destruct (song_map st !! uri song) as [q|] eqn:E; simpl in Hin.
    + apply elem_of_app in Hin as [Hin|Hin].
      * intros Hc. apply (Hp _ Hin).
        eapply elem_of_sublist; [exact Hc|].
        apply fmap_sublist, RemoveSong_sublist.
      * apply list_elem_of_singleton in Hin as ->. apply RemoveSong_gone.
    + rewrite app_nil_r in Hin. by apply Hp.
  - rewrite fmap_app.
    destruct (song_map st !! uri song) as [q|] eqn:E; simpl.
    + apply NoDup_app. split; [done|]. split; [|apply NoDup_singleton].
      intros k Hin Hk'. apply list_elem_of_singleton in Hk' as ->.
      specialize (Hk _ Hin). congruence.
    + by rewrite app_nil_r.
  - rewrite fmap_app.
    destruct (song_map st !! uri song) as [q|] eqn:E; simpl.
    + apply NoDup_app. split; [done|]. split; [|apply NoDup_singleton].
      intros p Hin Hp'. apply list_elem_of_singleton in Hp' as ->.
      apply (Hp _ Hin).
      destruct (Hm _ _ E) as (s & Hs & _).
      apply list_elem_of_fmap. by exists (q, s).
    + by rewrite app_nil_r.
Qed.

Lemma drain_inv pp directory contents : ∀ st,
  loop_inv st → loop_inv (drain pp directory st contents).1.2.
Proof.
  induction contents as [|[song|] rest IH]; intros st Hinv.
  - done.
  - destruct (decide (uri song = bail_uri)) as [Hb|Hb].
    { rewrite drain_bail by done. simpl. by apply rollback_inv. }
    destruct (stat (probe_path MapUTF8 pp (uri song))) eqn:Hs.
    + rewrite drain_accepted by done. apply IH. by apply accepted_inv.
    + destruct (drain_missing pp directory st song rest Hb Hs)
        as (st1 & -> & Hm & Hso & _ & _ & Hr).
      simpl. apply rollback_inv. by apply (loop_inv_ext st).
  - done.
Qed.

(** With a null [directory] the loop edits nothing but the songs of the
    parent, and takes a song out only for an entry of that name that passed
    the probe. *)
Lemma drain_null pp contents : ∀ st,
  loop_inv st →
  let st' := (drain pp None st contents).1.2 in
  parent_children st' = parent_children st
  ∧ deleted st' = deleted st
  ∧ parent_songs st' `sublist_of` parent_songs st
  ∧ ∀ x, x ∈ parent_songs st →
      x ∈ parent_songs st'
      ∨ ∃ song, Yield song ∈ contents ∧ uri song = filename x.2
                ∧ uri song ≠ bail_uri
                ∧ stat (probe_path MapUTF8 pp (uri song)) = true.
Proof.
  induction contents as [|[song|] rest IH]; intros st Hinv; simpl.
  - repeat split; auto.
  - destruct (decide (uri song = bail_uri)) as [Hb|Hb].
    { rewrite Hb. simpl. repeat split; auto. }
    destruct (String.eqb_spec (uri song) bail_uri) as [?|_]; [done|].
    destruct (stat (probe_path MapUTF8 pp (uri song))) eqn:Hs;
      [|simpl; repeat split; auto].
    change (commit None None (uri song) st) with (accepted None song st).
    destruct (IH (accepted None song st) (accepted_inv None song st Hinv))
      as (Hc & Hd & Hsub & Hout).
    rewrite accepted_children_null in Hc. rewrite accepted_deleted in Hd.
    rewrite accepted_parent_songs in Hsub, Hout.
    split; [done|]. split; [done|]. split.
    + etrans; [exact Hsub|].
      destruct (song_map st !! uri song); [apply RemoveSong_sublist|done].
    + intros x Hx.
      assert (x ∈ match song_map st !! uri song with
                  | Some p => RemoveSong p (parent_songs st)
                  | None => parent_songs st
                  end
              ∨ filename x.2 = uri song) as [Hin|Hname].
      { destruct (song_map st !! uri song) as [p|] eqn:E; [|by left].
        destruct (decide (x.1 = p)) as [Hp|Hp].
        - right. destruct (inv_map _ Hinv _ _ E) as (s & Hs' & Hf).
          destruct x as [q t]. simpl in *. subst q.
          assert (t = s) by (eapply address_unique; eauto using inv_addr).
          congruence.
        - left. by apply RemoveSong_elem. }
      * destruct (Hout x Hin) as [?|(song' & ? & ? & ? & ?)]; [by left|].
        right. exists song'. split; [by apply elem_of_cons; right|done].
      * right. exists song. split; [by apply elem_of_cons; left|done].
  - repeat split; auto.
Qed.

Lemma drain_exit pp directory contents : ∀ st,
  (drain pp directory st contents).1.1 = Returned
  ∨ (drain pp directory st contents).1.1 = Terminated.
Proof.
  induction contents as [|[song|] rest IH]; intros st; simpl; auto.
  destruct (String.eqb _ _); auto.
  destruct (stat _); auto.
Qed.

Lemma drain_returns pp directory contents : ∀ st,
  Raise ∉ contents → (drain pp directory st contents).1.1 = Returned.
Proof.
  induction contents as [|[song|] rest IH]; intros st Hno; simpl; auto.
  - destruct (String.eqb _ _); auto.
    destruct (stat _); auto.
    apply IH. intros H. apply Hno. by apply elem_of_cons; right.
  - exfalso. apply Hno. by apply elem_of_cons; left.
Qed.

Lemma accepted_complete directory song st :
  map_complete st → map_complete (accepted directory song st).
Proof.
  intros Hc p s. rewrite accepted_song_map, accepted_parent_songs.
  destruct (song_map st !! uri song) as [q|] eqn:E; intros Hin.
  - apply RemoveSong_elem in Hin as [Hne Hin]. simpl in Hne.
    specialize (Hc _ _ Hin).
    rewrite lookup_delete_ne; [done|]. intros Heq. congruence.
  - specialize (Hc _ _ Hin).
    rewrite lookup_delete_ne; [done|]. intros Heq. congruence.
Qed.

(** A run over entries that all pass: nothing is rolled back, every entry
    leaves a virtual song behind and its name is gone from the snapshot. *)
Lemma drain_all_resolve pp d contents : ∀ st,
  Forall (resolves MapUTF8 stat pp) contents →
  let r := drain pp (Some d) st contents in
  r.1.1 = Returned ∧ r.2 = [] ∧ deleted r.1.2 = deleted st
  ∧ (map_complete st → map_complete r.1.2)
  ∧ parent_songs r.1.2 `sublist_of` parent_songs st
  ∧ (∀ k, song_map st !! k = None → song_map r.1.2 !! k = None)
  ∧ (∀ song, Yield song ∈ contents → song_map r.1.2 !! uri song = None)
  ∧ ∀ dir, parent_children st !! d = Some dir →
      ∃ dir', parent_children r.1.2 !! d = Some dir'
        ∧ (∀ v, v ∈ songs dir → v ∈ songs dir')
        ∧ ∀ song, Yield song ∈ contents →
            ∃ v, v ∈ songs dir' ∧ target v = stored_target (uri song)
                 ∧ tag v = dtag song ∧ ∃ n, filename v = track_name n.
Proof.
  induction contents as [|ev rest IH]; intros st Hall; simpl.
  - repeat split; auto.
    + intros song H. inversion H.
    + intros dir Hd. exists dir. repeat split; auto.
      intros song H. inversion H.
  - apply Forall_cons in Hall as [(song & -> & Hb & Hs) Hall].
    destruct (String.eqb_spec (uri song) bail_uri) as [?|_]; [done|].
    rewrite Hs.
    match goal with |- context [drain pp (Some d) ?s rest] =>
      change s with (accepted (Some d) song st) end.
    destruct (IH (accepted (Some d) song st) Hall)
      as (Hx & Hr & Hdel & Hcomp & Hsub & Hnone & Hgone & Hdir).
    rewrite accepted_deleted in Hdel.
    split; [done|]. split; [done|]. split; [done|]. split.
    { intros Hc. by apply Hcomp, accepted_complete. }
    split.
    { etrans; [exact Hsub|]. rewrite accepted_parent_songs.
      destruct (song_map st !! uri song); [apply RemoveSong_sublist|done]. }
    split.
    { intros k Hk. apply Hnone. rewrite accepted_song_map.
      rewrite lookup_delete_None. by right. }
    split.
    { intros song' Hin. apply elem_of_cons in Hin as [Hin|Hin].
      - inversion Hin; subst. apply Hnone. rewrite accepted_song_map.
        apply lookup_delete_eq.
      - by apply Hgone. }
    intros dir Hd.
    set (v := make_db_song IsAbsoluteOrHasScheme song (incr_unsigned (track st))).
    destruct (Hdir (AddSong v dir)) as (dir' & Hd' & Hkeep & Hnew).
    { rewrite accepted_children, list_lookup_alter_eq. rewrite Hd. done. }
    exists dir'. split; [done|]. split.
    { intros w Hw. apply Hkeep. simpl. apply elem_of_app. by left. }
    intros song' Hin. apply elem_of_cons in Hin as [Hin|Hin].
    + inversion Hin; subst. exists v. split; [|by repeat split; eauto].
      apply Hkeep. simpl. apply elem_of_app. right.
      by apply list_elem_of_singleton.
    + by apply Hnew.
Qed.

Lemma accepted_log_sound orig directory song st :
  loop_inv st → log_sound orig st →
  log_sound orig (accepted directory song st).
Proof.
  intros Hinv [Hlive Hcalls Hcount].
  constructor; rewrite ?accepted_parent_songs, ?accepted_removals;
    destruct (song_map st !! uri song) as [q|] eqn:E;
    rewrite ?app_nil_r; try done.
  - intros x Hx. apply Hlive. by apply RemoveSong_elem in Hx as [_ Hx].
  - intros k p Hin. apply elem_of_app in Hin as [Hin|Hin]; [by apply Hcalls|].
    apply list_elem_of_singleton in Hin. inversion Hin; subst.
    destruct (inv_map _ Hinv _ _ E) as (s & Hs & Hf).
    exists s. split; [by apply Hlive|done].
  - destruct (inv_map _ Hinv _ _ E) as (s & Hs & _).
    pose proof (RemoveSong_length q s _ (inv_addr _ Hinv) Hs) as Hlen.
    rewrite length_app. simpl. lia.
Qed.

Lemma rollback_log_sound orig directory st :
  log_sound orig st → log_sound orig (rollback directory st).
Proof. destruct directory; [|done]. intros [? ? ?]. by constructor. Qed.

Lemma drain_log_sound orig pp directory contents : ∀ st,
  loop_inv st → log_sound orig st →
  log_sound orig (drain pp directory st contents).1.2.
Proof.
  induction contents as [|[song|] rest IH]; intros st Hinv Hlog.
  - done.
  - destruct (decide (uri song = bail_uri)) as [Hb|Hb].
    { rewrite drain_bail by done. simpl. by apply rollback_log_sound. }
    destruct (stat (probe_path MapUTF8 pp (uri song))) eqn:Hs.
    + rewrite drain_accepted by done.
      apply IH; [by apply accepted_inv|by apply accepted_log_sound].
    + destruct (drain_missing pp directory st song rest Hb Hs)
        as (st1 & -> & Hm & Hso & _ & _ & Hr).
      simpl. apply rollback_log_sound.
      destruct Hlog as [? ? ?]. constructor; rewrite ?Hso, ?Hr; done.
  - done.
Qed.

End LoopFacts.


Lemma delete_alter_same {A} (f : A → A) (l : list A) : ∀ i,
  delete i (alter f i l) = delete i l.
Proof. induction l as [|x l IH]; intros [|i]; simpl; try done. by rewrite IH. Qed.

(** ** The expansion, claim by claim *)

Section ExpansionClaims.

Variable MapUTF8 : string → string.
Variable stat : string → bool.
Variable IsAbsoluteOrHasScheme : string → bool.
Variable Build : string → string → string.
Variable LockMakeVirtualDirectoryIfModified :
  Directory → bool → string → StorageFileInfo → N → Directory * bool * option DirPtr.

Abbreviation run_contents :=
  (UpdatePlaylistFile_contents MapUTF8 stat IsAbsoluteOrHasScheme).
Abbreviation run_plugin :=
  (UpdatePlaylistFile_plugin MapUTF8 stat IsAbsoluteOrHasScheme Build
     LockMakeVirtualDirectoryIfModified).

Lemma run_plugin_unfold parent modified0 name0 info plugin parent1 modified1 directory :
  LockMakeVirtualDirectoryIfModified parent modified0 name0 info DEVICE_PLAYLIST
  = (parent1, modified1, directory) →
  run_plugin parent modified0 name0 info plugin
  = (scan MapUTF8 stat IsAbsoluteOrHasScheme Build parent1 directory name0 plugin,
     modified1).
Proof. intros H. unfold UpdatePlaylistFile_plugin. by rewrite H. Qed.

Lemma leave_enter parent : leave_loop parent (enter_loop parent) = parent.
Proof.
  unfold leave_loop, enter_loop. simpl. rewrite addressed_snd.
  by destruct parent.
Qed.

(** The loop function with a null [directory]. *)
Lemma run_contents_null parent contents :
  let r := run_contents parent None contents in
  children (parent_after r) = children parent
  ∧ directory_deleted r = false
  ∧ songs (parent_after r) `sublist_of` songs parent
  ∧ ∀ s, s ∈ songs parent →
      s ∈ songs (parent_after r)
      ∨ ∃ song, Yield song ∈ contents ∧ uri song = filename s
                ∧ uri song ≠ bail_uri
                ∧ stat (probe_path MapUTF8 (path parent) (uri song)) = true.
Proof.
  unfold UpdatePlaylistFile_contents.
  pose proof (drain_null MapUTF8 stat IsAbsoluteOrHasScheme (path parent)
                contents _ (enter_loop_inv parent)) as H.
  destruct (drain _ _ _ _ _ _ _) as [[x st] rest].
  simpl in *. destruct H as (Hc & Hd & Hsub & Hout).
  split; [done|]. split; [done|]. split.
  - rewrite <- (addressed_snd (songs parent)). by apply fmap_sublist.
  - intros s Hs.
    rewrite <- (addressed_snd (songs parent)) in Hs.
    apply list_elem_of_fmap in Hs as ([p t] & -> & Hin).
    destruct (Hout _ Hin) as [Hkeep|Hgone]; [left|by right].
    apply list_elem_of_fmap. by exists (p, t).
Qed.

(** The two failures of opening roll back and return. *)
Lemma open_failure_rolls_back parent directory name0 plugin :
  (∀ e, open_stream plugin (uri_utf8 MapUTF8 Build parent name0) ≠ OpenOk e) →
  let r := scan MapUTF8 stat IsAbsoluteOrHasScheme Build parent directory
             name0 plugin in
  exit r = Returned
  ∧ songs (parent_after r) = songs parent
  ∧ match directory with
    | Some d => children (parent_after r) = delete d (children parent)
    | None => children (parent_after r) = children parent
    end.
Proof.
  intros Hno. unfold scan.
  destruct (open_stream plugin _) as [| |e]; [| |by destruct (Hno e)];
    by destruct directory.
Qed.

(** A hard stop at the first entry, with a virtual Directory to expand
    into: the loop deletes it and the caller reads it afterwards. *)
Lemma hard_stop_then_use_after_free parent d name0 plugin song rest :
  open_stream plugin (uri_utf8 MapUTF8 Build parent name0)
  = OpenOk (Yield song :: rest) →
  uri song = bail_uri
  ∨ stat (probe_path MapUTF8 (path parent) (uri song)) = false →
  exit (scan MapUTF8 stat IsAbsoluteOrHasScheme Build parent (Some d)
          name0 plugin) = UseAfterFree.
Proof.
  intros Hopen Hstop. unfold scan. rewrite Hopen.
  unfold UpdatePlaylistFile_contents.
  destruct (decide (uri song = bail_uri)) as [Hb|Hb].
  - rewrite drain_bail by done. done.
  - destruct Hstop as [?|Hs]; [done|].
    destruct (drain_missing MapUTF8 stat IsAbsoluteOrHasScheme (path parent)
                (Some d) (enter_loop parent) song rest Hb Hs)
      as (st1 & -> & _). done.
Qed.

End ExpansionClaims.

(** C1, as the code has it: when the synchronizer answers with the null
    directory, a run leaves the children of the parent as they are (so the
    existing virtual Directory keeps its contents), deletes no directory and
    adds no Song to the parent; the parent's song collection can only
    shrink, and a Song leaves it only for a playlist entry of that file name
    that is not the bail sentinel and passed the existence probe. *)
Theorem null_directory_run_frame MapUTF8 stat IsAbsoluteOrHasScheme Build
    LockMakeVirtualDirectoryIfModified
    (parent : Directory) (modified0 : bool) (name0 : string)
    (info : StorageFileInfo) (plugin : PlaylistPlugin)
    (parent1 : Directory) (modified1 : bool) :
  LockMakeVirtualDirectoryIfModified parent modified0 name0 info DEVICE_PLAYLIST
  = (parent1, modified1, None) →
  let r := (UpdatePlaylistFile_plugin MapUTF8 stat IsAbsoluteOrHasScheme Build
              LockMakeVirtualDirectoryIfModified
              parent modified0 name0 info plugin).1 in
  children (parent_after r) = children parent1
  ∧ directory_deleted r = false
  ∧ songs (parent_after r) `sublist_of` songs parent1
  ∧ ∀ s, s ∈ songs parent1 →
      s ∈ songs (parent_after r)
      ∨ ∃ e song,
          open_stream plugin (uri_utf8 MapUTF8 Build parent1 name0) = OpenOk e
          ∧ Yield song ∈ e ∧ uri song = filename s ∧ uri song ≠ bail_uri
          ∧ stat (probe_path MapUTF8 (path parent1) (uri song)) = true.
Proof.
  intros Hsync. erewrite run_plugin_unfold by exact Hsync.
  simpl. unfold scan.
  destruct (open_stream plugin _) as [| |e] eqn:Hopen; simpl;
    try (repeat split; auto; done).
  destruct (run_contents_null MapUTF8 stat IsAbsoluteOrHasScheme parent1 e)
    as (Hc & Hd & Hsub & Hout).
  assert (∀ s, s ∈ songs parent1 →
            s ∈ songs (parent_after (UpdatePlaylistFile_contents MapUTF8 stat
                                       IsAbsoluteOrHasScheme parent1 None e))
            ∨ ∃ e0 song, OpenOk e = OpenOk e0 ∧ Yield song ∈ e0
                ∧ uri song = filename s ∧ uri song ≠ bail_uri
                ∧ stat (probe_path MapUTF8 (path parent1) (uri song)) = true)
    as Hout'.
  { intros s Hs. destruct (Hout s Hs) as [?|(song & ?)]; [by left|].
    right. by exists e, song. }
  destruct (exit _); simpl; auto.
Qed.

Lemma null_directory_run_frame_witness :
  let r := (UpdatePlaylistFile_plugin music_MapUTF8 (stat_in ["/music/a.mp3"])
              is_absolute_or_has_scheme build_path synchronize
              album_expanded false "album.m3u" (mkStorageFileInfo 5)
              (plugin_yielding [entry "a.mp3"])).1 in
  children (parent_after r) = children album_expanded
  ∧ directory_deleted r = false
  ∧ songs (parent_after r) `sublist_of` songs album_expanded
  ∧ ∀ s, s ∈ songs album_expanded →
      s ∈ songs (parent_after r)
      ∨ ∃ e song,
          open_stream (plugin_yielding [entry "a.mp3"])
            (uri_utf8 music_MapUTF8 build_path album_expanded "album.m3u")
          = OpenOk e
          ∧ Yield song ∈ e ∧ uri song = filename s ∧ uri song ≠ bail_uri
          ∧ stat_in ["/music/a.mp3"]
              (probe_path music_MapUTF8 (path album_expanded) (uri song)) = true.
Proof.
  apply (null_directory_run_frame music_MapUTF8 (stat_in ["/music/a.mp3"])
           is_absolute_or_has_scheme build_path synchronize
           album_expanded false "album.m3u" (mkStorageFileInfo 5)
           (plugin_yielding [entry "a.mp3"]) album_expanded false).
  reflexivity.
Defined.

(** C1, as stated, fails: the playlist [album.m3u] is unchanged (the
    synchronizer answers with the null directory), yet the run removes the
    real song [a.mp3] from the parent. *)
Lemma unchanged_playlist_still_removes_songs :
  let r := (UpdatePlaylistFile_plugin music_MapUTF8 (stat_in ["/music/a.mp3"])
              is_absolute_or_has_scheme build_path synchronize
              album_expanded false "album.m3u" (mkStorageFileInfo 5)
              (plugin_yielding [entry "a.mp3"])).1 in
  synchronize album_expanded false "album.m3u" (mkStorageFileInfo 5) DEVICE_PLAYLIST
  = (album_expanded, false, None)
  ∧ songs album_expanded = [real_song "a.mp3"; real_song "b.mp3"]
  ∧ songs (parent_after r) = [real_song "b.mp3"]
  ∧ songs (parent_after r) ≠ songs album_expanded.
Proof. vm_compute. repeat split. discriminate. Qed.

(** C9: when the synchronizer answers with the null directory, the stream
    opens and no call of [NextSong] throws, the run reaches
    [directory->IsEmpty()] with [directory == nullptr]. *)
Theorem null_directory_is_dereferenced MapUTF8 stat IsAbsoluteOrHasScheme Build
    LockMakeVirtualDirectoryIfModified
    (parent : Directory) (modified0 : bool) (name0 : string)
    (info : StorageFileInfo) (plugin : PlaylistPlugin)
    (parent1 : Directory) (modified1 : bool) (e : SongEnumerator) :
  LockMakeVirtualDirectoryIfModified parent modified0 name0 info DEVICE_PLAYLIST
  = (parent1, modified1, None) →
  open_stream plugin (uri_utf8 MapUTF8 Build parent1 name0) = OpenOk e →
  Raise ∉ e →
  exit (UpdatePlaylistFile_plugin MapUTF8 stat IsAbsoluteOrHasScheme Build
          LockMakeVirtualDirectoryIfModified
          parent modified0 name0 info plugin).1 = NullDereference.
Proof.
  intros Hsync Hopen Hno. erewrite run_plugin_unfold by exact Hsync.
  simpl. unfold scan. rewrite Hopen.
  pose proof (drain_returns MapUTF8 stat IsAbsoluteOrHasScheme (path parent1)
                None e (enter_loop parent1) Hno) as Hx.
  unfold UpdatePlaylistFile_contents.
  destruct (drain _ _ _ _ _ _ _) as [[x st] rest]. simpl in *. by subst x.
Qed.

Lemma null_directory_is_dereferenced_witness :
  exit (UpdatePlaylistFile_plugin music_MapUTF8 (stat_in ["/music/a.mp3"])
          is_absolute_or_has_scheme build_path synchronize
          album_expanded false "album.m3u" (mkStorageFileInfo 5)
          (plugin_yielding [entry "a.mp3"])).1 = NullDereference.
Proof.
  apply (null_directory_is_dereferenced music_MapUTF8 (stat_in ["/music/a.mp3"])
           is_absolute_or_has_scheme build_path synchronize
           album_expanded false "album.m3u" (mkStorageFileInfo 5)
           (plugin_yielding [entry "a.mp3"]) album_expanded false
           [entry "a.mp3"]).
  - reflexivity.
  - reflexivity.
  - intros H. apply elem_of_cons in H as [H|H]; [discriminate|inversion H].
Defined.

(** C2, as the code has it: for the sequence [A, bail, B] and a live virtual
    Directory, the loop returns with the virtual Directory deleted in both
    cases.  When [A] passes the probe its entry is added first and the bail
    entry then deletes the Directory with it, leaving [B] unread; when [A]
    is missing the Directory is deleted at [A] and neither the bail entry
    nor [B] is read. *)
Theorem bail_after_first_entry MapUTF8 stat IsAbsoluteOrHasScheme
    (parent : Directory) (d : DirPtr) (dir : Directory)
    (A bail B : DetachedSong) :
  children parent !! d = Some dir →
  uri A ≠ bail_uri →
  uri bail = bail_uri →
  let r := UpdatePlaylistFile_contents MapUTF8 stat IsAbsoluteOrHasScheme
             parent (Some d) [Yield A; Yield bail; Yield B] in
  exit r = Returned
  ∧ directory_deleted r = true
  ∧ children (parent_after r) = delete d (children parent)
  ∧ length (children (parent_after r)) = pred (length (children parent))
  ∧ unread r = if stat (probe_path MapUTF8 (path parent) (uri A))
               then [Yield B]
               else [Yield bail; Yield B].
Proof.
  intros Hd HA Hbail. unfold UpdatePlaylistFile_contents.
  assert (length (delete d (children parent)) = pred (length (children parent)))
    as Hlen.
  { rewrite length_delete; [lia|]. by rewrite Hd. }
  destruct (stat (probe_path MapUTF8 (path parent) (uri A))) eqn:Hs.
  - rewrite drain_accepted by done. rewrite drain_bail by done.
    cbn -[accepted]. rewrite accepted_children. cbn.
    unfold LockDeleteDirectory. rewrite delete_alter_same. done.
  - destruct (drain_missing MapUTF8 stat IsAbsoluteOrHasScheme (path parent)
                (Some d) (enter_loop parent) A [Yield bail; Yield B] HA Hs)
      as (st1 & -> & _ & _ & Hc & _ & _).
    simpl. rewrite Hc. simpl. done.
Qed.

Lemma bail_after_first_entry_witness :
  let r := UpdatePlaylistFile_contents music_MapUTF8
             (stat_in ["/music/a.mp3"; "/music/b.mp3"]) is_absolute_or_has_scheme
             album_fresh (Some 0)
             [entry "a.mp3"; entry "mpd://bail"; entry "b.mp3"] in
  exit r = Returned
  ∧ directory_deleted r = true
  ∧ children (parent_after r) = delete 0 (children album_fresh)
  ∧ length (children (parent_after r)) = pred (length (children album_fresh))
  ∧ unread r = if stat_in ["/music/a.mp3"; "/music/b.mp3"]
                    (probe_path music_MapUTF8 (path album_fresh) "a.mp3")
               then [entry "b.mp3"]
               else [entry "mpd://bail"; entry "b.mp3"].
Proof.
  apply (bail_after_first_entry music_MapUTF8
           (stat_in ["/music/a.mp3"; "/music/b.mp3"]) is_absolute_or_has_scheme
           album_fresh 0
           (mkDirectory "album.m3u" "album.m3u" false DEVICE_PLAYLIST 5 [] [] [])
           (mkDetachedSong "a.mp3" "") (mkDetachedSong "mpd://bail" "")
           (mkDetachedSong "b.mp3" "")).
  - reflexivity.
  - discriminate.
  - reflexivity.
Defined.

(** C2, as stated, fails: [a.mp3] passes the probe, yet after
    [a.mp3, bail, b.mp3] the virtual Directory is gone instead of holding
    the entry made for [a.mp3]. *)
Lemma bail_deletes_resolved_entries :
  let r := UpdatePlaylistFile_contents music_MapUTF8
             (stat_in ["/music/a.mp3"; "/music/b.mp3"]) is_absolute_or_has_scheme
             album_fresh (Some 0)
             [entry "a.mp3"; entry "mpd://bail"; entry "b.mp3"] in
  stat_in ["/music/a.mp3"; "/music/b.mp3"]
    (probe_path music_MapUTF8 (path album_fresh) "a.mp3") = true
  ∧ children (parent_after r) = []
  ∧ children (parent_after r) !! 0 = None
  ∧ directory_deleted r = true.
Proof. vm_compute. repeat split. Qed.

(** C4, at a missing target: the playlist is new, its only entry names a
    file that does not exist.  The loop deletes the virtual Directory and
    breaks; the caller then calls [IsEmpty] on the deleted Directory. *)
Lemma missing_target_use_after_free :
  let run := UpdatePlaylistFile_plugin music_MapUTF8 (stat_in [])
               is_absolute_or_has_scheme build_path synchronize
               album false "album.m3u" (mkStorageFileInfo 5)
               (plugin_yielding [entry "gone.mp3"]) in
  synchronize album false "album.m3u" (mkStorageFileInfo 5) DEVICE_PLAYLIST
  = (album_fresh, false, Some 0)
  ∧ exit run.1 = UseAfterFree
  ∧ directory_deleted run.1 = true
  ∧ children (parent_after run.1) = [].
Proof. vm_compute. repeat split. Qed.

(** C4, at an exception of [NextSong]: it leaves the [noexcept] loop
    function, so the handler of the caller never runs and the half-filled
    virtual Directory stays. *)
Lemma next_song_exception_terminates :
  let run := UpdatePlaylistFile_plugin music_MapUTF8 (stat_in ["/music/a.mp3"])
               is_absolute_or_has_scheme build_path synchronize
               album false "album.m3u" (mkStorageFileInfo 5)
               (plugin_yielding [entry "a.mp3"; Raise]) in
  exit run.1 = Terminated
  ∧ directory_deleted run.1 = false
  ∧ (songs <$> children (parent_after run.1))
    = [[mkSong "track0001" "../a.mp3" false ""]].
Proof. vm_compute. repeat split. Qed.

(** C6, at an absolute URI: the file [/abs/a.mp3] exists, the entry's URI is
    absolute, yet the path probed is the parent's storage path joined with
    the URI, so the entry counts as missing and the expansion is rolled
    back. *)
Lemma absolute_uri_probed_under_parent :
  let files := ["/abs/a.mp3"] in
  let r := UpdatePlaylistFile_contents music_MapUTF8 (stat_in files)
             is_absolute_or_has_scheme album_fresh (Some 0)
             [entry "/abs/a.mp3"] in
  is_absolute_or_has_scheme "/abs/a.mp3" = true
  ∧ stored_target is_absolute_or_has_scheme "/abs/a.mp3" = "/abs/a.mp3"
  ∧ stat_in files "/abs/a.mp3" = true
  ∧ probe_path music_MapUTF8 (path album_fresh) "/abs/a.mp3" = "/music//abs/a.mp3"
  ∧ stat_in files (probe_path music_MapUTF8 (path album_fresh) "/abs/a.mp3") = false
  ∧ directory_deleted r = true
  ∧ children (parent_after r) = [].
Proof. vm_compute. repeat split. Qed.

(** C5, the override rule: the file names of the parent's songs are pairwise
    distinct, the parent holds a real Song [X], every entry of the playlist
    passes (no bail sentinel, no missing target, no exception) and one of
    them has the file name of [X] as its URI, a relative one.  Then the run
    returns, the parent holds no Song of that file name any more, and the
    virtual Directory holds an entry, under a synthetic [track] name, whose
    target is [../] followed by the file name of [X]. *)
Theorem playlist_overrides_real_song MapUTF8 stat IsAbsoluteOrHasScheme Build
    LockMakeVirtualDirectoryIfModified
    (parent : Directory) (modified0 : bool) (name0 : string)
    (info : StorageFileInfo) (plugin : PlaylistPlugin)
    (parent1 : Directory) (modified1 : bool) (d : DirPtr) (dir : Directory)
    (e : SongEnumerator) (X : Song) (song : DetachedSong) :
  LockMakeVirtualDirectoryIfModified parent modified0 name0 info DEVICE_PLAYLIST
  = (parent1, modified1, Some d) →
  children parent1 !! d = Some dir →
  open_stream plugin (uri_utf8 MapUTF8 Build parent1 name0) = OpenOk e →
  Forall (resolves MapUTF8 stat (path parent1)) e →
  NoDup (filename <$> songs parent1) →
  X ∈ songs parent1 →
  Yield song ∈ e →
  uri song = filename X →
  IsAbsoluteOrHasScheme (filename X) = false →
  let r := (UpdatePlaylistFile_plugin MapUTF8 stat IsAbsoluteOrHasScheme Build
              LockMakeVirtualDirectoryIfModified
              parent modified0 name0 info plugin).1 in
  exit r = Returned
  ∧ (X ∉ songs (parent_after r))
  ∧ (∀ s, s ∈ songs (parent_after r) → filename s ≠ filename X)
  ∧ ∃ dir' v n, children (parent_after r) !! d = Some dir'
                ∧ v ∈ songs dir'
                ∧ filename v = track_name n
                ∧ target v = "../" +:+ filename X.
Proof.
  intros Hsync Hd Hopen Hall Hnd HX Hin Huri Hrel.
  erewrite run_plugin_unfold by exact Hsync. simpl. unfold scan. rewrite Hopen.
  unfold UpdatePlaylistFile_contents.
  pose proof (drain_all_resolve MapUTF8 stat IsAbsoluteOrHasScheme (path parent1)
                d e (enter_loop parent1) Hall) as H.
  destruct (drain _ _ _ _ _ _ _) as [[x st] rest].
  simpl in H. destruct H as (-> & -> & Hdel & Hcomp & _ & _ & Hgone & Hdir).
  assert (map_complete st) as Hc.
  { apply Hcomp. intros p s Hs. simpl in *. apply snapshot_complete; [|done].
    rewrite list_fmap_compose, addressed_snd. done. }
  assert (∀ s, s ∈ (parent_songs st).*2 → filename s ≠ filename X) as Hnone.
  { intros s Hs Heq. apply list_elem_of_fmap in Hs as ([p t] & -> & Hs).
    specialize (Hc _ _ Hs). simpl in Heq. rewrite Heq, <- Huri in Hc.
    rewrite (Hgone _ Hin) in Hc. discriminate. }
  destruct (Hdir dir Hd) as (dir' & Hd' & _ & Hnew).
  destruct (Hnew _ Hin) as (v & Hv & Ht & _ & n & Hn).
  unfold stored_target in Ht. rewrite Huri, Hrel in Ht.
  cbn [exit directory_deleted parent_after]. rewrite Hdel. cbn.
  rewrite Hd'. unfold IsEmpty.
  destruct (songs dir') as [|v0 l] eqn:Hsongs; [inversion Hv|].
  cbn. split; [done|]. split.
  { intros HX'. by apply (Hnone X HX'). }
  split; [exact Hnone|].
  exists dir', v, n. rewrite Hsongs. done.
Qed.

Lemma playlist_overrides_real_song_witness :
  let r := (UpdatePlaylistFile_plugin music_MapUTF8
              (stat_in ["/music/a.mp3"; "/music/b.mp3"])
              is_absolute_or_has_scheme build_path synchronize
              album false "album.m3u" (mkStorageFileInfo 5)
              (plugin_yielding [entry "b.mp3"; entry "a.mp3"])).1 in
  exit r = Returned
  ∧ (real_song "a.mp3" ∉ songs (parent_after r))
  ∧ (∀ s, s ∈ songs (parent_after r) → filename s ≠ "a.mp3")
  ∧ ∃ dir' v n, children (parent_after r) !! 0 = Some dir'
                ∧ v ∈ songs dir'
                ∧ filename v = track_name n
                ∧ target v = "../a.mp3".
Proof.
  apply (playlist_overrides_real_song music_MapUTF8
           (stat_in ["/music/a.mp3"; "/music/b.mp3"])
           is_absolute_or_has_scheme build_path synchronize
           album false "album.m3u" (mkStorageFileInfo 5)
           (plugin_yielding [entry "b.mp3"; entry "a.mp3"])
           album_fresh false 0
           (mkDirectory "album.m3u" "album.m3u" false DEVICE_PLAYLIST 5 [] [] [])
           [entry "b.mp3"; entry "a.mp3"]
           (real_song "a.mp3") (mkDetachedSong "a.mp3" "")).
  - reflexivity.
  - reflexivity.
  - reflexivity.
  - repeat constructor; eexists; (split; [reflexivity|]);
      (split; [discriminate|reflexivity]).
  - simpl. apply NoDup_cons. split.
    + intros H. apply list_elem_of_singleton in H. discriminate.
    + apply NoDup_singleton.
  - apply elem_of_cons. by left.
  - apply elem_of_cons. right. apply elem_of_cons. by left.
  - reflexivity.
  - reflexivity.
Defined.

(** ** Facts about the tree and the purger *)

Lemma Directory_nested_ind (P : Directory → Prop) :
  (∀ n p r dv m cs ss pl,
     Forall P cs → P (mkDirectory n p r dv m cs ss pl)) →
  ∀ d, P d.
Proof.
  intros step. fix IH 1. intros [n p r dv m cs ss pl].
  apply step. induction cs as [|c cs IHcs]; constructor.
  - apply IH.
  - exact IHcs.
Qed.

Lemma songs_at_alter_songs g dir : ∀ root p,
  songs_at (alter_songs g dir root) p
  = (if decide (p = dir) then g else id) <$> songs_at root p.
Proof.
  unfold songs_at, alter_songs.
  induction dir as [|j dir IH]; intros root [|i p]; simpl; try done.
  - destruct (children root !! i) as [c|]; [|done].
    by destruct (lookup_dir c p).
  - destruct (decide (i = j)) as [->|Hne].
    + rewrite list_lookup_alter_eq.
      destruct (children root !! j) as [c|]; simpl; [|done].
      rewrite IH. repeat case_decide; try done; exfalso; naive_solver.
    + rewrite list_lookup_alter_ne by done.
      case_decide; [naive_solver|].
      destruct (children root !! i) as [c|]; [|done].
      by destruct (lookup_dir c p).
Qed.

Lemma device_at_alter_songs g dir : ∀ root p,
  device_at (alter_songs g dir root) p = device_at root p.
Proof.
  unfold device_at, alter_songs.
  induction dir as [|j dir IH]; intros root [|i p]; simpl; try done.
  destruct (decide (i = j)) as [->|Hne].
  - rewrite list_lookup_alter_eq.
    destruct (children root !! j) as [c|]; simpl; [|done]. apply IH.
  - by rewrite list_lookup_alter_ne.
Qed.

Lemma lookup_song_songs_at root r :
  lookup_song root r = songs_at root r.1 ≫= (λ l, l !! r.2).
Proof. unfold lookup_song, songs_at. by destruct (lookup_dir root r.1). Qed.

Lemma never_cleared_refl s : never_cleared s s.
Proof. by repeat split. Qed.

Lemma never_cleared_trans s1 s2 s3 :
  never_cleared s1 s2 → never_cleared s2 s3 → never_cleared s1 s3.
Proof.
  intros (? & ? & ? & ?) (? & ? & ? & ?). repeat split; try congruence. auto.
Qed.

Lemma never_cleared_mark s : never_cleared s (mark_song s).
Proof. by repeat split. Qed.

Lemma songs_purged_refl b l : songs_purged b l l.
Proof.
  induction l; constructor; [apply never_cleared_refl | done].
Qed.

Lemma songs_purged_trans b l1 l2 :
  songs_purged b l1 l2 → ∀ l3, songs_purged b l2 l3 → songs_purged b l1 l3.
Proof.
  induction 1 as [b|b s s' l l' Hs _ IH|s l l' _ IH]; intros l3 H23.
  - done.
  - inversion H23; subst.
    + constructor; [by eapply never_cleared_trans | by apply IH].
    + apply purged_drop. by apply IH.
  - apply purged_drop. by apply IH.
Qed.

Lemma songs_purged_delete l : ∀ i, songs_purged true l (delete i l).
Proof.
  induction l as [|s l IH]; intros [|i]; simpl.
  - constructor.
  - constructor.
  - apply purged_drop, songs_purged_refl.
  - constructor; [apply never_cleared_refl | apply IH].
Qed.

Lemma songs_purged_mark b l : ∀ j, songs_purged b l (alter mark_song j l).
Proof.
  induction l as [|s l IH]; intros [|j]; simpl.
  - constructor.
  - constructor.
  - constructor; [apply never_cleared_mark | apply songs_purged_refl].
  - constructor; [apply never_cleared_refl | apply IH].
Qed.

(** Read as lists: the songs left are a sub-list of the old ones with flags
    kept or raised, and outside a playlist directory no song is dropped. *)
Lemma songs_purged_sublist b l l' :
  songs_purged b l l' →
  ∃ kept, kept `sublist_of` l ∧ Forall2 never_cleared kept l'.
Proof.
  induction 1 as [b|b s s' l l' Hs _ (kept & Hsub & Hall)|s l l' _ (kept & Hsub & Hall)].
  - exists []. split; constructor.
  - exists (s :: kept). split; [by apply sublist_skip | by constructor].
  - exists kept. split; [by apply sublist_cons | done].
Qed.

Lemma songs_purged_real l l' :
  songs_purged false l l' → Forall2 never_cleared l l'.
Proof.
  intros H. remember false as b eqn:Hb.
  induction H; subst; try discriminate; constructor; auto.
Qed.

Lemma tree_purged_refl t : tree_purged t t.
Proof. intros p d H. exists d. repeat split; [done|apply songs_purged_refl]. Qed.

Lemma tree_purged_trans t1 t2 t3 :
  tree_purged t1 t2 → tree_purged t2 t3 → tree_purged t1 t3.
Proof.
  intros H12 H23 p d Hd.
  destruct (H12 p d Hd) as (d' & Hd' & Hdev & Hs).
  destruct (H23 p d' Hd') as (d'' & Hd'' & Hdev' & Hs').
  exists d''. split; [done|]. split; [congruence|].
  eapply songs_purged_trans; [exact Hs|].
  unfold IsPlaylist in *. by rewrite <- Hdev.
Qed.

(** An edit of the songs of the directory at [dir] that is allowed there is
    a step of the relation. *)
Lemma tree_purged_alter_songs g dir t :
  (∀ d, lookup_dir t dir = Some d →
        songs_purged (IsPlaylist d) (songs d) (g (songs d))) →
  tree_purged t (alter_songs g dir t).
Proof.
  intros Hg p d Hd.
  pose proof (songs_at_alter_songs g dir t p) as Hsongs.
  pose proof (device_at_alter_songs g dir t p) as Hdev.
  unfold songs_at, device_at in *. rewrite Hd in Hsongs, Hdev.
  destruct (lookup_dir (alter_songs g dir t) p) as [d'|]; [|done].
  simpl in *. exists d'. split; [done|].
  split; [congruence|].
  destruct (decide (p = dir)) as [->|_]; inversion Hsongs as [Hs].
  - rewrite Hs. by apply Hg.
  - rewrite Hs. apply songs_purged_refl.
Qed.

Section PurgeFacts.

Variable IsAbsoluteOrHasScheme : string → bool.
Variable LookupTargetSong : Directory → DirPath → string → option SongRef.

Abbreviation purge_song := (purge_song IsAbsoluteOrHasScheme LookupTargetSong).
Abbreviation ForEachSongSafe :=
  (ForEachSongSafe IsAbsoluteOrHasScheme LookupTargetSong).
Abbreviation visit := (visit IsAbsoluteOrHasScheme LookupTargetSong).
Abbreviation purge_from := (purge_from IsAbsoluteOrHasScheme LookupTargetSong).

Lemma playlist_at_purged t t' dir :
  tree_purged t t' → playlist_at t dir → playlist_at t' dir.
Proof.
  intros H (d & Hd & Hp). destruct (H _ _ Hd) as (d' & Hd' & Hdev & _).
  exists d'. split; [done|]. unfold IsPlaylist in *. by rewrite Hdev.
Qed.

Lemma purge_song_purged dir i song st :
  playlist_at (tree st) dir →
  tree_purged (tree st) (tree (purge_song dir i song st).1).
Proof.
  intros (d & Hd & Hp). unfold purge_song.
  destruct (negb _ && negb _); [|apply tree_purged_refl].
  destruct (LookupTargetSong _ _ _) as [t|]; simpl.
  - apply tree_purged_alter_songs. intros d0 _. apply songs_purged_mark.
  - apply tree_purged_alter_songs. intros d0 Hd0.
    assert (d0 = d) as -> by congruence. rewrite Hp.
    apply songs_purged_delete.
Qed.

Lemma ForEachSongSafe_purged dir n : ∀ i st,
  playlist_at (tree st) dir →
  tree_purged (tree st) (tree (ForEachSongSafe n dir i st)).
Proof.
  induction n as [|n IH]; intros i st Hp; simpl.
  - apply tree_purged_refl.
  - destruct (lookup_song (tree st) (dir, i)) as [song|];
      [|apply tree_purged_refl].
    pose proof (purge_song_purged dir i song st Hp) as Hstep.
    destruct (purge_song dir i song st) as [st' gone]. simpl in Hstep.
    eapply tree_purged_trans; [exact Hstep|].
    apply IH. by eapply playlist_at_purged.
Qed.

Lemma visit_purged dir st : tree_purged (tree st) (tree (visit dir st)).
Proof.
  unfold visit.
  destruct (lookup_dir (tree st) dir) as [d|] eqn:Hd; [|apply tree_purged_refl].
  destruct (IsPlaylist d) eqn:Hp; [|apply tree_purged_refl].
  apply ForEachSongSafe_purged. by exists d.
Qed.

Lemma for_each_child_purged f dir cs :
  Forall (λ c, ∀ dir' st, tree_purged (tree st) (tree (f c dir' st))) cs →
  ∀ i st, tree_purged (tree st) (tree (for_each_child f dir cs i st)).
Proof.
  induction 1 as [|c cs Hc _ IH]; intros i st; simpl.
  - apply tree_purged_refl.
  - eapply tree_purged_trans; [apply Hc|apply IH].
Qed.

Lemma purge_from_purged d : ∀ dir st,
  tree_purged (tree st) (tree (purge_from d dir st)).
Proof.
  induction d as [n p r dv m cs ss pl IH] using Directory_nested_ind.
  intros dir st. simpl.
  eapply tree_purged_trans; [|apply visit_purged].
  by apply for_each_child_purged.
Qed.

(** How the pass reaches the lambda: children first, then the songs of a
    playlist directory from the front. *)
Lemma purge_from_post_order d dir st :
  purge_from d dir st
  = visit dir (for_each_child purge_from dir (children d) 0 st).
Proof. by destruct d. Qed.

Lemma visit_playlist dir st d :
  lookup_dir (tree st) dir = Some d → IsPlaylist d = true →
  visit dir st = ForEachSongSafe (length (songs d)) dir 0 st.
Proof. intros Hd Hp. unfold visit. by rewrite Hd, Hp. Qed.

Lemma visit_real dir st d :
  lookup_dir (tree st) dir = Some d → IsPlaylist d = false →
  visit dir st = st.
Proof. intros Hd Hp. unfold visit. by rewrite Hd, Hp. Qed.

Lemma ForEachSongSafe_step n dir i st song :
  lookup_song (tree st) (dir, i) = Some song →
  ForEachSongSafe (S n) dir i st
  = ForEachSongSafe n dir (if (purge_song dir i song st).2 then i else S i)
      (purge_song dir i song st).1.
Proof. intros H. simpl. rewrite H. by destruct (purge_song dir i song st). Qed.

End PurgeFacts.

(** ** The effect of the whole pass *)

Lemma device_at_is_Some t p : is_Some (device_at t p) ↔ is_Some (lookup_dir t p).
Proof. unfold device_at. by rewrite fmap_is_Some. Qed.

Lemma device_at_playlist t p :
  device_at t p = Some DEVICE_PLAYLIST ↔ playlist_at t p.
Proof.
  unfold device_at, playlist_at, IsPlaylist. split.
  - intros H. destruct (lookup_dir t p) as [d|]; [|done].
    exists d. split; [done|]. apply N.eqb_eq. by inversion H.
  - intros (d & -> & H). apply N.eqb_eq in H. simpl. by rewrite H.
Qed.

Lemma device_at_real t p d :
  lookup_dir t p = Some d → IsPlaylist d = false →
  device_at t p = Some (device d) ∧ device d ≠ DEVICE_PLAYLIST.
Proof.
  intros Hd Hp. unfold device_at. rewrite Hd. split; [done|].
  unfold IsPlaylist in Hp. by apply N.eqb_neq.
Qed.

Lemma flag_raised_same (R : Prop) s : ¬ R → flag_raised R s s.
Proof. intros HR. repeat split; [by left|]. by intros [?|?]. Qed.

Lemma flag_raised_iff (R R' : Prop) s s' :
  (R ↔ R') → flag_raised R s s' → flag_raised R' s s'.
Proof. intros HR (? & ? & ? & Hf). repeat split; try done; tauto. Qed.

Lemma raised_same (R : nat → Prop) l : (∀ j, ¬ R j) → raised R l l.
Proof.
  intros HR. split; [done|]. intros j s Hj. exists s. split; [done|].
  by apply flag_raised_same.
Qed.

Lemma raised_iff (R R' : nat → Prop) l l' :
  (∀ j, R j ↔ R' j) → raised R l l' → raised R' l l'.
Proof.
  intros HR [Hlen H]. split; [done|]. intros j s Hj.
  destruct (H j s Hj) as (s' & Hs' & Hf). exists s'. split; [done|].
  eapply flag_raised_iff; [apply HR|done].
Qed.

Lemma raised_trans (R1 R2 : nat → Prop) l l' l'' :
  raised R1 l l' → raised R2 l' l'' → raised (λ j, R1 j ∨ R2 j) l l''.
Proof.
  intros [Hlen1 H1] [Hlen2 H2]. split; [congruence|]. intros j s Hj.
  destruct (H1 j s Hj) as (s' & Hs' & ? & ? & ? & Hf1).
  destruct (H2 j s' Hs') as (s'' & Hs'' & ? & ? & ? & Hf2).
  exists s''. split; [done|]. repeat split; try congruence; tauto.
Qed.

Lemma raised_mark k l : raised (λ j, j = k) l (alter mark_song k l).
Proof.
  split; [apply length_alter|]. intros j s Hj.
  destruct (decide (j = k)) as [->|Hne].
  - exists (mark_song s). rewrite list_lookup_alter_eq, Hj.
    split; [done|]. repeat split; intros; by right.
  - exists s. rewrite list_lookup_alter_ne by done. split; [done|].
    by apply flag_raised_same.
Qed.

Section PassEffect.

Variable IsAbsoluteOrHasScheme : string → bool.
Variable LookupTargetSong : Directory → DirPath → string → option SongRef.
Hypothesis resolver : real_resolver LookupTargetSong.

Abbreviation purge_song := (purge_song IsAbsoluteOrHasScheme LookupTargetSong).
Abbreviation ForEachSongSafe :=
  (ForEachSongSafe IsAbsoluteOrHasScheme LookupTargetSong).
Abbreviation visit := (visit IsAbsoluteOrHasScheme LookupTargetSong).
Abbreviation purge_from := (purge_from IsAbsoluteOrHasScheme LookupTargetSong).
Abbreviation has_relative_target := (has_relative_target IsAbsoluteOrHasScheme).
Abbreviation dangling := (dangling IsAbsoluteOrHasScheme LookupTargetSong).
Abbreviation targeted_from :=
  (targeted_from IsAbsoluteOrHasScheme LookupTargetSong).
Abbreviation dangling_in := (dangling_in IsAbsoluteOrHasScheme LookupTargetSong).
Abbreviation pass_effect := (pass_effect IsAbsoluteOrHasScheme LookupTargetSong).

(** A target that resolves leads out of the virtual playlist directories. *)
Lemma resolved_is_real t dir tg r :
  LookupTargetSong t dir tg = Some r →
  ∃ dv l, device_at t r.1 = Some dv ∧ dv ≠ DEVICE_PLAYLIST
          ∧ songs_at t r.1 = Some l ∧ is_Some (l !! r.2).
Proof.
  intros H. destruct resolver as (Hreal & _ & _).
  destruct (Hreal _ _ _ _ H) as (d & s & Hd & Hp & Hs).
  destruct (device_at_real _ _ _ Hd Hp) as [Hdev Hne].
  exists (device d), (songs d). unfold songs_at. rewrite Hd.
  repeat split; eauto.
Qed.

Lemma dangling_ext t t' dir v :
  (∀ d tg, LookupTargetSong t' d tg = LookupTargetSong t d tg) →
  dangling t' dir v = dangling t dir v.
Proof. intros H. unfold dangling. by rewrite H. Qed.

(** The three outcomes of the lambda. *)
Lemma purge_song_skip dir i song st :
  has_relative_target song = false → purge_song dir i song st = (st, false).
Proof. unfold purge_song, has_relative_target. by intros ->. Qed.

Lemma purge_song_mark dir i song st r :
  has_relative_target song = true →
  LookupTargetSong (tree st) dir (target song) = Some r →
  purge_song dir i song st
  = (mkPurged (set_in_playlist r (tree st)) (modified st), false).
Proof. unfold purge_song, has_relative_target. by intros -> ->. Qed.

Lemma purge_song_delete dir i song st :
  has_relative_target song = true →
  LookupTargetSong (tree st) dir (target song) = None →
  purge_song dir i song st
  = (mkPurged (DeleteSong dir i (tree st)) true, true).
Proof. unfold purge_song, has_relative_target. by intros -> ->. Qed.

(** One turn of [ForEachSongSafe] on the song [v] at the front of [todo]. *)
Lemma ForEachSongSafe_turn dir v todo done st :
  device_at (tree st) dir = Some DEVICE_PLAYLIST →
  songs_at (tree st) dir = Some (done ++ v :: todo)%list →
  ∃ st1 done1,
    ForEachSongSafe (S (length todo)) dir (length done) st
    = ForEachSongSafe (length todo) dir (length done1) st1
    ∧ (∀ d tg, LookupTargetSong (tree st1) d tg = LookupTargetSong (tree st) d tg)
    ∧ (∀ p, device_at (tree st1) p = device_at (tree st) p)
    ∧ songs_at (tree st1) dir = Some (done1 ++ todo)%list
    ∧ done1 = (done ++ filter (λ v, dangling (tree st) dir v = false) [v])%list
    ∧ (∀ p, p ≠ dir → device_at (tree st) p = Some DEVICE_PLAYLIST →
         songs_at (tree st1) p = songs_at (tree st) p)
    ∧ (∀ p dv l, device_at (tree st) p = Some dv → dv ≠ DEVICE_PLAYLIST →
         songs_at (tree st) p = Some l →
         ∃ l1, songs_at (tree st1) p = Some l1
           ∧ raised (λ j, has_relative_target v = true
                          ∧ LookupTargetSong (tree st) dir (target v)
                            = Some (p, j)) l l1)
    ∧ (modified st1 = true
       ↔ modified st = true ∨ dangling (tree st) dir v = true).
Proof.
  intros Hpl Hsongs.
  assert (lookup_song (tree st) (dir, length done) = Some v) as Hv.
  { rewrite lookup_song_songs_at. simpl. rewrite Hsongs. simpl.
    by apply list_lookup_middle. }
  assert (ForEachSongSafe (S (length todo)) dir (length done) st
          = ForEachSongSafe (length todo) dir
              (if (purge_song dir (length done) v st).2 then length done
               else S (length done))
              (purge_song dir (length done) v st).1) as ->.
  { by apply ForEachSongSafe_step. }
  destruct resolver as (_ & Hmark & Hdel).
  destruct (has_relative_target v) eqn:Hrel;
    [destruct (LookupTargetSong (tree st) dir (target v)) as [r|] eqn:Hres|].
  - (* the target resolves: its song is marked *)
    rewrite purge_song_mark with (r := r) by done. cbn [fst snd].
    assert (dangling (tree st) dir v = false) as Hdg
      by (unfold dangling; by rewrite Hrel, Hres).
    destruct (resolved_is_real _ _ _ _ Hres) as (dv & lr & Hdv & Hne & Hlr & Hr).
    assert (r.1 ≠ dir) as Hdir
      by (intros Heq; rewrite Heq in Hdv; congruence).
    exists (mkPurged (set_in_playlist r (tree st)) (modified st)), (done ++ [v])%list.
    cbn [tree modified].
    assert (∀ p, songs_at (set_in_playlist r (tree st)) p
                 = (if decide (p = r.1) then alter mark_song r.2 else id)
                   <$> songs_at (tree st) p) as Hs.
    { intros p. unfold set_in_playlist. apply songs_at_alter_songs. }
    split; [by rewrite length_app, Nat.add_1_r|].
    split; [intros; apply Hmark|].
    split; [intros; apply device_at_alter_songs|].
    split; [rewrite Hs, decide_False, Hsongs by done; simpl;
            by rewrite <- app_assoc|].
    split.
    { by rewrite filter_cons_True, filter_nil. }
    split.
    { intros p Hp Hplp. rewrite Hs, decide_False by congruence.
      by destruct (songs_at (tree st) p). }
    split.
    { intros p dv' l Hdv' Hne' Hl. rewrite Hs, Hl. simpl.
      eexists. split; [done|].
      destruct (decide (p = r.1)) as [->|Hp].
      - eapply raised_iff; [|apply raised_mark].
        intros j. simpl. destruct r as [rp rj]; simpl. split.
        + by intros ->.
        + intros [_ H]. by inversion H.
      - apply raised_same. intros j [_ H]. inversion H; subst. by simpl in Hp. }
    rewrite Hdg. split; [by left|]. by intros [?|?].
  - (* the target does not resolve: the song is deleted *)
    rewrite purge_song_delete by done. cbn [fst snd].
    assert (dangling (tree st) dir v = true) as Hdg
      by (unfold dangling; by rewrite Hrel, Hres).
    exists (mkPurged (DeleteSong dir (length done) (tree st)) true), done.
    cbn [tree modified].
    assert (∀ p, songs_at (DeleteSong dir (length done) (tree st)) p
                 = (if decide (p = dir) then delete (length done) else id)
                   <$> songs_at (tree st) p) as Hs.
    { intros p. unfold DeleteSong. apply songs_at_alter_songs. }
    split; [done|].
    split; [intros; apply Hdel; by apply device_at_playlist|].
    split; [intros; apply device_at_alter_songs|].
    split; [rewrite Hs, decide_True, Hsongs by done; simpl;
            by rewrite delete_middle|].
    split.
    { rewrite filter_cons_False, filter_nil by (by rewrite Hdg).
      by rewrite app_nil_r. }
    split.
    { intros p Hp _. rewrite Hs, decide_False by done.
      by destruct (songs_at (tree st) p). }
    split.
    { intros p dv l Hdv Hne Hl. rewrite Hs, Hl.
      rewrite decide_False by (intros ->; congruence). simpl.
      eexists. split; [done|]. apply raised_same. intros j [_ H]. congruence. }
    rewrite Hdg. split; [by right|done].
  - (* the song does not pass the test *)
    rewrite purge_song_skip by done. cbn [fst snd].
    assert (dangling (tree st) dir v = false) as Hdg
      by (unfold dangling; by rewrite Hrel).
    exists st, (done ++ [v])%list.
    split; [by rewrite length_app, Nat.add_1_r|].
    split; [done|]. split; [done|].
    split; [by rewrite <- app_assoc|].
    split.
    { by rewrite filter_cons_True, filter_nil. }
    split; [done|].
    split.
    { intros p dv l _ _ Hl. exists l. split; [done|].
      apply raised_same. by intros j [? _]. }
    rewrite Hdg. split; [by left|]. by intros [?|?].
Qed.

(** The whole loop over the songs [todo] still to visit, [done] being the
    songs kept so far. *)
Lemma ForEachSongSafe_effect dir : ∀ todo done st,
  device_at (tree st) dir = Some DEVICE_PLAYLIST →
  songs_at (tree st) dir = Some (done ++ todo)%list →
  let st' := ForEachSongSafe (length todo) dir (length done) st in
  (∀ d tg, LookupTargetSong (tree st') d tg = LookupTargetSong (tree st) d tg)
  ∧ (∀ p, device_at (tree st') p = device_at (tree st) p)
  ∧ songs_at (tree st') dir
    = Some (done ++ filter (λ v, dangling (tree st) dir v = false) todo)%list
  ∧ (∀ p, p ≠ dir → device_at (tree st) p = Some DEVICE_PLAYLIST →
       songs_at (tree st') p = songs_at (tree st) p)
  ∧ (∀ p dv l, device_at (tree st) p = Some dv → dv ≠ DEVICE_PLAYLIST →
       songs_at (tree st) p = Some l →
       ∃ l', songs_at (tree st') p = Some l'
         ∧ raised (λ j, ∃ v, v ∈ todo ∧ has_relative_target v = true
                          ∧ LookupTargetSong (tree st) dir (target v)
                            = Some (p, j)) l l')
  ∧ (modified st' = true
     ↔ modified st = true ∨ ∃ v, v ∈ todo ∧ dangling (tree st) dir v = true).
Proof.
  induction todo as [|v todo IH]; intros done st Hpl Hsongs st'.
  - subst st'. simpl. rewrite app_nil_r in *.
    do 4 (split; [done|]). split.
    + intros p dv l _ _ Hl. exists l. split; [done|].
      apply raised_same. intros j (v & Hv & _). by apply elem_of_nil in Hv.
    + split; [by left|]. intros [?|(v & Hv & _)]; [done|].
      by apply elem_of_nil in Hv.
  - destruct (ForEachSongSafe_turn dir v todo done st Hpl Hsongs)
      as (st1 & done1 & Hrun & Hl1 & Hd1 & Hs1 & Hdone1 & Ho1 & Hr1 & Hm1).
    assert (∀ v', dangling (tree st1) dir v' = dangling (tree st) dir v')
      as Hdg by (intros; by apply dangling_ext).
    assert (device_at (tree st1) dir = Some DEVICE_PLAYLIST) as Hpl1
      by (by rewrite Hd1).
    destruct (IH done1 st1 Hpl1 Hs1) as (I1 & I2 & I3 & I4 & I5 & I6).
    subst st'. cbn [length]. rewrite Hrun.
    split; [intros; by rewrite I1|].
    split; [intros; by rewrite I2|].
    split.
    { rewrite I3, Hdone1, <- app_assoc. f_equal. f_equal.
      rewrite (list_filter_iff _ (λ v', dangling (tree st) dir v' = false)
                 todo) by (intros; by rewrite Hdg).
      change (v :: todo) with ([v] ++ todo)%list. by rewrite filter_app. }
    split.
    { intros p Hp Hplp. rewrite I4 by (done || by rewrite Hd1). by apply Ho1. }
    split.
    { intros p dv l Hdv Hne Hl.
      destruct (Hr1 p dv l Hdv Hne Hl) as (l1 & Hl1' & Hraise1).
      destruct (I5 p dv l1) as (l' & Hl' & Hraise'); [by rewrite Hd1|done|done|].
      exists l'. split; [done|].
      eapply raised_iff; [|eapply raised_trans; [exact Hraise1|exact Hraise']].
      intros j. simpl. split.
      - intros [[Hrel Hres]|(v' & Hv' & Hrel & Hres)].
        + exists v. split; [left|done].
        + exists v'. split; [by right|]. split; [done|]. by rewrite <- Hl1.
      - intros (v' & Hv' & Hrel & Hres).
        apply elem_of_cons in Hv' as [->|Hv']; [by left|].
        right. exists v'. split; [done|]. split; [done|]. by rewrite Hl1. }
    rewrite I6, Hm1. split.
    + intros [[?|?]|(v' & Hv' & Hd)].
      * by left.
      * right. exists v. split; [left|done].
      * right. exists v'. split; [by right|]. by rewrite <- Hdg.
    + intros [?|(v' & Hv' & Hd)]; [by left; left|].
      apply elem_of_cons in Hv' as [->|Hv']; [by left; right|].
      right. exists v'. split; [done|]. by rewrite Hdg.
Qed.

(** Only the virtual playlist directories of [Q] matter. *)
Lemma pass_effect_iff (Q Q' : DirPath → Prop) st st' :
  (∀ p, device_at (tree st) p = Some DEVICE_PLAYLIST → (Q p ↔ Q' p)) →
  pass_effect Q st st' → pass_effect Q' st st'.
Proof.
  intros HQ [Hl Hd Hv Hu Hr Hm].
  assert (∀ r, targeted_from Q (tree st) r ↔ targeted_from Q' (tree st) r)
    as Ht.
  { intros r. split; intros (q & l & v & Hq & Hpl & H);
      exists q, l, v; (split; [by apply (HQ q Hpl)|done]). }
  assert (dangling_in Q (tree st) ↔ dangling_in Q' (tree st)) as Hdi.
  { split; intros (q & l & v & Hq & Hpl & H);
      exists q, l, v; (split; [by apply (HQ q Hpl)|done]). }
  split; try done.
  - intros p l Hq Hpl. apply Hv; [by apply HQ|done].
  - intros p Hq Hpl. apply Hu; [|done]. intros ?. by apply Hq, HQ.
  - intros p dv l Hdv Hne Hs. destruct (Hr p dv l Hdv Hne Hs) as (l' & ? & ?).
    exists l'. split; [done|]. eapply raised_iff; [|done].
    intros j. apply Ht.
  - by rewrite Hm, Hdi.
Qed.

(** A part of the pass that visits no virtual playlist directory. *)
Lemma pass_effect_none (Q : DirPath → Prop) st :
  (∀ p, device_at (tree st) p = Some DEVICE_PLAYLIST → ¬ Q p) →
  pass_effect Q st st.
Proof.
  intros HQ. split; try done.
  - intros p l Hq Hpl. by destruct (HQ p Hpl).
  - intros p dv l _ _ Hs. exists l. split; [done|]. apply raised_same.
    intros j (q & _ & _ & Hq & Hpl & _). by apply (HQ q).
  - split; [by left|]. intros [?|(q & _ & _ & Hq & Hpl & _)]; [done|].
    by destruct (HQ q).
Qed.

(** Two parts of the pass, one after the other, that visit different
    directories. *)
Lemma pass_effect_seq (Q1 Q2 : DirPath → Prop) st st' st'' :
  (∀ p, Q1 p → Q2 p → False) →
  pass_effect Q1 st st' → pass_effect Q2 st' st'' →
  pass_effect (λ p, Q1 p ∨ Q2 p) st st''.
Proof.
  intros Hdisj [Hl1 Hd1 Hv1 Hu1 Hr1 Hm1] [Hl2 Hd2 Hv2 Hu2 Hr2 Hm2].
  assert (∀ p v, dangling (tree st') p v = dangling (tree st) p v) as Hdg
    by (intros; by apply dangling_ext).
  assert (∀ r, targeted_from Q2 (tree st') r ↔ targeted_from Q2 (tree st) r)
    as Ht2.
  { intros r. split; intros (q & l & v & Hq & Hpl & Hs & Hv & Hrel & Hres);
      exists q, l, v.
    - rewrite Hd1 in Hpl. rewrite Hu1 in Hs by (done || by intros ?; eapply Hdisj).
      rewrite Hl1 in Hres. done.
    - rewrite Hd1, Hl1. rewrite Hu1 by (done || by intros ?; eapply Hdisj).
      done. }
  assert (dangling_in Q2 (tree st') ↔ dangling_in Q2 (tree st)) as Hdi2.
  { split; intros (q & l & v & Hq & Hpl & Hs & Hv & Hdgv); exists q, l, v.
    - rewrite Hd1 in Hpl. rewrite Hu1 in Hs by (done || by intros ?; eapply Hdisj).
      rewrite Hdg in Hdgv. done.
    - rewrite Hd1, Hdg. rewrite Hu1 by (done || by intros ?; eapply Hdisj).
      done. }
  split.
  - intros. by rewrite Hl2, Hl1.
  - intros. by rewrite Hd2, Hd1.
  - intros p l [Hq|Hq] Hpl Hs.
    + rewrite Hu2; [by apply Hv1| by intros ?; eapply Hdisj | by rewrite Hd1].
    + assert (¬ Q1 p) as Hn by (by intros ?; eapply Hdisj).
      rewrite (Hv2 p l); [|done|by rewrite Hd1|by rewrite Hu1].
      f_equal. apply list_filter_iff. intros v. by rewrite Hdg.
  - intros p Hq Hpl.
    rewrite Hu2, Hu1; [done|tauto|done|tauto|by rewrite Hd1].
  - intros p dv l Hdv Hne Hs.
    destruct (Hr1 p dv l Hdv Hne Hs) as (l' & Hs' & Hraise1).
    destruct (Hr2 p dv l') as (l'' & Hs'' & Hraise2); [by rewrite Hd1|done|done|].
    exists l''. split; [done|].
    eapply raised_iff; [|eapply raised_trans; [exact Hraise1|exact Hraise2]].
    intros j. simpl. rewrite Ht2. split.
    + intros [(q & l0 & v & Hq & H)|(q & l0 & v & Hq & H)];
        exists q, l0, v; tauto.
    + intros (q & l0 & v & [Hq|Hq] & H); [left|right]; by exists q, l0, v.
  - rewrite Hm2, Hm1, Hdi2. split.
    + intros [[?|(q & l0 & v & Hq & H)]|(q & l0 & v & Hq & H)];
        [by left|right; exists q, l0, v; tauto..].
    + intros [?|(q & l0 & v & [Hq|Hq] & H)];
        [by left; left|left; right|right]; by exists q, l0, v.
Qed.

(** The visit of one directory, once its children are done. *)
Lemma visit_effect dir st : pass_effect (λ p, p = dir) st (visit dir st).
Proof.
  unfold visit.
  destruct (lookup_dir (tree st) dir) as [d|] eqn:Hd.
  2: { apply pass_effect_none. intros p Hpl ->.
       unfold device_at in Hpl. by rewrite Hd in Hpl. }
  destruct (IsPlaylist d) eqn:Hp.
  2: { apply pass_effect_none. intros p Hpl ->.
       destruct (device_at_real _ _ _ Hd Hp) as [Hdev Hne]. congruence. }
  assert (device_at (tree st) dir = Some DEVICE_PLAYLIST) as Hpl
    by (apply device_at_playlist; by exists d).
  assert (songs_at (tree st) dir = Some ([] ++ songs d)%list) as Hs
    by (unfold songs_at; by rewrite Hd).
  destruct (ForEachSongSafe_effect dir (songs d) [] st Hpl Hs)
    as (I1 & I2 & I3 & I4 & I5 & I6).
  simpl in *. split; try done.
  - intros p l -> _ Hl. rewrite I3. f_equal. congruence.
  - intros p dv l Hdv Hne Hl. destruct (I5 p dv l Hdv Hne Hl) as (l' & ? & ?).
    exists l'. split; [done|]. eapply raised_iff; [|done].
    intros j. simpl. split.
    + intros (v & Hv & Hrel & Hres). by exists dir, (songs d), v.
    + intros (q & l0 & v & -> & _ & Hl0 & Hv & Hrel & Hres).
      exists v. split; [congruence|done].
  - rewrite I6. split.
    + intros [?|(v & Hv & Hdg)]; [by left|right]. by exists dir, (songs d), v.
    + intros [?|(q & l0 & v & -> & _ & Hl0 & Hv & Hdg)]; [by left|right].
      exists v. split; [congruence|done].
Qed.

Lemma same_shape_device d t t' dir :
  (∀ p, device_at t' p = device_at t p) →
  same_shape d t dir → same_shape d t' dir.
Proof.
  intros Hdev H q. rewrite (H q), <- !device_at_is_Some. by rewrite Hdev.
Qed.

Lemma same_shape_child d t dir k c :
  same_shape d t dir → children d !! k = Some c →
  same_shape c t (dir ++ [k])%list.
Proof.
  intros H Hc q. rewrite <- app_assoc. simpl. rewrite <- (H (k :: q)).
  simpl. by rewrite Hc.
Qed.

Lemma same_shape_refl t : same_shape t t [].
Proof. by intros q. Qed.

(** The loop over the children, each child with the shape of the subtree
    it stands for. *)
Lemma for_each_child_effect f dir (cs : list Directory) :
  Forall (λ c, ∀ dir' st, same_shape c (tree st) dir' →
                pass_effect (λ p, dir' `prefix_of` p) st (f c dir' st)) cs →
  ∀ i st,
    (∀ k c, cs !! k = Some c → same_shape c (tree st) (dir ++ [i + k])%list) →
    pass_effect (λ p, ∃ k, k < length cs ∧ (dir ++ [i + k])%list `prefix_of` p)
      st (for_each_child f dir cs i st).
Proof.
  induction 1 as [|c cs Hc _ IH]; intros i st Hshape; simpl.
  - apply pass_effect_none. intros p _ (k & Hk & _). lia.
  - assert (pass_effect (λ p, (dir ++ [i])%list `prefix_of` p) st
              (f c (dir ++ [i])%list st)) as H1.
    { apply Hc. specialize (Hshape 0 c eq_refl).
      by rewrite Nat.add_0_r in Hshape. }
    assert (pass_effect
              (λ p, ∃ k, k < length cs ∧ (dir ++ [S i + k])%list `prefix_of` p)
              (f c (dir ++ [i])%list st)
              (for_each_child f dir cs (S i) (f c (dir ++ [i])%list st))) as H2.
    { apply IH. intros k c' Hk.
      eapply same_shape_device; [apply (pe_device _ _ _ _ _ H1)|].
      replace (S i + k) with (i + S k) by lia. by apply Hshape. }
    eapply pass_effect_iff; [|eapply pass_effect_seq; [|exact H1|exact H2]].
    + intros p _. split.
      * intros [Hp|(k & Hk & Hp)].
        -- exists 0. rewrite Nat.add_0_r. split; [lia|done].
        -- exists (S k). replace (i + S k) with (S i + k) by lia.
           split; [lia|done].
      * intros ([|k] & Hk & Hp).
        -- left. by rewrite Nat.add_0_r in Hp.
        -- right. exists k. replace (S i + k) with (i + S k) by lia.
           split; [lia|done].
    + intros p [x ->] (k & _ & [y Hy]).
      rewrite <- !app_assoc in Hy. apply app_inv_head in Hy.
      simpl in Hy. inversion Hy. lia.
Qed.

(** The pass from a directory down visits the virtual playlist directories
    below it, each one once. *)
Lemma purge_from_effect d : ∀ dir st,
  same_shape d (tree st) dir →
  pass_effect (λ p, dir `prefix_of` p) st (purge_from d dir st).
Proof.
  induction d as [n pa r dv m cs ss pl IH] using Directory_nested_ind.
  intros dir st Hshape. rewrite purge_from_post_order. cbn [children].
  set (d := mkDirectory n pa r dv m cs ss pl) in *.
  assert (pass_effect
            (λ p, ∃ k, k < length cs ∧ (dir ++ [0 + k])%list `prefix_of` p)
            st (for_each_child purge_from dir cs 0 st)) as H1.
  { apply for_each_child_effect; [done|]. intros k c Hk.
    by apply (same_shape_child d). }
  eapply pass_effect_iff;
    [|eapply pass_effect_seq; [|exact H1|apply visit_effect]].
  - intros p Hp. split.
    + intros [(k & _ & Hk)| ->]; [|done].
      etrans; [|exact Hk]. by apply prefix_app_r.
    + intros [[|k q] ->].
      * right. by rewrite app_nil_r.
      * left. exists k. split.
        -- assert (is_Some (lookup_dir d (k :: q))) as Hq.
           { apply Hshape, device_at_is_Some. by rewrite Hp. }
           simpl in Hq. apply lookup_lt_is_Some.
           destruct (cs !! k); [done|by destruct Hq].
        -- exists q. by rewrite <- app_assoc.
  - intros p (k & _ & [x Hx]) ->.
    apply (f_equal length) in Hx. rewrite !length_app in Hx. simpl in Hx. lia.
Qed.

(** The whole pass visits every virtual playlist directory of the tree. *)
Lemma PurgeDanglingFromPlaylists_effect root modified0 :
  pass_effect (λ _, True) (mkPurged root modified0)
    (PurgeDanglingFromPlaylists IsAbsoluteOrHasScheme LookupTargetSong
       root modified0).
Proof.
  unfold PurgeDanglingFromPlaylists.
  eapply pass_effect_iff; [|apply purge_from_effect, same_shape_refl].
  intros p _. split; [done|]. intros _. apply prefix_nil.
Qed.

End PassEffect.

(** ** The concrete resolver resolves to real Songs *)

Lemma find_song_lookup name0 l : ∀ i k,
  find_song name0 i l = Some k → (i ≤ k)%nat ∧ is_Some (l !! (k - i)%nat).
Proof.
  induction l as [|s l IH]; intros i k; simpl; [done|].
  destruct (String.eqb (filename s) name0).
  - intros [= ->]. rewrite Nat.sub_diag. split; [lia|by eexists].
  - intros H. destruct (IH _ _ H) as [Hle Hk]. split; [lia|].
    by replace (k - i)%nat with (S (k - S i)) by lia.
Qed.

Lemma find_song_mark name0 j l : ∀ i,
  find_song name0 i (alter mark_song j l) = find_song name0 i l.
Proof.
  revert j. induction l as [|s l IH]; intros [|j] i; cbn; rewrite ?IH;
    reflexivity.
Qed.

Lemma lookup_target_song_climb root : ∀ fuel dir target0,
  lookup_target_song fuel root dir target0
  = match climb fuel dir target0 with
    | Some (q, name0) =>
        songs_at root q ≫= λ l, (λ i, (q, i)) <$> find_song name0 0 l
    | None => None
    end.
Proof.
  induction fuel as [|fuel IH]; intros dir target0; simpl; [done|].
  destruct (String.prefix "../" target0).
  - destruct dir; [done|]. apply IH.
  - unfold songs_at. destruct (lookup_dir root dir) as [d|]; simpl; [|done].
    by destruct (find_song target0 0 (songs d)).
Qed.

Lemma resolve_real_climb root dir target0 :
  resolve_real root dir target0
  = match climb (S (String.length target0)) dir target0 with
    | Some (q, name0) =>
        match device_at root q with
        | Some dv =>
            if N.eqb dv DEVICE_PLAYLIST then None
            else songs_at root q ≫= λ l, (λ i, (q, i)) <$> find_song name0 0 l
        | None => None
        end
    | None => None
    end.
Proof.
  unfold resolve_real, resolve_target. rewrite lookup_target_song_climb.
  destruct (climb _ dir target0) as [[q name0]|]; [|done].
  unfold songs_at, device_at.
  destruct (lookup_dir root q) as [d|] eqn:Hd; simpl; [|done].
  destruct (find_song name0 0 (songs d)); simpl; rewrite ?Hd; simpl; [done|].
  by destruct (device d =? DEVICE_PLAYLIST)%N.
Qed.

Lemma resolve_real_resolver : real_resolver resolve_real.
Proof.
  split; [|split].
  - intros t dir tg r. rewrite resolve_real_climb.
    destruct (climb _ dir tg) as [[q name0]|]; [|done].
    unfold device_at, songs_at.
    destruct (lookup_dir t q) as [d|] eqn:Hd; simpl; [|done].
    destruct (N.eqb_spec (device d) DEVICE_PLAYLIST) as [|Hne]; [done|].
    destruct (find_song name0 0 (songs d)) as [i|] eqn:Hi; simpl; [|done].
    intros [= <-]. simpl.
    destruct (find_song_lookup _ _ _ _ Hi) as [_ [s Hs]].
    rewrite Nat.sub_0_r in Hs. exists d, s. split; [done|]. split; [|done].
    unfold IsPlaylist. by apply N.eqb_neq.
  - intros t r dir tg. rewrite !resolve_real_climb.
    destruct (climb _ dir tg) as [[q name0]|]; [|done].
    unfold set_in_playlist. rewrite device_at_alter_songs, songs_at_alter_songs.
    destruct (device_at t q) as [dv|]; [|done].
    destruct (dv =? DEVICE_PLAYLIST)%N; [done|].
    destruct (songs_at t q) as [l|]; [|done]. simpl.
    case_decide; [|done]. by rewrite find_song_mark.
  - intros t dir' i dir tg Hpl. rewrite !resolve_real_climb.
    destruct (climb _ dir tg) as [[q name0]|]; [|done].
    unfold DeleteSong. rewrite device_at_alter_songs, songs_at_alter_songs.
    destruct (decide (q = dir')) as [->|Hq].
    + apply device_at_playlist in Hpl. rewrite Hpl. by rewrite N.eqb_refl.
    + by destruct (songs_at t q).
Qed.

(** ** The pass, read off the trees before and after *)

Lemma targeted_from_all IsAbsoluteOrHasScheme LookupTargetSong t r :
  targeted_from IsAbsoluteOrHasScheme LookupTargetSong (λ _, True) t r
  ↔ targeted IsAbsoluteOrHasScheme LookupTargetSong t r.
Proof.
  unfold targeted_from, targeted, songs_at. split.
  - intros (q & l & v & _ & Hpl & Hl & H).
    apply device_at_playlist in Hpl as (d & Hd & Hp).
    rewrite Hd in Hl. inversion Hl; subst l. by exists q, d, v.
  - intros (q & d & v & Hd & Hp & H). exists q, (songs d), v.
    split; [done|]. split; [apply device_at_playlist; by exists d|].
    by rewrite Hd.
Qed.

Lemma dangling_in_all IsAbsoluteOrHasScheme LookupTargetSong t :
  dangling_in IsAbsoluteOrHasScheme LookupTargetSong (λ _, True) t
  ↔ has_dangling IsAbsoluteOrHasScheme LookupTargetSong t.
Proof.
  unfold dangling_in, has_dangling, songs_at. split.
  - intros (q & l & v & _ & Hpl & Hl & H).
    apply device_at_playlist in Hpl as (d & Hd & Hp).
    rewrite Hd in Hl. inversion Hl; subst l. by exists q, d, v.
  - intros (q & d & v & Hd & Hp & H). exists q, (songs d), v.
    split; [done|]. split; [apply device_at_playlist; by exists d|].
    by rewrite Hd.
Qed.

Section PassSummary.

Variable IsAbsoluteOrHasScheme : string → bool.
Variable LookupTargetSong : Directory → DirPath → string → option SongRef.
Hypothesis resolver : real_resolver LookupTargetSong.
Variable root : Directory.
Variable modified0 : bool.

Abbreviation after :=
  (PurgeDanglingFromPlaylists IsAbsoluteOrHasScheme LookupTargetSong
     root modified0).
Abbreviation dangling := (dangling IsAbsoluteOrHasScheme LookupTargetSong).
Abbreviation targeted := (targeted IsAbsoluteOrHasScheme LookupTargetSong).

Lemma pass_lookup dir tg :
  LookupTargetSong (tree after) dir tg = LookupTargetSong root dir tg.
Proof.
  apply (pe_lookup _ _ _ _ _
           (PurgeDanglingFromPlaylists_effect IsAbsoluteOrHasScheme _ resolver
                root modified0)).
Qed.

(** A virtual playlist directory keeps exactly its songs that do not
    dangle. *)
Lemma pass_playlist dir d :
  lookup_dir root dir = Some d → IsPlaylist d = true →
  ∃ d', lookup_dir (tree after) dir = Some d' ∧ IsPlaylist d' = true
        ∧ songs d' = filter (λ v, dangling root dir v = false) (songs d).
Proof.
  intros Hd Hp.
  pose proof (PurgeDanglingFromPlaylists_effect IsAbsoluteOrHasScheme _ resolver
                root modified0)
    as [_ Hdev Hv _ _ _]. cbn [tree] in *.
  assert (device_at root dir = Some DEVICE_PLAYLIST) as Hpl
    by (apply device_at_playlist; by exists d).
  specialize (Hv dir (songs d) I Hpl). unfold songs_at in Hv at 1.
  rewrite Hd in Hv. specialize (Hv eq_refl).
  specialize (Hdev dir). rewrite Hpl in Hdev.
  apply device_at_playlist in Hdev as (d' & Hd' & Hp').
  exists d'. split; [done|]. split; [done|].
  unfold songs_at in Hv. rewrite Hd' in Hv. by inversion Hv.
Qed.

(** A directory that is not a virtual playlist directory keeps its songs,
    with the flag raised on those that are targeted. *)
Lemma pass_real p d :
  lookup_dir root p = Some d → IsPlaylist d = false →
  ∃ d', lookup_dir (tree after) p = Some d' ∧ IsPlaylist d' = false
        ∧ raised (λ j, targeted root (p, j)) (songs d) (songs d').
Proof.
  intros Hd Hp.
  pose proof (PurgeDanglingFromPlaylists_effect IsAbsoluteOrHasScheme _ resolver
                root modified0)
    as [_ Hdev _ _ Hr _]. cbn [tree] in *.
  destruct (device_at_real _ _ _ Hd Hp) as [Hdv Hne].
  destruct (Hr p (device d) (songs d) Hdv Hne) as (l' & Hl' & Hraise).
  { unfold songs_at. by rewrite Hd. }
  specialize (Hdev p). rewrite Hdv in Hdev.
  unfold songs_at in Hl'. unfold device_at in Hdev.
  destruct (lookup_dir (tree after) p) as [d'|]; [|done].
  inversion Hl'; subst l'. inversion Hdev as [Hdev'].
  exists d'. split; [done|]. split.
  - unfold IsPlaylist in *. by rewrite Hdev'.
  - eapply raised_iff; [|exact Hraise]. intros j. apply targeted_from_all.
Qed.

Lemma pass_modified :
  modified after = true
  ↔ modified0 = true ∨ has_dangling IsAbsoluteOrHasScheme LookupTargetSong root.
Proof.
  pose proof (PurgeDanglingFromPlaylists_effect IsAbsoluteOrHasScheme _ resolver
                root modified0)
    as [_ _ _ _ _ Hm]. cbn [tree modified] in *.
  by rewrite Hm, dangling_in_all.
Qed.

(** The Song a target resolves to is there after the pass, and flagged. *)
Lemma pass_flags_target dir d v r :
  lookup_dir root dir = Some d → IsPlaylist d = true → v ∈ songs d →
  has_relative_target IsAbsoluteOrHasScheme v = true →
  LookupTargetSong root dir (target v) = Some r →
  ∃ s', lookup_song (tree after) r = Some s' ∧ in_playlist s' = true.
Proof.
  intros Hd Hp Hv Hrel Hres.
  destruct resolver as (Hreal & _ & _).
  destruct (Hreal _ _ _ _ Hres) as (dr & s & Hdr & Hpr & Hs).
  destruct (pass_real _ _ Hdr Hpr) as (dr' & Hdr' & _ & _ & Hraise).
  destruct (Hraise _ _ Hs) as (s' & Hs' & _ & _ & _ & Hflag).
  exists s'. unfold lookup_song. rewrite Hdr'. split; [done|].
  apply Hflag. right. destruct r. by exists dir, d, v.
Qed.

(** Being targeted is the same before and after the pass. *)
Lemma pass_targeted r : targeted (tree after) r ↔ targeted root r.
Proof.
  pose proof (PurgeDanglingFromPlaylists_effect IsAbsoluteOrHasScheme _ resolver
                root modified0)
    as [_ Hdev _ _ _ _]. cbn [tree] in *.
  split.
  - intros (dir & d' & v & Hd' & Hp' & Hv & Hrel & Hres).
    rewrite pass_lookup in Hres.
    assert (playlist_at root dir) as (d & Hd & Hp).
    { apply device_at_playlist. rewrite <- Hdev.
      apply device_at_playlist. by exists d'. }
    destruct (pass_playlist _ _ Hd Hp) as (d'' & Hd'' & _ & Hsongs).
    assert (d'' = d') as -> by congruence.
    rewrite Hsongs in Hv. apply list_elem_of_filter in Hv as [_ Hv].
    by exists dir, d, v.
  - intros (dir & d & v & Hd & Hp & Hv & Hrel & Hres).
    destruct (pass_playlist _ _ Hd Hp) as (d' & Hd' & Hp' & Hsongs).
    exists dir, d', v. rewrite pass_lookup. repeat split; try done.
    rewrite Hsongs. apply list_elem_of_filter. split; [|done].
    unfold dangling. by rewrite Hrel, Hres.
Qed.

End PassSummary.

(** C3, as the code has it.  A run of the Purger only ever sets
    [in_playlist], it never clears it: whatever the resolver, every
    Directory of the tree is still there after the run, the Songs it has
    left are Songs it had, in order, each with its file name, target and
    metadata and with [in_playlist] true whenever it was true before, and a
    Directory that is not a virtual playlist directory loses no Song.  And
    the run does set the flag: with a resolver that resolves to real Songs,
    every Song that a virtual Song left in the tree resolves its target to
    is flagged, a real Song is flagged after the run exactly when it was
    flagged before or is such a target, and the virtual Songs left are
    Songs as they were. *)
Theorem purge_sets_and_never_clears IsAbsoluteOrHasScheme LookupTargetSong
    (root : Directory) (modified0 : bool) :
  let after := tree (PurgeDanglingFromPlaylists IsAbsoluteOrHasScheme
                       LookupTargetSong root modified0) in
  (∀ p d, lookup_dir root p = Some d →
     ∃ d', lookup_dir after p = Some d'
       ∧ (∃ kept, kept `sublist_of` songs d
                  ∧ Forall2 never_cleared kept (songs d'))
       ∧ (IsPlaylist d = false → Forall2 never_cleared (songs d) (songs d')))
  ∧ (real_resolver LookupTargetSong →
     (∀ r, targeted IsAbsoluteOrHasScheme LookupTargetSong after r →
        ∃ s', lookup_song after r = Some s' ∧ in_playlist s' = true)
     ∧ (∀ p d j s,
          lookup_dir root p = Some d → IsPlaylist d = false →
          songs d !! j = Some s →
          ∃ s', lookup_song after (p, j) = Some s'
            ∧ (in_playlist s' = true
               ↔ in_playlist s = true
                 ∨ targeted IsAbsoluteOrHasScheme LookupTargetSong after (p, j)))
     ∧ (∀ p d, lookup_dir root p = Some d → IsPlaylist d = true →
          ∃ d', lookup_dir after p = Some d'
                ∧ songs d' `sublist_of` songs d)).
Proof.
  cbv zeta. split.
  - intros p d Hd. unfold PurgeDanglingFromPlaylists.
    destruct (purge_from_purged IsAbsoluteOrHasScheme LookupTargetSong root []
                (mkPurged root modified0) p d Hd) as (d' & Hd' & _ & Hs).
    exists d'. split; [done|]. split.
    + by eapply songs_purged_sublist.
    + intros Hp. rewrite Hp in Hs. by apply songs_purged_real.
  - intros resolver. split; [|split].
    + intros r Hr. apply pass_targeted in Hr; [|done].
      destruct Hr as (dir & d & v & Hd & Hp & Hv & Hrel & Hres).
      by eapply pass_flags_target.
    + intros p d j s Hd Hp Hs.
      destruct (pass_real IsAbsoluteOrHasScheme LookupTargetSong resolver
                  root modified0 p d Hd Hp) as (d' & Hd' & _ & _ & Hraise).
      destruct (Hraise j s Hs) as (s' & Hs' & _ & _ & _ & Hflag).
      exists s'. unfold lookup_song. simpl. rewrite Hd'. split; [done|].
      by rewrite pass_targeted.
    + intros p d Hd Hp.
      destruct (pass_playlist IsAbsoluteOrHasScheme LookupTargetSong resolver
                  root modified0 p d Hd Hp) as (d' & Hd' & _ & Hsongs).
      exists d'. split; [done|]. rewrite Hsongs. apply sublist_filter.
Qed.

Lemma purge_sets_and_never_clears_witness :
  let after := tree (PurgeDanglingFromPlaylists is_absolute_or_has_scheme
                       resolve_real album_stale false) in
  (∀ r, targeted is_absolute_or_has_scheme resolve_real after r →
     ∃ s', lookup_song after r = Some s' ∧ in_playlist s' = true)
  ∧ (∀ p d j s,
       lookup_dir album_stale p = Some d → IsPlaylist d = false →
       songs d !! j = Some s →
       ∃ s', lookup_song after (p, j) = Some s'
         ∧ (in_playlist s' = true
            ↔ in_playlist s = true
              ∨ targeted is_absolute_or_has_scheme resolve_real after (p, j)))
  ∧ (∀ p d, lookup_dir album_stale p = Some d → IsPlaylist d = true →
       ∃ d', lookup_dir after p = Some d' ∧ songs d' `sublist_of` songs d).
Proof.
  apply (purge_sets_and_never_clears is_absolute_or_has_scheme resolve_real
           album_stale false).
  exact resolve_real_resolver.
Defined.

(** C3, as stated, fails: [a.mp3] carries a flag from an earlier run, the
    only virtual Song of the tree resolves to [b.mp3], and after the run
    [a.mp3] is still flagged. *)
Lemma stale_flag_survives_purge :
  let after := tree (PurgeDanglingFromPlaylists is_absolute_or_has_scheme
                       resolve_target album_stale false) in
  songs after = [mkSong "a.mp3" "" true ""; mkSong "b.mp3" "" true ""]
  ∧ (songs <$> children after) = [[mkSong "track0001" "../b.mp3" false ""]]
  ∧ (children <$> children after) = [[]]
  ∧ resolve_target after [0] "../b.mp3" = Some ([], 1)
  ∧ (in_playlist <$> lookup_song after ([], 0)) = Some true.
Proof. vm_compute. repeat split. Qed.

(** C7: the pass as a whole, with a resolver that resolves to real Songs.
    In every virtual playlist directory of the tree, every Song whose
    target is non-empty and neither absolute nor scheme-qualified is dealt
    with: if its target does not resolve it is deleted and [modified] is
    set; if it resolves, the virtual Song is kept and the Song resolved to
    has [in_playlist = true] afterwards.  Nothing else happens: a virtual
    playlist directory keeps exactly its Songs that do not dangle, as they
    were; any other directory keeps all its Songs in place, with
    [in_playlist] raised on exactly those that some virtual Song resolves
    to; and [modified] is true afterwards exactly when it was true before or
    some virtual Song dangled.  With such a resolver a target resolves to
    the same Song in the tree before the pass as in the tree after it, so
    the outcome does not depend on when the pass reaches a Song. *)
Theorem purge_pass_outcome IsAbsoluteOrHasScheme LookupTargetSong
    (root : Directory) (modified0 : bool) :
  real_resolver LookupTargetSong →
  let after := PurgeDanglingFromPlaylists IsAbsoluteOrHasScheme
                 LookupTargetSong root modified0 in
  (∀ dir d, lookup_dir root dir = Some d → IsPlaylist d = true →
     ∃ d', lookup_dir (tree after) dir = Some d'
       ∧ songs d'
         = filter (λ v, dangling IsAbsoluteOrHasScheme LookupTargetSong
                          root dir v = false) (songs d)
       ∧ ∀ v, v ∈ songs d → target v ≠ "" →
           IsAbsoluteOrHasScheme (target v) = false →
           match LookupTargetSong root dir (target v) with
           | None => (v ∉ songs d') ∧ modified after = true
           | Some t =>
               v ∈ songs d'
               ∧ ∃ s', lookup_song (tree after) t = Some s'
                       ∧ in_playlist s' = true
           end)
  ∧ (∀ p d, lookup_dir root p = Some d → IsPlaylist d = false →
       ∃ d', lookup_dir (tree after) p = Some d'
         ∧ raised (λ j, targeted IsAbsoluteOrHasScheme LookupTargetSong
                          root (p, j)) (songs d) (songs d'))
  ∧ (modified after = true
     ↔ modified0 = true
       ∨ has_dangling IsAbsoluteOrHasScheme LookupTargetSong root)
  ∧ (∀ dir tg,
       LookupTargetSong (tree after) dir tg = LookupTargetSong root dir tg).
Proof.
  intros resolver. cbv zeta. split; [|split; [|split]].
  - intros dir d Hd Hp.
    destruct (pass_playlist IsAbsoluteOrHasScheme LookupTargetSong resolver
                root modified0 dir d Hd Hp) as (d' & Hd' & _ & Hsongs).
    exists d'. split; [done|]. split; [done|].
    intros v Hv Hne Habs.
    assert (has_relative_target IsAbsoluteOrHasScheme v = true) as Hrel.
    { unfold has_relative_target. rewrite Habs.
      by destruct (String.eqb_spec (target v) ""). }
    destruct (LookupTargetSong root dir (target v)) as [t|] eqn:Hres.
    + split.
      * rewrite Hsongs. apply list_elem_of_filter. split; [|done].
        unfold dangling. by rewrite Hrel, Hres.
      * by eapply pass_flags_target.
    + assert (dangling IsAbsoluteOrHasScheme LookupTargetSong root dir v = true)
        as Hdg by (unfold dangling; by rewrite Hrel, Hres).
      split.
      * rewrite Hsongs. intros [Hkeep _]%list_elem_of_filter. congruence.
      * apply pass_modified; [done|]. right. by exists dir, d, v.
  - intros p d Hd Hp.
    destruct (pass_real IsAbsoluteOrHasScheme LookupTargetSong resolver
                root modified0 p d Hd Hp) as (d' & Hd' & _ & Hraise).
    by exists d'.
  - by apply pass_modified.
  - intros dir tg. by apply pass_lookup.
Qed.

Lemma purge_pass_outcome_witness :
  let after := PurgeDanglingFromPlaylists is_absolute_or_has_scheme
                 resolve_real album_dangling false in
  (∀ dir d, lookup_dir album_dangling dir = Some d → IsPlaylist d = true →
     ∃ d', lookup_dir (tree after) dir = Some d'
       ∧ songs d'
         = filter (λ v, dangling is_absolute_or_has_scheme resolve_real
                          album_dangling dir v = false) (songs d)
       ∧ ∀ v, v ∈ songs d → target v ≠ "" →
           is_absolute_or_has_scheme (target v) = false →
           match resolve_real album_dangling dir (target v) with
           | None => (v ∉ songs d') ∧ modified after = true
           | Some t =>
               v ∈ songs d'
               ∧ ∃ s', lookup_song (tree after) t = Some s'
                       ∧ in_playlist s' = true
           end)
  ∧ (∀ p d, lookup_dir album_dangling p = Some d → IsPlaylist d = false →
       ∃ d', lookup_dir (tree after) p = Some d'
         ∧ raised (λ j, targeted is_absolute_or_has_scheme resolve_real
                          album_dangling (p, j)) (songs d) (songs d'))
  ∧ (modified after = true
     ↔ false = true
       ∨ has_dangling is_absolute_or_has_scheme resolve_real album_dangling)
  ∧ (∀ dir tg,
       resolve_real (tree after) dir tg = resolve_real album_dangling dir tg).
Proof.
  apply (purge_pass_outcome is_absolute_or_has_scheme resolve_real
           album_dangling false).
  exact resolve_real_resolver.
Defined.

(** ** The dispatcher and the registrar *)

Lemma UpdateOrInsert_find v pi :
  find_playlist (pl_name pi) (UpdateOrInsert v pi).1 = Some pi.
Proof.
  induction v as [|x v IH]; simpl.
  - by rewrite String.eqb_refl.
  - destruct (String.eqb_spec (pl_name x) (pl_name pi)) as [Hn|Hn].
    + destruct (Z.eqb_spec (pl_mtime x) (pl_mtime pi)) as [Hm|Hm]; simpl.
      * rewrite Hn, String.eqb_refl. destruct x, pi; simpl in *. congruence.
      * rewrite Hn, String.eqb_refl. by destruct pi.
    + destruct (UpdateOrInsert v pi) as [r changed]. simpl in *.
      destruct (String.eqb_spec (pl_name x) (pl_name pi)); done.
Qed.

Lemma UpdateOrInsert_others v pi n :
  n ≠ pl_name pi →
  find_playlist n (UpdateOrInsert v pi).1 = find_playlist n v.
Proof.
  intros Hn. induction v as [|x v IH]; simpl.
  - destruct (String.eqb_spec (pl_name pi) n); [congruence|done].
  - destruct (String.eqb_spec (pl_name x) (pl_name pi)) as [Hx|Hx].
    + destruct (Z.eqb (pl_mtime x) (pl_mtime pi)); simpl; [done|].
      destruct (String.eqb_spec (pl_name x) n); [congruence|done].
    + destruct (UpdateOrInsert v pi) as [r changed]. simpl in *.
      by rewrite IH.
Qed.

Lemma UpdateOrInsert_changed v pi :
  (UpdateOrInsert v pi).2 = true
  ↔ find_playlist (pl_name pi) v = None
    ∨ ∃ old, find_playlist (pl_name pi) v = Some old
             ∧ pl_mtime old ≠ pl_mtime pi.
Proof.
  induction v as [|x v IH]; simpl.
  - split; [by left|done].
  - destruct (String.eqb_spec (pl_name x) (pl_name pi)) as [Hx|Hx].
    + destruct (Z.eqb_spec (pl_mtime x) (pl_mtime pi)) as [Hm|Hm]; simpl.
      * split; [done|]. intros [?|(old & Ho & Hne)]; [done|].
        inversion Ho; subst. done.
      * split; [|done]. intros _. right. by exists x.
    + destruct (UpdateOrInsert v pi) as [r changed]. simpl in *. exact IH.
Qed.

(** C8: when a plugin handles the suffix the dispatcher returns true.  When
    that plugin is not folder-expanding, the call returns normally, the
    Songs and the child Directories of the directory are what they were,
    the playlist collection holds the entry of that name with the file's
    modification time and its entries of other names are what they were,
    and [modified] is true afterwards exactly when it was true before or the
    entry was new or had another timestamp. *)
Theorem flat_playlist_is_registered MapUTF8 stat IsAbsoluteOrHasScheme Build
    LockMakeVirtualDirectoryIfModified
    FindPlaylistPluginBySuffix GetPlaylistPluginAsFolder
    (directory : Directory) (modified0 : bool) (name0 suffix : string)
    (info : StorageFileInfo) (plugin : PlaylistPlugin) :
  FindPlaylistPluginBySuffix suffix = Some plugin →
  let r := UpdatePlaylistFile MapUTF8 stat IsAbsoluteOrHasScheme Build
             LockMakeVirtualDirectoryIfModified
             FindPlaylistPluginBySuffix GetPlaylistPluginAsFolder
             directory modified0 name0 suffix info in
  d_return r = true
  ∧ (GetPlaylistPluginAsFolder plugin = false →
     d_exit r = Returned
     ∧ songs (d_directory r) = songs directory
     ∧ children (d_directory r) = children directory
     ∧ find_playlist name0 (playlists (d_directory r))
       = Some (mkPlaylistInfo name0 (info_mtime info))
     ∧ (∀ n, n ≠ name0 →
          find_playlist n (playlists (d_directory r))
          = find_playlist n (playlists directory))
     ∧ (d_modified r = true
        ↔ modified0 = true
          ∨ find_playlist name0 (playlists directory) = None
          ∨ ∃ old, find_playlist name0 (playlists directory) = Some old
                   ∧ pl_mtime old ≠ info_mtime info)).
Proof.
  intros Hfind. unfold UpdatePlaylistFile. rewrite Hfind.
  destruct (GetPlaylistPluginAsFolder plugin) eqn:Hfolder.
  - destruct (UpdatePlaylistFile_plugin _ _ _ _ _ _ _ _ _ _) as [r m].
    simpl. split; [done|]. intros ?. done.
  - pose proof (UpdateOrInsert_find (playlists directory)
                  (mkPlaylistInfo name0 (info_mtime info))) as Hf.
    pose proof (UpdateOrInsert_others (playlists directory)
                  (mkPlaylistInfo name0 (info_mtime info))) as Ho.
    pose proof (UpdateOrInsert_changed (playlists directory)
                  (mkPlaylistInfo name0 (info_mtime info))) as Hc.
    destruct (UpdateOrInsert _ _) as [v changed]. simpl in *.
    split; [done|]. intros _.
    split; [done|]. split; [done|]. split; [done|]. split; [done|].
    split; [exact Ho|].
    destruct changed.
    + split; [|done]. intros _. right. by apply Hc.
    + split.
      * intros ->. by left.
      * intros [->|H]; [done|]. apply Hc in H. done.
Qed.

Lemma flat_playlist_is_registered_witness :
  let r := UpdatePlaylistFile music_MapUTF8 (stat_in []) is_absolute_or_has_scheme
             build_path synchronize find_plugin plugin_as_folder
             album false "radio.pls" "pls" (mkStorageFileInfo 7) in
  d_return r = true
  ∧ (plugin_as_folder (mkPlaylistPlugin "pls" (λ _, OpenNull)) = false →
     d_exit r = Returned
     ∧ songs (d_directory r) = songs album
     ∧ children (d_directory r) = children album
     ∧ find_playlist "radio.pls" (playlists (d_directory r))
       = Some (mkPlaylistInfo "radio.pls" 7)
     ∧ (∀ n, n ≠ "radio.pls" →
          find_playlist n (playlists (d_directory r))
          = find_playlist n (playlists album))
     ∧ (d_modified r = true
        ↔ false = true
          ∨ find_playlist "radio.pls" (playlists album) = None
          ∨ ∃ old, find_playlist "radio.pls" (playlists album) = Some old
                   ∧ pl_mtime old ≠ 7%Z)).
Proof.
  apply (flat_playlist_is_registered music_MapUTF8 (stat_in [])
           is_absolute_or_has_scheme build_path synchronize
           find_plugin plugin_as_folder
           album false "radio.pls" "pls" (mkStorageFileInfo 7)
           (mkPlaylistPlugin "pls" (λ _, OpenNull))).
  reflexivity.
Defined.

(** C10: within one run of the expansion loop no real Song of the parent is
    removed twice, even when several playlist entries have the same target
    file name.  The addresses handed to [RemoveSong] are pairwise distinct,
    and so are the target file names that triggered a removal (the snapshot
    entry is erased right after the removal); each call names a Song the
    parent had on entry, under that Song's file name, and the parent ends
    with exactly one Song less per call. *)
Theorem remove_song_at_most_once MapUTF8 stat IsAbsoluteOrHasScheme
    (parent : Directory) (directory : option DirPtr) (contents : SongEnumerator) :
  let r := UpdatePlaylistFile_contents MapUTF8 stat IsAbsoluteOrHasScheme
             parent directory contents in
  NoDup (remove_calls r).*2
  ∧ NoDup (remove_calls r).*1
  ∧ (∀ k p, (k, p) ∈ remove_calls r →
       ∃ s, songs parent !! p = Some s ∧ filename s = k)
  ∧ length (songs (parent_after r)) + length (remove_calls r)
    = length (songs parent).
Proof.
  intros r. subst r. unfold UpdatePlaylistFile_contents.
  pose proof (drain_inv MapUTF8 stat IsAbsoluteOrHasScheme (path parent)
                directory contents _ (enter_loop_inv parent)) as H.
  pose proof (drain_log_sound MapUTF8 stat IsAbsoluteOrHasScheme _ (path parent)
                directory contents _ (enter_loop_inv parent)
                (enter_loop_log_sound parent)) as [_ Hcalls Hcount].
  destruct (drain _ _ _ _ _ _ _) as [[x st] rest]. simpl in *.
  split; [apply (inv_ptrs _ H)|]. split; [apply (inv_keys _ H)|]. split.
  - intros k p Hin. destruct (Hcalls _ _ Hin) as (s & Hs & Hf).
    exists s. split; [by apply addressed_lookup|done].
  - rewrite length_fmap. unfold addressed in Hcount.
    rewrite length_zip_with, length_seq in Hcount. lia.
Qed.

(** ** More about the expansion *)

Lemma uint_of_string_zeros k s :
  NilEmpty.uint_of_string (zeros k +:+ s)
  = Nat.iter k Decimal.D0 <$> NilEmpty.uint_of_string s.
Proof.
  induction k as [|k IH].
  - change (zeros 0 +:+ s) with s. by destruct (NilEmpty.uint_of_string s).
  - change (zeros (S k) +:+ s) with (String "0" (zeros k +:+ s)).
    simpl. rewrite IH. by destruct (NilEmpty.uint_of_string s).
Qed.

Lemma of_uint_zeros k d : N.of_uint (Nat.iter k Decimal.D0 d) = N.of_uint d.
Proof. induction k as [|k IH]; [done|]. simpl. exact IH. Qed.

Lemma parse_format_04u n : parse_unsigned (format_04u n) = Some n.
Proof.
  unfold parse_unsigned, format_04u. rewrite uint_of_string_zeros.
  assert (NilEmpty.uint_of_string (NilZero.string_of_uint (N.to_uint n))
          = Some (match N.to_uint n with
                  | Decimal.Nil => Decimal.D0 Decimal.Nil
                  | d => d
                  end)) as ->.
  { unfold NilZero.string_of_uint.
    destruct (N.to_uint n) eqn:E; try (rewrite <- E; apply NilEmpty.usu).
    reflexivity. }
  simpl. rewrite of_uint_zeros. f_equal.
  destruct (N.to_uint n) eqn:E; rewrite <- (DecimalN.Unsigned.of_to n), E;
    reflexivity.
Qed.

Lemma track_name_inj n m : track_name n = track_name m → n = m.
Proof.
  unfold track_name. intros H.
  change ("track" +:+ format_04u n) with
    (String "t" (String "r" (String "a" (String "c" (String "k" (format_04u n))))))
    in H.
  change ("track" +:+ format_04u m) with
    (String "t" (String "r" (String "a" (String "c" (String "k" (format_04u m))))))
    in H.
  injection H as H.
  apply (f_equal parse_unsigned) in H. rewrite !parse_format_04u in H.
  by inversion H.
Qed.

Lemma filter_ext_in {A} (P Q : A → Prop) `{!∀ x, Decision (P x)}
    `{!∀ x, Decision (Q x)} (l : list A) :
  (∀ x, x ∈ l → (P x ↔ Q x)) → filter P l = filter Q l.
Proof.
  induction l as [|x l IH]; intros Hl; [done|].
  rewrite !filter_cons.
  assert (P x ↔ Q x) as Hx by (apply Hl; by left).
  rewrite IH by (intros y Hy; apply Hl; by right).
  destruct (decide (P x)), (decide (Q x)); tauto.
Qed.

Lemma filter_all {A} (P : A → Prop) `{!∀ x, Decision (P x)} (l : list A) :
  (∀ x, x ∈ l → P x) → filter P l = l.
Proof.
  induction l as [|x l IH]; intros Hl; [done|].
  rewrite filter_cons_True by (apply Hl; by left).
  rewrite IH; [done|]. intros y Hy. apply Hl. by right.
Qed.

Lemma filter_snd {A B} (P : B → Prop) (Q : A * B → Prop)
    `{!∀ x, Decision (P x)} `{!∀ x, Decision (Q x)} (l : list (A * B)) :
  (∀ x, Q x ↔ P x.2) → (filter Q l).*2 = filter P l.*2.
Proof.
  intros HPQ. induction l as [|[a b] l IH]; [done|].
  rewrite fmap_cons, !filter_cons. simpl.
  pose proof (HPQ (a, b)) as Hab. simpl in Hab.
  destruct (decide (Q (a, b))), (decide (P b)); simpl; rewrite <- ?IH;
    tauto || done.
Qed.

Lemma alter_as_insert {A} (f : A → A) (l : list A) : ∀ i x,
  l !! i = Some x → alter f i l = <[i := f x]> l.
Proof.
  induction l as [|y l IH]; intros [|i] x Hl; simpl in *; try done.
  - by inversion Hl.
  - f_equal. by apply IH.
Qed.

Section MoreLoopFacts.

Variable MapUTF8 : string → string.
Variable stat : string → bool.
Variable IsAbsoluteOrHasScheme : string → bool.

Abbreviation drain := (drain MapUTF8 stat IsAbsoluteOrHasScheme).
Abbreviation accepted := (accepted IsAbsoluteOrHasScheme).
Abbreviation new_songs := (new_songs IsAbsoluteOrHasScheme).

(** Entries that all pass are all accepted, one after the other. *)
Lemma drain_yielding pp directory entries : ∀ st tl,
  Forall (passes MapUTF8 stat pp) entries →
  drain pp directory st (yielding entries ++ tl)
  = drain pp directory
      (foldl (λ st song, accepted directory song st) st entries) tl.
Proof.
  induction entries as [|song entries IH]; intros st tl Hall; [done|].
  apply Forall_cons in Hall as [[Hb Hs] Hall].
  unfold yielding. rewrite fmap_cons. simpl app.
  rewrite drain_accepted by done. by apply IH.
Qed.

Lemma accepted_track d song st :
  track (accepted (Some d) song st) = incr_unsigned (track st).
Proof. unfold accepted, commit. simpl. by destruct (song_map st !! uri song). Qed.

Lemma accepted_all_deleted directory entries : ∀ st,
  deleted (foldl (λ st song, accepted directory song st) st entries)
  = deleted st.
Proof.
  induction entries as [|song entries IH]; intros st; [done|].
  cbn [foldl]. rewrite IH. apply accepted_deleted.
Qed.

(** The virtual directory after entries that all pass. *)
Lemma accepted_all_children d dir entries : ∀ st,
  parent_children st !! d = Some dir →
  parent_children (foldl (λ st song, accepted (Some d) song st) st entries)
  = <[d := set_songs (songs dir ++ new_songs (track st) entries) dir]>
      (parent_children st).
Proof.
  revert dir. induction entries as [|song entries IH]; intros dir st Hd.
  - simpl. rewrite app_nil_r. symmetry. apply list_insert_id.
    rewrite Hd. by destruct dir.
  - cbn [foldl]. cbn [new_songs].
    set (v := make_db_song IsAbsoluteOrHasScheme song (incr_unsigned (track st))).
    assert (parent_children (accepted (Some d) song st)
            = <[d := AddSong v dir]> (parent_children st)) as Hc.
    { rewrite accepted_children. by apply alter_as_insert. }
    rewrite (IH (AddSong v dir)).
    + rewrite accepted_track, Hc, list_insert_insert_eq. f_equal.
      unfold AddSong, set_songs. simpl. by rewrite <- app_assoc.
    + rewrite Hc. apply list_lookup_insert_eq. by eapply lookup_lt_Some.
Qed.

Lemma accepted_all_children_null entries : ∀ st,
  parent_children (foldl (λ st song, accepted None song st) st entries)
  = parent_children st.
Proof.
  induction entries as [|song entries IH]; intros st; [done|].
  cbn [foldl]. rewrite IH. apply accepted_children_null.
Qed.

Lemma new_songs_length entries : ∀ t, length (new_songs t entries) = length entries.
Proof. induction entries as [|s l IH]; intros t; simpl; [done|]. by rewrite IH. Qed.

Lemma new_songs_lookup entries : ∀ t i song,
  entries !! i = Some song →
  new_songs t entries !! i
  = Some (make_db_song IsAbsoluteOrHasScheme song
            ((t + N.of_nat (S i)) mod 2 ^ 32)%N).
Proof.
  induction entries as [|s l IH]; intros t [|i] song Hl; simpl in *; try done.
  - inversion Hl; subst. unfold incr_unsigned. done.
  - rewrite (IH _ _ _ Hl). do 2 f_equal. unfold incr_unsigned.
    rewrite N.Div0.add_mod_idemp_l. f_equal. lia.
Qed.

(** The songs of the parent after one accepted entry: those of another file
    name. *)
Lemma accepted_songs_filter directory song st :
  loop_inv st → map_complete st →
  parent_songs (accepted directory song st)
  = filter (λ x, filename x.2 ≠ uri song) (parent_songs st).
Proof.
  intros Hinv Hc. rewrite accepted_parent_songs.
  destruct (song_map st !! uri song) as [p|] eqn:E.
  - unfold RemoveSong. apply filter_ext_in. intros [q t] Hin. simpl.
    split; intros Hne Heq; apply Hne.
    + specialize (Hc _ _ Hin). rewrite Heq, E in Hc. by inversion Hc.
    + subst q. destruct (inv_map _ Hinv _ _ E) as (s & Hs & Hf).
      assert (t = s) by (eapply address_unique; eauto using inv_addr).
      congruence.
  - symmetry. apply filter_all. intros [q t] Hin Heq. simpl in Heq.
    specialize (Hc _ _ Hin). rewrite Heq in Hc. congruence.
Qed.

Lemma accepted_all_songs directory entries : ∀ st,
  loop_inv st → map_complete st →
  parent_songs (foldl (λ st song, accepted directory song st) st entries)
  = filter (λ x, filename x.2 ∉ uri <$> entries) (parent_songs st).
Proof.
  induction entries as [|song entries IH]; intros st Hinv Hc.
  - simpl. symmetry. apply filter_all. intros x _ Hin. inversion Hin.
  - cbn [foldl]. rewrite IH by (by apply accepted_inv || by apply accepted_complete).
    rewrite accepted_songs_filter by done. rewrite list_filter_filter.
    apply list_filter_iff. intros x. rewrite fmap_cons, not_elem_of_cons. tauto.
Qed.

Lemma accepted_all_removals directory entries : ∀ st,
  ∃ more, removals (foldl (λ st song, accepted directory song st) st entries)
          = (removals st ++ more)%list.
Proof.
  induction entries as [|song entries IH]; intros st.
  - exists []. by rewrite app_nil_r.
  - cbn [foldl]. destruct (IH (accepted directory song st)) as (more & ->).
    rewrite accepted_removals, <- app_assoc. by eexists.
Qed.

End MoreLoopFacts.

Section MoreExpansion.

Variable MapUTF8 : string → string.
Variable stat : string → bool.
Variable IsAbsoluteOrHasScheme : string → bool.

Abbreviation run_contents :=
  (UpdatePlaylistFile_contents MapUTF8 stat IsAbsoluteOrHasScheme).

(** The loop function on entries that all pass, then whatever follows. *)
Lemma run_contents_yielding parent directory entries tl :
  Forall (passes MapUTF8 stat (path parent)) entries →
  run_contents parent directory (yielding entries ++ tl)
  = let '(x, st, rest) :=
      drain MapUTF8 stat IsAbsoluteOrHasScheme (path parent) directory
        (foldl (λ st song, accepted IsAbsoluteOrHasScheme directory song st)
               (enter_loop parent) entries) tl in
    mkExpanded x (leave_loop parent st) (deleted st) (removals st) rest.
Proof.
  intros Hall. unfold UpdatePlaylistFile_contents.
  by rewrite drain_yielding.
Qed.

Lemma enter_loop_complete parent :
  NoDup (filename <$> songs parent) → map_complete (enter_loop parent).
Proof.
  intros Hnd p s Hs. simpl in *. apply snapshot_complete; [|done].
  by rewrite list_fmap_compose, addressed_snd.
Qed.

(** The virtual directory after a run over entries that all pass. *)
Lemma run_contents_all_pass parent d dir entries :
  children parent !! d = Some dir →
  Forall (passes MapUTF8 stat (path parent)) entries →
  let r := run_contents parent (Some d) (yielding entries) in
  exit r = Returned ∧ unread r = [] ∧ directory_deleted r = false
  ∧ children (parent_after r)
    = <[d := set_songs (songs dir ++ new_songs IsAbsoluteOrHasScheme 0 entries) dir]>
        (children parent).
Proof.
  intros Hd Hall. simpl.
  rewrite <- (app_nil_r (yielding entries)), run_contents_yielding by done.
  rewrite drain_nil. cbn [exit unread directory_deleted parent_after].
  rewrite accepted_all_deleted.
  split; [done|]. split; [done|]. split; [done|].
  unfold leave_loop. cbn [children set_children].
  by rewrite (accepted_all_children IsAbsoluteOrHasScheme d dir).
Qed.

End MoreExpansion.

(** X1: a playlist of fewer than 2^32 entries that all pass is expanded in
    order.  The run returns with the whole sequence read and the virtual
    Directory alive; its old songs are followed by one virtual song per
    entry, the i-th one (counting from 1) named [track] with i in at least
    four digits, carrying the entry's stored target and metadata and an
    unset [in_playlist]; the other children of the parent stay as they
    are. *)
Theorem expansion_appends_entries_in_order MapUTF8 stat IsAbsoluteOrHasScheme
    (parent : Directory) (d : nat) (dir : Directory)
    (entries : list DetachedSong) :
  children parent !! d = Some dir →
  Forall (passes MapUTF8 stat (path parent)) entries →
  (N.of_nat (length entries) < 2 ^ 32)%N →
  let r := UpdatePlaylistFile_contents MapUTF8 stat IsAbsoluteOrHasScheme
             parent (Some d) (yielding entries) in
  exit r = Returned ∧ unread r = [] ∧ directory_deleted r = false
  ∧ ∃ news,
      children (parent_after r)
      = <[d := set_songs (songs dir ++ news) dir]> (children parent)
      ∧ length news = length entries
      ∧ ∀ i song, entries !! i = Some song →
          news !! i
          = Some (mkSong (track_name (N.of_nat (S i)))
                         (stored_target IsAbsoluteOrHasScheme (uri song))
                         false (dtag song)).
Proof.
  intros Hd Hall Hlen.
  destruct (run_contents_all_pass MapUTF8 stat IsAbsoluteOrHasScheme
              parent d dir entries Hd Hall) as (Hx & Hu & Hdel & Hc).
  split; [done|]. split; [done|]. split; [done|].
  exists (new_songs IsAbsoluteOrHasScheme 0 entries).
  split; [done|]. split; [apply new_songs_length|].
  intros i song Hi. rewrite (new_songs_lookup _ _ _ _ _ Hi).
  unfold make_db_song. do 3 f_equal.
  apply lookup_lt_Some in Hi. rewrite N.add_0_l. apply N.mod_small. lia.
Qed.

Lemma expansion_appends_entries_in_order_witness :
  let r := UpdatePlaylistFile_contents music_MapUTF8
             (stat_in ["/music/a.mp3"; "/music/b.mp3"]) is_absolute_or_has_scheme
             album_fresh (Some 0)
             (yielding [mkDetachedSong "b.mp3" "B"; mkDetachedSong "a.mp3" "A"]) in
  exit r = Returned ∧ unread r = [] ∧ directory_deleted r = false
  ∧ ∃ news,
      children (parent_after r)
      = <[0 := set_songs
                 (songs (mkDirectory "album.m3u" "album.m3u" false
                           DEVICE_PLAYLIST 5 [] [] []) ++ news)
                 (mkDirectory "album.m3u" "album.m3u" false
                    DEVICE_PLAYLIST 5 [] [] [])]> (children album_fresh)
      ∧ length news = 2
      ∧ ∀ i song,
          [mkDetachedSong "b.mp3" "B"; mkDetachedSong "a.mp3" "A"] !! i = Some song →
          news !! i
          = Some (mkSong (track_name (N.of_nat (S i)))
                         (stored_target is_absolute_or_has_scheme (uri song))
                         false (dtag song)).
Proof.
  apply (expansion_appends_entries_in_order music_MapUTF8
           (stat_in ["/music/a.mp3"; "/music/b.mp3"]) is_absolute_or_has_scheme
           album_fresh 0
           (mkDirectory "album.m3u" "album.m3u" false DEVICE_PLAYLIST 5 [] [] [])
           [mkDetachedSong "b.mp3" "B"; mkDetachedSong "a.mp3" "A"]).
  - reflexivity.
  - repeat constructor; discriminate.
  - reflexivity.
Defined.

(** X2: naming uniqueness.  Expanding fewer than 2^32 entries that all pass
    into an empty virtual Directory gives it one song per entry, and their
    file names are pairwise distinct, also when several entries have the
    same URI. *)
Theorem expansion_names_distinct MapUTF8 stat IsAbsoluteOrHasScheme
    (parent : Directory) (d : nat) (dir : Directory)
    (entries : list DetachedSong) :
  children parent !! d = Some dir →
  songs dir = [] →
  Forall (passes MapUTF8 stat (path parent)) entries →
  (N.of_nat (length entries) < 2 ^ 32)%N →
  let r := UpdatePlaylistFile_contents MapUTF8 stat IsAbsoluteOrHasScheme
             parent (Some d) (yielding entries) in
  ∃ dir', children (parent_after r) !! d = Some dir'
          ∧ length (songs dir') = length entries
          ∧ NoDup (filename <$> songs dir').
Proof.
  intros Hd Hempty Hall Hlen.
  destruct (run_contents_all_pass MapUTF8 stat IsAbsoluteOrHasScheme
              parent d dir entries Hd Hall) as (_ & _ & _ & Hc).
  simpl. rewrite Hc, Hempty. simpl.
  eexists. split.
  { apply list_lookup_insert_eq. by eapply lookup_lt_Some. }
  simpl. split; [apply new_songs_length|].
  apply NoDup_alt. intros i j x Hi Hj.
  rewrite list_lookup_fmap in Hi, Hj.
  destruct (lookup_lt_is_Some_2 entries i) as [si Hsi].
  { destruct (new_songs _ _ _ !! i) eqn:E; [|done].
    apply lookup_lt_Some in E. by rewrite new_songs_length in E. }
  destruct (lookup_lt_is_Some_2 entries j) as [sj Hsj].
  { destruct (new_songs _ _ _ !! j) eqn:E; [|done].
    apply lookup_lt_Some in E. by rewrite new_songs_length in E. }
  rewrite (new_songs_lookup _ _ _ _ _ Hsi) in Hi.
  rewrite (new_songs_lookup _ _ _ _ _ Hsj) in Hj.
  unfold make_db_song in Hi, Hj. cbn [fmap option_fmap option_map filename] in Hi, Hj.
  assert (track_name ((0 + N.of_nat (S i)) mod 2 ^ 32)%N
          = track_name ((0 + N.of_nat (S j)) mod 2 ^ 32)%N) as Hn by congruence.
  apply track_name_inj in Hn.
  apply lookup_lt_Some in Hsi, Hsj.
  rewrite !N.add_0_l, !N.mod_small in Hn by lia. lia.
Qed.

Lemma expansion_names_distinct_witness :
  let r := UpdatePlaylistFile_contents music_MapUTF8
             (stat_in ["/music/a.mp3"]) is_absolute_or_has_scheme
             album_fresh (Some 0)
             (yielding [mkDetachedSong "a.mp3" ""; mkDetachedSong "a.mp3" ""]) in
  ∃ dir', children (parent_after r) !! 0 = Some dir'
          ∧ length (songs dir') = 2
          ∧ NoDup (filename <$> songs dir').
Proof.
  apply (expansion_names_distinct music_MapUTF8
           (stat_in ["/music/a.mp3"]) is_absolute_or_has_scheme
           album_fresh 0
           (mkDirectory "album.m3u" "album.m3u" false DEVICE_PLAYLIST 5 [] [] [])
           [mkDetachedSong "a.mp3" ""; mkDetachedSong "a.mp3" ""]).
  - reflexivity.
  - reflexivity.
  - repeat constructor; discriminate.
  - reflexivity.
Defined.

(** X3: the override rule in full.  When the file names of the parent's
    songs are pairwise distinct and every entry passes, the parent is left
    with exactly its songs whose file name is the URI of no entry, in their
    old order, whether or not there is a virtual Directory to expand
    into. *)
Theorem expansion_keeps_unnamed_songs MapUTF8 stat IsAbsoluteOrHasScheme
    (parent : Directory) (directory : option nat)
    (entries : list DetachedSong) :
  NoDup (filename <$> songs parent) →
  Forall (passes MapUTF8 stat (path parent)) entries →
  songs (parent_after
           (UpdatePlaylistFile_contents MapUTF8 stat IsAbsoluteOrHasScheme
              parent directory (yielding entries)))
  = filter (λ s, filename s ∉ uri <$> entries) (songs parent).
Proof.
  intros Hnd Hall.
  rewrite <- (app_nil_r (yielding entries)), run_contents_yielding by done.
  rewrite drain_nil. cbn [parent_after]. unfold leave_loop.
  cbn [songs set_songs set_children].
  rewrite accepted_all_songs
    by (apply enter_loop_inv || by apply enter_loop_complete).
  cbn [parent_songs enter_loop].
  etrans; [by apply (filter_snd (λ s, filename s ∉ uri <$> entries))|].
  by rewrite addressed_snd.
Qed.

Lemma expansion_keeps_unnamed_songs_witness :
  songs (parent_after
           (UpdatePlaylistFile_contents music_MapUTF8
              (stat_in ["/music/a.mp3"; "/music/c.mp3"])
              is_absolute_or_has_scheme album_expanded None
              (yielding [mkDetachedSong "c.mp3" ""; mkDetachedSong "a.mp3" ""])))
  = filter (λ s, filename s ∉ uri <$> [mkDetachedSong "c.mp3" "";
                                       mkDetachedSong "a.mp3" ""])
           (songs album_expanded).
Proof.
  apply (expansion_keeps_unnamed_songs music_MapUTF8
           (stat_in ["/music/a.mp3"; "/music/c.mp3"])
           is_absolute_or_has_scheme album_expanded None
           [mkDetachedSong "c.mp3" ""; mkDetachedSong "a.mp3" ""]).
  - simpl. apply NoDup_cons. split.
    + intros H. apply list_elem_of_singleton in H. discriminate.
    + apply NoDup_singleton.
  - repeat constructor; discriminate.
Defined.

(** X4: the loop stops at the first entry that does not pass.  After
    entries that all pass, an entry that is the bail sentinel or names a
    missing file ends the loop with a normal return, deletes the virtual
    Directory if there is one, and leaves the songs of the parent as the
    entries before it left them; an exception of [NextSong] ends it by
    [std::terminate] with the tree exactly as the entries before it left
    it.  In both cases nothing after that entry is read. *)
Theorem loop_stops_at_first_failure MapUTF8 stat IsAbsoluteOrHasScheme
    (parent : Directory) (directory : option nat)
    (good : list DetachedSong) (ev : SongEvent) (rest : list SongEvent) :
  Forall (passes MapUTF8 stat (path parent)) good →
  match ev with
  | Raise => True
  | Yield song => ¬ passes MapUTF8 stat (path parent) song
  end →
  let r := UpdatePlaylistFile_contents MapUTF8 stat IsAbsoluteOrHasScheme
             parent directory (yielding good ++ ev :: rest) in
  let r0 := UpdatePlaylistFile_contents MapUTF8 stat IsAbsoluteOrHasScheme
              parent directory (yielding good) in
  unread r = rest
  ∧ songs (parent_after r) = songs (parent_after r0)
  ∧ remove_calls r = remove_calls r0
  ∧ match ev with
    | Raise =>
        exit r = Terminated ∧ parent_after r = parent_after r0
        ∧ directory_deleted r = false
    | Yield _ =>
        exit r = Returned
        ∧ match directory with
          | Some d =>
              children (parent_after r) = delete d (children (parent_after r0))
              ∧ directory_deleted r = true
          | None =>
              children (parent_after r) = children (parent_after r0)
              ∧ directory_deleted r = false
          end
    end.
Proof.
  intros Hall Hev r r0.
  set (st := foldl (λ st song, accepted IsAbsoluteOrHasScheme directory song st)
               (enter_loop parent) good).
  assert (r0 = mkExpanded Returned (leave_loop parent st) (deleted st)
                 (removals st) []) as ->.
  { unfold r0. rewrite <- (app_nil_r (yielding good)).
    by rewrite run_contents_yielding. }
  unfold r. clear r. rewrite run_contents_yielding by done. fold st.
  assert (deleted st = false) as Hdel.
  { unfold st. by rewrite accepted_all_deleted. }
  destruct ev as [song|]; [|by rewrite drain_raise, Hdel].
  assert (uri song = bail_uri
          ∨ uri song ≠ bail_uri
            ∧ stat (probe_path MapUTF8 (path parent) (uri song)) = false)
    as [Hb|[Hb Hs]].
  { destruct (decide (uri song = bail_uri)); [by left|right].
    split; [done|]. destruct (stat _) eqn:E; [|done].
    exfalso. apply Hev. by split. }
  - rewrite drain_bail by done.
    destruct directory; cbn; rewrite ?Hdel; done.
  - destruct (drain_missing MapUTF8 stat IsAbsoluteOrHasScheme (path parent)
                directory st song rest Hb Hs)
      as (st1 & -> & _ & Hso & Hc & Hd & Hr).
    destruct directory; cbn; rewrite ?Hso, ?Hc, ?Hr, ?Hd, ?Hdel; done.
Qed.

Lemma loop_stops_at_first_failure_witness :
  let r := UpdatePlaylistFile_contents music_MapUTF8
             (stat_in ["/music/a.mp3"]) is_absolute_or_has_scheme
             album_fresh (Some 0)
             (yielding [mkDetachedSong "a.mp3" ""]
              ++ entry "gone.mp3" :: [entry "b.mp3"]) in
  let r0 := UpdatePlaylistFile_contents music_MapUTF8
              (stat_in ["/music/a.mp3"]) is_absolute_or_has_scheme
              album_fresh (Some 0) (yielding [mkDetachedSong "a.mp3" ""]) in
  unread r = [entry "b.mp3"]
  ∧ songs (parent_after r) = songs (parent_after r0)
  ∧ remove_calls r = remove_calls r0
  ∧ exit r = Returned
  ∧ children (parent_after r) = delete 0 (children (parent_after r0))
  ∧ directory_deleted r = true.
Proof.
  apply (loop_stops_at_first_failure music_MapUTF8
           (stat_in ["/music/a.mp3"]) is_absolute_or_has_scheme
           album_fresh (Some 0) [mkDetachedSong "a.mp3" ""]
           (entry "gone.mp3") [entry "b.mp3"]).
  - repeat constructor; discriminate.
  - intros [_ H]. discriminate.
Defined.

(** X5: empty-result deletion.  With a live virtual Directory, an opened
    stream and entries that all pass, the run returns normally; the virtual
    Directory is deleted exactly when it ends up without songs, that is when
    it had none and the playlist yielded no entry, and otherwise it stays
    with one more song per entry. *)
Theorem scan_deletes_empty_directory MapUTF8 stat IsAbsoluteOrHasScheme Build
    (parent : Directory) (d : nat) (dir : Directory) (name0 : string)
    (plugin : PlaylistPlugin) (entries : list DetachedSong) :
  children parent !! d = Some dir →
  open_stream plugin (uri_utf8 MapUTF8 Build parent name0)
  = OpenOk (yielding entries) →
  Forall (passes MapUTF8 stat (path parent)) entries →
  let r := scan MapUTF8 stat IsAbsoluteOrHasScheme Build parent (Some d)
             name0 plugin in
  exit r = Returned
  ∧ unread r = []
  ∧ (songs dir = [] ∧ entries = [] →
     directory_deleted r = true ∧ parent_after r
     = set_children (delete d (children parent)) parent)
  ∧ (songs dir ≠ [] ∨ entries ≠ [] →
     directory_deleted r = false
     ∧ ∃ dir', children (parent_after r) !! d = Some dir'
               ∧ length (songs dir') = length (songs dir) + length entries).
Proof.
  intros Hd Hopen Hall. cbv zeta. unfold scan. rewrite Hopen.
  destruct (run_contents_all_pass MapUTF8 stat IsAbsoluteOrHasScheme
              parent d dir entries Hd Hall) as (Hx & Hu & Hdel & Hc).
  assert (children (parent_after (UpdatePlaylistFile_contents MapUTF8 stat
            IsAbsoluteOrHasScheme parent (Some d) (yielding entries))) !! d
          = Some (set_songs (songs dir ++ new_songs IsAbsoluteOrHasScheme 0 entries)
                            dir)) as Hat.
  { rewrite Hc. apply list_lookup_insert_eq. by eapply lookup_lt_Some. }
  rewrite Hx, Hdel, Hat. unfold IsEmpty. cbn [songs set_songs].
  destruct (songs dir ++ new_songs IsAbsoluteOrHasScheme 0 entries)%list
    as [|v l] eqn:E.
  - apply app_eq_nil in E as [E1 E2]. cbn.
    split; [done|]. split; [done|]. split.
    + intros _. split; [done|].
      destruct entries; [|discriminate].
      unfold UpdatePlaylistFile_contents. simpl. rewrite leave_enter.
      unfold LockDeleteDirectory. done.
    + intros [H|H]; [done|]. destruct entries; [done|discriminate].
  - split; [done|]. split; [done|]. split.
    + intros [H1 H2]. rewrite H1, H2 in E. discriminate.
    + intros _. split; [done|]. eexists. split; [exact Hat|].
      cbn [songs set_songs]. rewrite <- E.
      by rewrite length_app, new_songs_length.
Qed.

Lemma scan_deletes_empty_directory_witness :
  let r := scan music_MapUTF8 (stat_in []) is_absolute_or_has_scheme build_path
             album_fresh (Some 0) "album.m3u" (plugin_yielding (yielding [])) in
  exit r = Returned
  ∧ unread r = []
  ∧ (@nil Song = [] ∧ @nil DetachedSong = [] →
     directory_deleted r = true ∧ parent_after r
     = set_children (delete 0 (children album_fresh)) album_fresh)
  ∧ (@nil Song ≠ [] ∨ @nil DetachedSong ≠ [] →
     directory_deleted r = false
     ∧ ∃ dir', children (parent_after r) !! 0 = Some dir'
               ∧ length (songs dir') = 0 + 0).
Proof.
  apply (scan_deletes_empty_directory music_MapUTF8 (stat_in [])
           is_absolute_or_has_scheme build_path album_fresh 0
           (mkDirectory "album.m3u" "album.m3u" false DEVICE_PLAYLIST 5 [] [] [])
           "album.m3u" (plugin_yielding (yielding [])) []).
  - reflexivity.
  - reflexivity.
  - constructor.
Defined.

(** X6: a stream that cannot be opened rolls the playlist back.  Whether
    the opener returns no enumerator or throws, the run returns normally
    with the songs of the parent untouched; the Directory the synchronizer
    handed over is deleted, and with a null directory the children stay as
    they are. *)
Theorem open_failure_leaves_no_directory MapUTF8 stat IsAbsoluteOrHasScheme Build
    LockMakeVirtualDirectoryIfModified
    (parent : Directory) (modified0 : bool) (name0 : string)
    (info : StorageFileInfo) (plugin : PlaylistPlugin)
    (parent1 : Directory) (modified1 : bool) (directory : option nat) :
  LockMakeVirtualDirectoryIfModified parent modified0 name0 info DEVICE_PLAYLIST
  = (parent1, modified1, directory) →
  (∀ e, open_stream plugin (uri_utf8 MapUTF8 Build parent1 name0) ≠ OpenOk e) →
  let r := (UpdatePlaylistFile_plugin MapUTF8 stat IsAbsoluteOrHasScheme Build
              LockMakeVirtualDirectoryIfModified
              parent modified0 name0 info plugin).1 in
  exit r = Returned
  ∧ songs (parent_after r) = songs parent1
  ∧ playlists (parent_after r) = playlists parent1
  ∧ remove_calls r = []
  ∧ match directory with
    | Some d => children (parent_after r) = delete d (children parent1)
    | None => children (parent_after r) = children parent1
    end.
Proof.
  intros Hsync Hno. cbv zeta. erewrite run_plugin_unfold by exact Hsync.
  cbn [fst]. unfold scan.
  destruct (open_stream plugin _) as [| |e]; [| |by destruct (Hno e)];
    by destruct directory.
Qed.

Lemma open_failure_leaves_no_directory_witness :
  let r := (UpdatePlaylistFile_plugin music_MapUTF8 (stat_in [])
              is_absolute_or_has_scheme build_path synchronize
              album false "album.m3u" (mkStorageFileInfo 5)
              (mkPlaylistPlugin "m3u" (λ _, OpenThrows))).1 in
  exit r = Returned
  ∧ songs (parent_after r) = songs album_fresh
  ∧ playlists (parent_after r) = playlists album_fresh
  ∧ remove_calls r = []
  ∧ children (parent_after r) = delete 0 (children album_fresh).
Proof.
  apply (open_failure_leaves_no_directory music_MapUTF8 (stat_in [])
           is_absolute_or_has_scheme build_path synchronize
           album false "album.m3u" (mkStorageFileInfo 5)
           (mkPlaylistPlugin "m3u" (λ _, OpenThrows))
           album_fresh false (Some 0)).
  - reflexivity.
  - intros e. discriminate.
Defined.

(** ** More about the purger *)

Lemma lookup_dir_app root p q :
  lookup_dir root (p ++ q)
  = match lookup_dir root p with
    | Some d => lookup_dir d q
    | None => None
    end.
Proof.
  revert root. induction p as [|i p IH]; intros root; simpl; [done|].
  destruct (children root !! i); [apply IH|done].
Qed.

Lemma nsongs_alter_songs g dir t p :
  nsongs (alter_songs g dir t) p
  = if decide (p = dir) then from_option (λ l, length (g l)) 0 (songs_at t p)
    else nsongs t p.
Proof.
  unfold nsongs. rewrite songs_at_alter_songs.
  case_decide; by destruct (songs_at t p).
Qed.

Lemma purge_progress_refl st : purge_progress st st.
Proof. split; [done|]. by left. Qed.

Lemma purge_progress_trans st1 st2 st3 :
  purge_progress st1 st2 → purge_progress st2 st3 → purge_progress st1 st3.
Proof.
  intros [Hle12 H12] [Hle23 H23]. split.
  { intros p. specialize (Hle12 p). specialize (Hle23 p). lia. }
  destruct H12 as [[Hm12 He12]|[Hm12 (p & Hp)]].
  - destruct H23 as [[Hm23 He23]|[Hm23 (p & Hp)]].
    + left. split; [congruence|]. intros p. by rewrite He23.
    + right. split; [done|]. exists p. by rewrite <- He12.
  - right. split.
    + destruct H23 as [[Hm23 _]|[Hm23 _]]; congruence.
    + exists p. specialize (Hle23 p). lia.
Qed.

Section MorePurgeFacts.

Variable IsAbsoluteOrHasScheme : string → bool.
Variable LookupTargetSong : Directory → DirPath → string → option SongRef.

Abbreviation purge_song := (purge_song IsAbsoluteOrHasScheme LookupTargetSong).
Abbreviation ForEachSongSafe :=
  (ForEachSongSafe IsAbsoluteOrHasScheme LookupTargetSong).
Abbreviation visit := (visit IsAbsoluteOrHasScheme LookupTargetSong).
Abbreviation purge_from := (purge_from IsAbsoluteOrHasScheme LookupTargetSong).

Lemma purge_song_progress dir i song st :
  lookup_song (tree st) (dir, i) = Some song →
  purge_progress st (purge_song dir i song st).1.
Proof.
  intros Hsong. unfold purge_song.
  destruct (negb _ && negb _); [|apply purge_progress_refl].
  rewrite lookup_song_songs_at in Hsong. simpl in Hsong.
  destruct (LookupTargetSong _ _ _) as [t|]; simpl.
  - assert (∀ p, nsongs (set_in_playlist t (tree st)) p = nsongs (tree st) p)
      as Heq.
    { intros p. unfold set_in_playlist. rewrite nsongs_alter_songs.
      case_decide; [|done]. unfold nsongs.
      destruct (songs_at (tree st) p); simpl; [apply length_alter|done]. }
    split; cbn [tree modified]; [intros p; by rewrite Heq|]. by left.
  - destruct (songs_at (tree st) dir) as [l|] eqn:El; [|done].
    simpl in Hsong. apply lookup_lt_Some in Hsong.
    assert (nsongs (DeleteSong dir i (tree st)) dir < nsongs (tree st) dir)%nat
      as Hlt.
    { unfold DeleteSong. rewrite nsongs_alter_songs, decide_True by done.
      unfold nsongs. rewrite El. simpl. rewrite length_delete; [lia|].
      by apply lookup_lt_is_Some_2. }
    split; cbn [tree modified].
    + intros p. destruct (decide (p = dir)) as [->|Hne]; [lia|].
      unfold DeleteSong. by rewrite nsongs_alter_songs, decide_False.
    + right. split; [done|]. by exists dir.
Qed.

Lemma ForEachSongSafe_progress dir n : ∀ i st,
  purge_progress st (ForEachSongSafe n dir i st).
Proof.
  induction n as [|n IH]; intros i st; simpl.
  - apply purge_progress_refl.
  - destruct (lookup_song (tree st) (dir, i)) as [song|] eqn:Hsong;
      [|apply purge_progress_refl].
    pose proof (purge_song_progress dir i song st Hsong) as Hstep.
    destruct (purge_song dir i song st) as [st' gone]. simpl in Hstep.
    eapply purge_progress_trans; [exact Hstep|apply IH].
Qed.

Lemma visit_progress dir st : purge_progress st (visit dir st).
Proof.
  unfold visit.
  destruct (lookup_dir (tree st) dir) as [d|]; [|apply purge_progress_refl].
  destruct (IsPlaylist d); [|apply purge_progress_refl].
  apply ForEachSongSafe_progress.
Qed.

Lemma for_each_child_progress f dir cs :
  Forall (λ c, ∀ dir' st, purge_progress st (f c dir' st)) cs →
  ∀ i st, purge_progress st (for_each_child f dir cs i st).
Proof.
  induction 1 as [|c cs Hc _ IH]; intros i st; simpl.
  - apply purge_progress_refl.
  - eapply purge_progress_trans; [apply Hc|apply IH].
Qed.

Lemma purge_from_progress d : ∀ dir st,
  purge_progress st (purge_from d dir st).
Proof.
  induction d as [n p r dv m cs ss pl IH] using Directory_nested_ind.
  intros dir st. simpl.
  eapply purge_progress_trans; [|apply visit_progress].
  by apply for_each_child_progress.
Qed.

(** A subtree without virtual playlist directories is passed over. *)
Lemma for_each_child_untouched f dir (d : Directory) st cs : ∀ i,
  (∀ k c, cs !! k = Some c → children d !! (i + k) = Some c) →
  Forall (λ c, ∀ j, children d !! j = Some c → f c (dir ++ [j])%list st = st) cs →
  for_each_child f dir cs i st = st.
Proof.
  induction cs as [|c cs IH]; intros i Hat Hall; simpl; [done|].
  apply Forall_cons in Hall as [Hc Hall].
  rewrite Hc.
  - apply IH; [|done]. intros k c' Hk.
    replace (S i + k) with (i + S k) by lia. by apply Hat.
  - specialize (Hat 0 c eq_refl). by rewrite Nat.add_0_r in Hat.
Qed.

Lemma purge_from_untouched d : ∀ dir st,
  lookup_dir (tree st) dir = Some d →
  (∀ p d', lookup_dir d p = Some d' → IsPlaylist d' = false) →
  purge_from d dir st = st.
Proof.
  induction d as [n p r dv m cs ss pl IH] using Directory_nested_ind.
  intros dir st Hd Hreal. rewrite purge_from_post_order.
  rewrite (for_each_child_untouched _ dir
             (mkDirectory n p r dv m cs ss pl) st cs 0).
  - eapply visit_real; [exact Hd|]. by apply (Hreal []).
  - done.
  - apply Forall_forall. intros c Hc j Hj.
    rewrite Forall_forall in IH. apply IH; [done| |].
    + rewrite lookup_dir_app, Hd. simpl. simpl in Hj. by rewrite Hj.
    + intros q d' Hq. apply (Hreal (j :: q)). simpl. simpl in Hj.
      by rewrite Hj.
Qed.

End MorePurgeFacts.

(** X7: a tree without virtual playlist directories is left alone: the pass
    returns it as it is, every [in_playlist] flag included, and does not
    set [modified]. *)
Theorem purge_without_playlists_is_identity IsAbsoluteOrHasScheme
    LookupTargetSong (root : Directory) (modified0 : bool) :
  (∀ p d, lookup_dir root p = Some d → IsPlaylist d = false) →
  PurgeDanglingFromPlaylists IsAbsoluteOrHasScheme LookupTargetSong
    root modified0
  = mkPurged root modified0.
Proof.
  intros Hreal. unfold PurgeDanglingFromPlaylists.
  by apply purge_from_untouched.
Qed.

Lemma purge_without_playlists_is_identity_witness :
  PurgeDanglingFromPlaylists is_absolute_or_has_scheme resolve_target
    album false
  = mkPurged album false.
Proof.
  apply (purge_without_playlists_is_identity is_absolute_or_has_scheme
           resolve_target album false).
  intros [|i p] d H; simpl in H.
  - by inversion H.
  - by destruct i.
Defined.

(** X8: the pass reports its deletions.  It never adds a song to any
    directory, and [modified] is true afterwards exactly when it was true
    before or some directory has fewer songs than before. *)
Theorem purge_sets_modified_iff_deleted IsAbsoluteOrHasScheme LookupTargetSong
    (root : Directory) (modified0 : bool) :
  let r := PurgeDanglingFromPlaylists IsAbsoluteOrHasScheme LookupTargetSong
             root modified0 in
  (∀ p, (nsongs (tree r) p ≤ nsongs root p)%nat)
  ∧ (modified r = true
     ↔ modified0 = true ∨ ∃ p, (nsongs (tree r) p < nsongs root p)%nat).
Proof.
  cbv zeta. unfold PurgeDanglingFromPlaylists.
  destruct (purge_from_progress IsAbsoluteOrHasScheme LookupTargetSong root []
              (mkPurged root modified0)) as [Hle H].
  simpl in *. split; [done|].
  destruct H as [[Hm He]|[Hm Hp]].
  - rewrite Hm. split; [by left|]. intros [?|(p & Hp)]; [done|].
    rewrite He in Hp. lia.
  - split; [by right|done].
Qed.

(** * The twolame encoder, property by property *)

Lemma size_sub_wrap (len pos : N) :
  (pos ≤ len)%N → (len ≤ output_buffer_size)%N →
  ((len + 2 ^ 64 - pos) mod 2 ^ 64 = len - pos)%N.
Proof.
  unfold output_buffer_size. intros Hp Hl.
  change (2 ^ 64)%N with 18446744073709551616%N.
  replace (len + 18446744073709551616 - pos)%N
    with ((len - pos) + 1 * 18446744073709551616)%N by lia.
  rewrite N.Div0.mod_add. apply N.mod_small. lia.
Qed.

Lemma size_add_wrap (len pos n : N) :
  (pos ≤ len)%N → (len ≤ output_buffer_size)%N → (n ≤ len - pos)%N →
  ((pos + n) mod 2 ^ 64 = pos + n)%N.
Proof.
  unfold output_buffer_size. intros Hp Hl Hn. apply N.mod_small.
  change (2 ^ 64)%N with 18446744073709551616%N. lia.
Qed.

Section TwolameFacts.

Context {SampleFormat float twolame_options : Type}.
Variable lib : @LibTwolame float twolame_options.

Abbreviation Encoder := (@TwolameEncoder SampleFormat float twolame_options).
Abbreviation read := (@twolame_encoder_read SampleFormat float twolame_options lib).

(** A read with no flush pending: it copies the next bytes of the buffer,
    as many as asked for or as are left, and moves the position past
    them. *)
Lemma read_plain (e : Encoder) o n :
  buffer_ok e → flush e = false →
  let k := N.min n (output_buffer_length e - output_buffer_position e) in
  read e o n
  = Some (take (N.to_nat k)
               (drop (N.to_nat (output_buffer_position e)) (output_buffer e)),
          mkTwolameEncoder (audio_format e) (quality e) (bitrate e) (options e)
            (output_buffer e) (output_buffer_length e)
            (output_buffer_position e + k) false).
Proof.
  intros (Hsize & Hpos & Hlen) Hflush k. unfold twolame_encoder_read.
  destruct (N.leb_spec (output_buffer_position e) (output_buffer_length e))
    as [_|?]; [|lia].
  rewrite Hflush, andb_false_r. cbn [negb].
  rewrite size_sub_wrap by done.
  assert ((if (output_buffer_length e - output_buffer_position e <? n)%N
           then (output_buffer_length e - output_buffer_position e)%N
           else n) = k) as ->.
  { unfold k. destruct (N.ltb_spec
      (output_buffer_length e - output_buffer_position e) n); lia. }
  rewrite (size_add_wrap (output_buffer_length e)) by (done || unfold k; lia).
  by rewrite Hflush.
Qed.

Lemma read_plain_ok (e : Encoder) n :
  buffer_ok e →
  let k := N.min n (output_buffer_length e - output_buffer_position e) in
  buffer_ok (mkTwolameEncoder (audio_format e) (quality e) (bitrate e)
               (options e) (output_buffer e) (output_buffer_length e)
               (output_buffer_position e + k) false)
  ∧ length (take (N.to_nat k)
              (drop (N.to_nat (output_buffer_position e)) (output_buffer e)))
    = N.to_nat k.
Proof.
  intros (Hsize & Hpos & Hlen) k. split.
  - repeat split; cbn; [done| |done]. unfold k. lia.
  - rewrite length_take, length_drop. unfold k, output_buffer_size in *. lia.
Qed.

End TwolameFacts.

(** X9: a read with no flush pending hands out the next bytes of the output
    buffer: as many as asked for, or all that are left if that is less.  It
    stays inside the buffer and moves the position past the bytes it
    copied; every other field of the encoder is as it was. *)
Theorem read_returns_next_bytes {SampleFormat float twolame_options : Type}
    (lib : @LibTwolame float twolame_options)
    (e : @TwolameEncoder SampleFormat float twolame_options)
    (o : twolame_options) (n : N) :
  buffer_ok e → flush e = false →
  ∃ dest e',
    twolame_encoder_read lib e o n = Some (dest, e')
    ∧ N.of_nat (length dest)
      = N.min n (output_buffer_length e - output_buffer_position e)
    ∧ dest = take (length dest)
               (drop (N.to_nat (output_buffer_position e)) (output_buffer e))
    ∧ e' = mkTwolameEncoder (audio_format e) (quality e) (bitrate e)
             (options e) (output_buffer e) (output_buffer_length e)
             (output_buffer_position e + N.of_nat (length dest)) (flush e)
    ∧ buffer_ok e'.
Proof.
  intros Hok Hflush.
  destruct (read_plain_ok e n Hok) as [Hok' Hlen].
  eexists _, _. split; [by apply read_plain|].
  rewrite Hlen, N2Nat.id, Hflush. repeat split; try done; apply Hok'.
Qed.

Lemma read_returns_next_bytes_witness :
  ∃ dest e',
    twolame_encoder_read copying_library (loaded_encoder 1 false) 0 10
    = Some (dest, e')
    ∧ N.of_nat (length dest)
      = N.min 10 (output_buffer_length (loaded_encoder 1 false)
                  - output_buffer_position (loaded_encoder 1 false))
    ∧ dest = take (length dest)
               (drop (N.to_nat (output_buffer_position (loaded_encoder 1 false)))
                     (output_buffer (loaded_encoder 1 false)))
    ∧ e' = mkTwolameEncoder (audio_format (loaded_encoder 1 false))
             (quality (loaded_encoder 1 false))
             (bitrate (loaded_encoder 1 false))
             (options (loaded_encoder 1 false))
             (output_buffer (loaded_encoder 1 false))
             (output_buffer_length (loaded_encoder 1 false))
             (output_buffer_position (loaded_encoder 1 false)
              + N.of_nat (length dest))
             (flush (loaded_encoder 1 false))
    ∧ buffer_ok e'.
Proof.
  apply (read_returns_next_bytes copying_library (loaded_encoder 1 false) 0 10).
  - split; [vm_compute; reflexivity|]. split; vm_compute; discriminate.
  - reflexivity.
Defined.

(** X10: reading in two chunks is reading once.  With no flush pending, a
    read of [n1] bytes followed by a read of [n2] bytes copies, together,
    what one read of [n1 + n2] bytes copies, and leaves the same encoder. *)
Theorem read_in_two_chunks {SampleFormat float twolame_options : Type}
    (lib : @LibTwolame float twolame_options)
    (e e1 e2 : @TwolameEncoder SampleFormat float twolame_options)
    (o : twolame_options) (n1 n2 : N) (d1 d2 : list Byte.byte) :
  buffer_ok e → flush e = false →
  twolame_encoder_read lib e o n1 = Some (d1, e1) →
  twolame_encoder_read lib e1 o n2 = Some (d2, e2) →
  twolame_encoder_read lib e o (n1 + n2) = Some ((d1 ++ d2)%list, e2).
Proof.
  intros Hok Hflush H1 H2.
  destruct (read_plain_ok e n1 Hok) as [Hok1 _].
  rewrite read_plain in H1 by done. inversion H1; subst d1 e1; clear H1.
  rewrite read_plain in H2 by done. inversion H2; subst d2 e2; clear H2.
  rewrite read_plain by done. cbn.
  destruct Hok as (Hsize & Hpos & Hlen).
  set (len := output_buffer_length e) in *.
  set (pos := output_buffer_position e) in *.
  set (k1 := N.min n1 (len - pos)).
  set (k2 := N.min n2 (len - (pos + k1))).
  assert (N.min (n1 + n2) (len - pos) = (k1 + k2)%N) as ->
    by (unfold k1, k2; lia).
  f_equal. f_equal.
  - rewrite !N2Nat.inj_add, <- drop_drop. symmetry. apply take_take_drop.
  - f_equal. lia.
Qed.

Lemma read_in_two_chunks_witness :
  twolame_encoder_read copying_library (loaded_encoder 0 false) 0 (1 + 5)
  = Some (([Byte.x01] ++ [Byte.x02; Byte.x03; Byte.x04])%list,
          loaded_encoder 4 false).
Proof.
  apply (read_in_two_chunks copying_library
           (loaded_encoder 0 false) (loaded_encoder 1 false)
           (loaded_encoder 4 false) 0 1 5).
  - split; [vm_compute; reflexivity|]. split; vm_compute; discriminate.
  - reflexivity.
  - reflexivity.
  - reflexivity.
Defined.

(** X11: what is written can be read back.  On a drained buffer with no
    flush pending and a frame size that is not zero, when the library
    encodes [ret >= 0] bytes within the size it was given, the write
    succeeds, and a following read of at least [ret] bytes hands out
    exactly the bytes the library produced and drains the buffer again, so
    that the next write passes its assertion and returns. *)
Theorem write_then_read_returns_output
    {SampleFormat float twolame_options : Type}
    (GetFrameSize : @AudioFormat SampleFormat → N)
    (lib : @LibTwolame float twolame_options)
    (e : @TwolameEncoder SampleFormat float twolame_options)
    (o o1 : twolame_options) (data buf : list Byte.byte) (len n : N) (ret : Z) :
  encoding_in_bounds lib →
  buffer_ok e →
  output_buffer_position e = output_buffer_length e →
  flush e = false →
  GetFrameSize (audio_format e) ≠ 0%N →
  twolame_encode_buffer_interleaved lib o data
    (to_unsigned (len / GetFrameSize (audio_format e)))
    (output_buffer e) output_buffer_size
  = (o1, buf, ret) →
  (0 ≤ ret)%Z →
  (Z.to_N ret ≤ n)%N →
  ∃ e1 e2,
    twolame_encoder_write GetFrameSize lib e o data len = inr (None, e1)
    ∧ buffer_ok e1
    ∧ twolame_encoder_read lib e1 o1 n = Some (take (Z.to_nat ret) buf, e2)
    ∧ length (take (Z.to_nat ret) buf) = Z.to_nat ret
    ∧ buffer_ok e2
    ∧ output_buffer_position e2 = output_buffer_length e2
    ∧ ∀ o' data' len',
        ∃ r, twolame_encoder_write GetFrameSize lib e2 o' data' len' = inr r.
Proof.
  intros [Henc _] (Hsize & Hpos & Hlen) Hdrained Hflush Hframe Hcall Hret Hn.
  apply N.eqb_neq in Hframe.
  pose proof (Henc o data (to_unsigned (len / GetFrameSize (audio_format e)))
                (output_buffer e) output_buffer_size) as Hb.
  rewrite Hcall in Hb. destruct Hb as [Hbuf Hle].
  set (e1 := mkTwolameEncoder (audio_format e) (quality e) (bitrate e)
               (Some o1) buf (Z.to_N ret) 0 (flush e)).
  assert (buffer_ok e1) as Hok1.
  { repeat split; cbn; [by rewrite Hbuf|lia|lia]. }
  assert (twolame_encoder_write GetFrameSize lib e o data len = inr (None, e1))
    as Hw.
  { unfold twolame_encoder_write. rewrite Hdrained, N.eqb_refl, Hframe.
    cbn [negb]. rewrite Hcall. destruct (Z.ltb_spec ret 0); [lia|done]. }
  destruct (read_plain_ok e1 n Hok1) as [Hok2 Hlen2].
  pose proof (read_plain lib e1 o1 n Hok1 Hflush) as Hr.
  cbn in Hr, Hok2, Hlen2. rewrite N.sub_0_r in Hr, Hok2, Hlen2.
  rewrite N.min_r in Hr, Hok2, Hlen2 by done.
  rewrite Z_N_nat in Hr, Hlen2.
  eexists e1, _. split; [exact Hw|]. split; [done|].
  split; [exact Hr|]. split; [exact Hlen2|]. split; [exact Hok2|].
  split; [reflexivity|].
  intros o' data' len'. unfold twolame_encoder_write.
  cbn [output_buffer_position output_buffer_length audio_format].
  rewrite N.add_0_l, N.eqb_refl, Hframe. cbn [negb].
  match goal with
  | |- context [twolame_encode_buffer_interleaved ?a ?b ?c ?d ?f ?g] =>
      destruct (twolame_encode_buffer_interleaved a b c d f g) as [[? ?] r]
  end.
  destruct (Z.ltb_spec r 0); by eexists.
Qed.

Lemma copying_library_in_bounds : encoding_in_bounds copying_library.
Proof.
  split.
  - intros o data n buf size. cbn. split.
    + rewrite length_app, length_drop, length_take. lia.
    + rewrite length_take. lia.
  - intros o buf size. cbn. split; [done|lia].
Qed.

Lemma write_then_read_returns_output_witness :
  let call :=
    twolame_encode_buffer_interleaved copying_library 0%nat
      [Byte.x01; Byte.x02; Byte.x03; Byte.x04]
      (to_unsigned (4 / 4)) (output_buffer opened_encoder) output_buffer_size in
  ∃ e1 e2,
    twolame_encoder_write (λ _, 4%N) copying_library opened_encoder 0%nat
      [Byte.x01; Byte.x02; Byte.x03; Byte.x04] 4 = inr (None, e1)
    ∧ buffer_ok e1
    ∧ twolame_encoder_read copying_library e1 call.1.1 10
      = Some (take (Z.to_nat call.2) call.1.2, e2)
    ∧ length (take (Z.to_nat call.2) call.1.2) = Z.to_nat call.2
    ∧ buffer_ok e2
    ∧ output_buffer_position e2 = output_buffer_length e2
    ∧ ∀ o' data' len',
        ∃ r, twolame_encoder_write (λ _, 4%N) copying_library e2 o' data' len'
             = inr r.
Proof.
  apply (write_then_read_returns_output (λ _, 4%N) copying_library
           opened_encoder 0%nat).
  - exact copying_library_in_bounds.
  - split; [vm_compute; reflexivity|]. split; vm_compute; discriminate.
  - reflexivity.
  - reflexivity.
  - discriminate.
  - reflexivity.
  - vm_compute. discriminate.
  - vm_compute. discriminate.
Defined.

(** X12: a pending flush is run once, when the buffer is drained.  The read
    then calls [twolame_encode_flush], clears the flag and keeps the options
    the library gave back; if the library has flushed [ret > 0] bytes the
    read hands out the first of them, as many as asked for, and otherwise
    it hands out nothing and leaves the positions alone. *)
Theorem drained_read_runs_flush {SampleFormat float twolame_options : Type}
    (lib : @LibTwolame float twolame_options)
    (e : @TwolameEncoder SampleFormat float twolame_options)
    (o o1 : twolame_options) (buf : list Byte.byte) (n : N) (ret : Z) :
  encoding_in_bounds lib →
  buffer_ok e →
  output_buffer_position e = output_buffer_length e →
  flush e = true →
  twolame_encode_flush lib o (output_buffer e) output_buffer_size
  = (o1, buf, ret) →
  ∃ dest e',
    twolame_encoder_read lib e o n = Some (dest, e')
    ∧ flush e' = false
    ∧ options e' = Some o1
    ∧ output_buffer e' = buf
    ∧ buffer_ok e'
    ∧ ((0 < ret)%Z →
       dest = take (N.to_nat (N.min n (Z.to_N ret))) buf
       ∧ N.of_nat (length dest) = N.min n (Z.to_N ret)
       ∧ output_buffer_length e' = Z.to_N ret
       ∧ output_buffer_position e' = N.min n (Z.to_N ret))
    ∧ ((ret ≤ 0)%Z →
       dest = []
       ∧ output_buffer_length e' = output_buffer_length e
       ∧ output_buffer_position e' = output_buffer_position e).
Proof.
  intros [_ Henc] (Hsize & Hpos & Hlen) Hdrained Hflush Hcall.
  pose proof (Henc o (output_buffer e) output_buffer_size) as Hb.
  rewrite Hcall in Hb. destruct Hb as [Hbuf Hle].
  set (e1 := if (0 <? ret)%Z then
               mkTwolameEncoder (audio_format e) (quality e) (bitrate e)
                 (Some o1) buf (Z.to_N ret) 0 false
             else
               mkTwolameEncoder (audio_format e) (quality e) (bitrate e)
                 (Some o1) buf (output_buffer_length e)
                 (output_buffer_position e) false).
  assert (buffer_ok e1 ∧ flush e1 = false) as [Hok1 Hf1].
  { unfold e1. destruct (0 <? ret)%Z; repeat split; cbn;
      rewrite ?Hbuf; (done || lia). }
  assert (twolame_encoder_read lib e o n
          = twolame_encoder_read lib e1 o1 n) as ->.
  { assert ((output_buffer_position e =? output_buffer_length e)%N = true)
      as Heq by (by apply N.eqb_eq).
    destruct Hok1 as (_ & Hp1 & _).
    unfold twolame_encoder_read.
    destruct (N.leb_spec (output_buffer_position e) (output_buffer_length e))
      as [_|?]; [|lia].
    destruct (N.leb_spec (output_buffer_position e1) (output_buffer_length e1))
      as [_|?]; [|lia].
    rewrite Heq, Hflush, Hcall, Hf1, andb_false_r. cbn [negb andb].
    reflexivity. }
  destruct (read_plain_ok e1 n Hok1) as [Hok2 Hlen2].
  rewrite read_plain by done.
  eexists _, _. split; [reflexivity|].
  split; [reflexivity|].
  split; [unfold e1; by destruct (0 <? ret)%Z|].
  split; [unfold e1; by destruct (0 <? ret)%Z|].
  split; [exact Hok2|].
  unfold e1 in *. destruct (Z.ltb_spec 0 ret) as [Hpos'|Hneg]; cbn in *.
  - split; [intros _|intros; lia]. rewrite N.sub_0_r in *.
    split; [reflexivity|]. split; [|split; [reflexivity|apply N.add_0_l]].
    etrans; [apply (f_equal N.of_nat); exact Hlen2|]. apply N2Nat.id.
  - split; [intros; lia|intros _].
    rewrite Hdrained, N.sub_diag, N.min_0_r in *.
    split; [reflexivity|]. split; [reflexivity|]. apply N.add_0_r.
Qed.

Lemma drained_read_runs_flush_witness :
  ∃ dest e',
    twolame_encoder_read copying_library (loaded_encoder 4 true) 0%nat 10
    = Some (dest, e')
    ∧ flush e' = false
    ∧ options e' = Some 1%nat
    ∧ output_buffer e' = four_bytes
    ∧ buffer_ok e'
    ∧ ((0 < 0)%Z →
       dest = take (N.to_nat (N.min 10 (Z.to_N 0))) four_bytes
       ∧ N.of_nat (length dest) = N.min 10 (Z.to_N 0)
       ∧ output_buffer_length e' = Z.to_N 0
       ∧ output_buffer_position e' = N.min 10 (Z.to_N 0))
    ∧ ((0 ≤ 0)%Z →
       dest = []
       ∧ output_buffer_length e' = output_buffer_length (loaded_encoder 4 true)
       ∧ output_buffer_position e'
         = output_buffer_position (loaded_encoder 4 true)).
Proof.
  apply (drained_read_runs_flush copying_library (loaded_encoder 4 true)
           0%nat 1%nat four_bytes 10 0%Z).
  - exact copying_library_in_bounds.
  - split; [vm_compute; reflexivity|]. split; vm_compute; discriminate.
  - reflexivity.
  - reflexivity.
  - reflexivity.
Defined.

(** X13: a pending flush waits for the buffered output.  While bytes are
    left in the buffer, a read hands out the next of them and does not call
    the library: the flag stays set and the options and the buffer stay as
    they are. *)
Theorem pending_flush_waits {SampleFormat float twolame_options : Type}
    (lib : @LibTwolame float twolame_options)
    (e : @TwolameEncoder SampleFormat float twolame_options)
    (o : twolame_options) (n : N) :
  buffer_ok e →
  (output_buffer_position e < output_buffer_length e)%N →
  flush e = true →
  let k := N.min n (output_buffer_length e - output_buffer_position e) in
  twolame_encoder_read lib e o n
  = Some (take (N.to_nat k)
               (drop (N.to_nat (output_buffer_position e)) (output_buffer e)),
          mkTwolameEncoder (audio_format e) (quality e) (bitrate e) (options e)
            (output_buffer e) (output_buffer_length e)
            (output_buffer_position e + k) true).
Proof.
  intros (Hsize & Hpos & Hlen) Hlt Hflush k. unfold twolame_encoder_read.
  destruct (N.leb_spec (output_buffer_position e) (output_buffer_length e))
    as [_|?]; [|lia].
  destruct (N.eqb_spec (output_buffer_position e) (output_buffer_length e))
    as [?|_]; [lia|].
  cbn [negb andb]. rewrite size_sub_wrap by done.
  assert ((if (output_buffer_length e - output_buffer_position e <? n)%N
           then (output_buffer_length e - output_buffer_position e)%N
           else n) = k) as ->.
  { unfold k. destruct (N.ltb_spec
      (output_buffer_length e - output_buffer_position e) n); lia. }
  rewrite (size_add_wrap (output_buffer_length e)) by (done || unfold k; lia).
  by rewrite Hflush.
Qed.

Lemma pending_flush_waits_witness :
  twolame_encoder_read copying_library (loaded_encoder 1 true) 0%nat 2
  = Some (take (N.to_nat (N.min 2 (4 - 1))) (drop (N.to_nat 1) four_bytes),
          mkTwolameEncoder (mkAudioFormat 44100 true 2) (-2)%Z 128%Z (Some 0%nat)
            four_bytes 4 (1 + N.min 2 (4 - 1)) true).
Proof.
  apply (pending_flush_waits copying_library (loaded_encoder 1 true) 0%nat 2).
  - split; [vm_compute; reflexivity|]. split; vm_compute; discriminate.
  - reflexivity.
  - reflexivity.
Defined.

(** X14: [Configure] accepts a block only if it sets exactly one of
    [quality] and [bitrate]: with both set, or with neither, the call
    fails whatever the values are. *)
Theorem configure_needs_exactly_one {SampleFormat float twolame_options : Type}
    (g_ascii_strtod : string → float * string)
    (g_ascii_strtoll : string → Z * string)
    (lt_minus_one gt_ten : float → bool) (minus_two : float)
    (param : config_param)
    (e : @TwolameEncoder SampleFormat float twolame_options) :
  (Configure g_ascii_strtod g_ascii_strtoll lt_minus_one gt_ten minus_two
     param e).1 = None →
  (is_Some (GetBlockValue param "quality")
   ↔ GetBlockValue param "bitrate" = None).
Proof.
  unfold Configure. intros H.
  destruct (GetBlockValue param "quality") as [value|].
  - destruct (g_ascii_strtod value) as [q endptr].
    destruct (negb _ || _ || _); [discriminate|].
    destruct (GetBlockValue param "bitrate"); [discriminate|].
    split; [done|by eexists].
  - destruct (GetBlockValue param "bitrate") as [value|]; [|discriminate].
    split; [by intros [? ?]|done].
Qed.

Lemma configure_needs_exactly_one_witness :
  is_Some (GetBlockValue (block None (Some "128")) "quality")
  ↔ GetBlockValue (block None (Some "128")) "bitrate" = None.
Proof.
  apply (configure_needs_exactly_one (SampleFormat := bool)
           (twolame_options := nat)
           whole_strtod whole_strtod (λ q, (q <? -1)%Z) (λ q, (10 <? q)%Z)
           (-2)%Z (block None (Some "128")) opened_encoder).
  reflexivity.
Defined.

(** X15: a block that sets only [bitrate] is accepted exactly when the whole
    value is a number that is positive as an [int]; the encoder then holds
    that bit rate, between 1 and 2^31 - 1, and the quality [-2.0], and its
    options and output buffer are untouched. *)
Theorem configure_bitrate_mode {SampleFormat float twolame_options : Type}
    (g_ascii_strtod : string → float * string)
    (g_ascii_strtoll : string → Z * string)
    (lt_minus_one gt_ten : float → bool) (minus_two : float)
    (param : config_param) (value : string)
    (e : @TwolameEncoder SampleFormat float twolame_options) :
  GetBlockValue param "quality" = None →
  GetBlockValue param "bitrate" = Some value →
  let r := Configure g_ascii_strtod g_ascii_strtoll lt_minus_one gt_ten
             minus_two param e in
  (r.1 = None
   ↔ (g_ascii_strtoll value).2 = ""
     ∧ (0 < to_int (g_ascii_strtoll value).1)%Z)
  ∧ (r.1 = None →
     bitrate r.2 = to_int (g_ascii_strtoll value).1
     ∧ (1 ≤ bitrate r.2 ≤ 2 ^ 31 - 1)%Z
     ∧ quality r.2 = minus_two
     ∧ options r.2 = options e
     ∧ output_buffer r.2 = output_buffer e
     ∧ output_buffer_length r.2 = output_buffer_length e
     ∧ output_buffer_position r.2 = output_buffer_position e)
  ∧ (r.1 ≠ None → r.1 = Some (BitrateNotPositive (line param))).
Proof.
  intros Hq Hb. cbv zeta. unfold Configure. rewrite Hq, Hb.
  destruct (g_ascii_strtoll value) as [b endptr]. cbn [fst snd].
  cbn [bitrate set_bitrate].
  assert (- 2 ^ 31 ≤ to_int b ≤ 2 ^ 31 - 1)%Z as Hrange.
  { unfold to_int. pose proof (Z.mod_pos_bound (b + 2 ^ 31) (2 ^ 32)). lia. }
  destruct (String.eqb_spec endptr "") as [->|Hne]; cbn [negb orb].
  - destruct (Z.leb_spec (to_int b) 0) as [Hle|Hgt]; cbn.
    + split; [split; [discriminate|lia]|]. split; [discriminate|done].
    + split; [split; [done|done]|]. split; [|done].
      intros _. repeat split; try done; lia.
  - split; [split; [discriminate|by intros [? _]]|].
    split; [discriminate|done].
Qed.

Lemma configure_bitrate_mode_witness :
  let r := Configure whole_strtod whole_strtod (λ q, (q <? -1)%Z)
             (λ q, (10 <? q)%Z) (-2)%Z (block None (Some "128"))
             opened_encoder in
  (r.1 = None
   ↔ (whole_strtod "128").2 = "" ∧ (0 < to_int (whole_strtod "128").1)%Z)
  ∧ (r.1 = None →
     bitrate r.2 = to_int (whole_strtod "128").1
     ∧ (1 ≤ bitrate r.2 ≤ 2 ^ 31 - 1)%Z
     ∧ quality r.2 = (-2)%Z
     ∧ options r.2 = options opened_encoder
     ∧ output_buffer r.2 = output_buffer opened_encoder
     ∧ output_buffer_length r.2 = output_buffer_length opened_encoder
     ∧ output_buffer_position r.2 = output_buffer_position opened_encoder)
  ∧ (r.1 ≠ None → r.1 = Some (BitrateNotPositive (line (block None (Some "128"))))).
Proof.
  apply (configure_bitrate_mode whole_strtod whole_strtod (λ q, (q <? -1)%Z)
           (λ q, (10 <? q)%Z) (-2)%Z (block None (Some "128")) "128"
           opened_encoder).
  - reflexivity.
  - reflexivity.
Defined.


